(** * Setting groups of pygimplib ([pgsettinggroup.py])

    A shallow embedding of [SettingGroup]: the child map and its path
    lookup, [add], the generator [walk] with the per-group cursor used by
    [_next], the load/save coordinator [_load_save] and
    [apply_gui_values_to_settings], followed by the properties proved about
    them. *)

From Stdlib Require Import Ascii String.
From stdpp Require Import base option list gmap strings.

Local Open Scope string_scope.
Local Open Scope nat_scope.
Local Open Scope list_scope.

(** ** Python values used by the module *)

(** Exceptions raised by the modelled methods.  [ValueError] and [KeyError]
    carry the message template that the code formats, [SettingValueError] the
    keyword arguments it is raised with. *)
Inductive value_error :=
  | already_exists
  | child_of_itself
  | name_contains_separator.

Inductive type_error :=
  | missing_required_attributes (attribute_names : list string)
  | not_a_container
  | constructor_failed
  | unhashable.

Inductive key_error :=
  | setting_not_found_in_group
  | group_in_path_does_not_exist
  | setting_not_found_in_path.

(** An ordered dictionary ([collections.OrderedDict]): keys are unique, the
    order is the order of first insertion, assigning to a key that is present
    replaces the value where it stands. *)
Section OrderedDict.
Context {K V : Type} `{EqDecision K}.

Fixpoint od_get (k : K) (d : list (K * V)) : option V :=
  match d with
  | [] => None
  | (k', v) :: d' => if decide (k = k') then Some v else od_get k d'
  end.

Definition od_contains (k : K) (d : list (K * V)) : bool :=
  bool_decide (is_Some (od_get k d)).

Fixpoint od_set (k : K) (v : V) (d : list (K * V)) : list (K * V) :=
  match d with
  | [] => [(k, v)]
  | (k', v') :: d' =>
      if decide (k = k') then (k', v) :: d' else (k', v') :: od_set k v d'
  end.

Definition od_values (d : list (K * V)) : list V := d.*2.
End OrderedDict.

(** Modelled from the spec: [pgsettingpersistor.SettingPersistor] is not among
    the sources; its four status constants are distinct values. *)
Inductive Status :=
  | SUCCESS
  | READ_FAIL
  | WRITE_FAIL
  | NOT_ALL_SETTINGS_FOUND.

#[global] Instance Status_eq_dec : EqDecision Status.
Proof. solve_decision. Defined.

(** A setting source is named by an identifier. *)
Abbreviation source := string (only parsing).

(** Modelled from the spec: [pgsetting.Setting] is not among the sources.  A
    setting is a leaf with a name, a set of tags and the sources it persists
    to; [s_id] stands for the identity of the Python object. *)
Record Setting := mkSetting {
  s_id : nat;
  s_name : string;
  s_tags : gset string;
  setting_sources : list source
}.

#[global] Instance Setting_eq_dec : EqDecision Setting.
Proof. solve_decision. Defined.

(** ** [_load_save]: buckets and status aggregation *)

(** [_get_worst_status], the local function of [_load_save]. *)
Definition _get_worst_status (status_and_messages : list (Status * string)) : Status :=
  let worst_status := SUCCESS in
  let worst_status :=
    if od_contains NOT_ALL_SETTINGS_FOUND status_and_messages
    then NOT_ALL_SETTINGS_FOUND else worst_status in
  let worst_status :=
    if od_contains READ_FAIL status_and_messages then READ_FAIL
    else if od_contains WRITE_FAIL status_and_messages then WRITE_FAIL
    else worst_status in
  worst_status.

(** The key under which a setting is filed: [tuple(setting.setting_sources)],
    or the sources of the setting that occur in the given ones. *)
Definition bucket_sources (explicit : option (list source)) (setting : Setting)
  : list source :=
  match explicit with
  | None => setting_sources setting
  | Some given =>
      filter (λ src, src ∈ given) (setting_sources setting)
  end.

(** One round of the loop that fills [settings_per_sources]. *)
Definition file_setting (explicit : option (list source))
    (settings_per_sources : list (list source * list Setting)) (setting : Setting)
  : list (list source * list Setting) :=
  let sources := bucket_sources explicit setting in
  match sources with
  | [] => settings_per_sources
  | _ =>
      let d :=
        if od_contains sources settings_per_sources then settings_per_sources
        else od_set sources [] settings_per_sources in
      od_set sources (default [] (od_get sources d) ++ [setting]) d
  end.

Definition settings_per_sources_of (explicit : option (list source))
    (settings : list Setting) : list (list source * list Setting) :=
  fold_left (file_setting explicit) settings [].

(** One round of the loop over [settings_per_sources.items()]: the backend is
    called on the bucket and its message is stored under its status. *)
Definition record_status
    (load_save_func : list Setting → list source → Status * string)
    (status_and_messages : list (Status * string))
    (item : list source * list Setting) : list (Status * string) :=
  let '(status, message) := load_save_func item.2 item.1 in
  od_set status message status_and_messages.

(** The part of [_load_save] that follows the list comprehension;
    [settings] is the list it builds.  The result is the list of backend
    calls, in order, with their arguments, and the returned pair.

    The backend is a function of its arguments: within one run every call has
    a different source tuple, so any sequence of backend answers is the image
    of such a function. *)
Definition _load_save_settings
    (load_save_func : list Setting → list source → Status * string)
    (explicit : option (list source)) (settings : list Setting)
  : list (list source * list Setting) * (Status * string) :=
  let settings_per_sources := settings_per_sources_of explicit settings in
  let status_and_messages :=
    fold_left (record_status load_save_func) settings_per_sources [] in
  let worst_status := _get_worst_status status_and_messages in
  (settings_per_sources,
   (worst_status, default "" (od_get worst_status status_and_messages))).

(** ** The object store *)

(** A [SettingGroup] object is named by its identity.  A child of a group is
    a setting or a reference to a group object. *)
Abbreviation gid := nat (only parsing).

Inductive node :=
  | NSetting (s : Setting)
  | NGroup (g : gid).

#[global] Instance node_eq_dec : EqDecision node.
Proof. solve_decision. Defined.

(** The values of a dictionary that describes a setting. *)
Inductive attribute :=
  | AStr (s : string)
  | AType (setting_type : nat)
  | ATags (tags : gset string)
  | ASources (sources : list source).

(** The attributes of a [SettingGroup] that the methods below read or write.
    [_settings] is the ordered dictionary from child names to children,
    [setting_attributes] the dictionary of defaults for the settings created
    from descriptions.  The cursor [_settings_iterator] is kept in a map of
    its own (below): [walk] writes nothing else. *)
Record SettingGroup := mkGroup {
  g_name : string;
  g_tags : gset string;
  setting_attributes : list (string * attribute);
  _settings : list (string * node)
}.

(** Group objects by identity.  A reference outside the store reads as a
    group without children; no method below creates one. *)
Abbreviation heap := (gmap nat SettingGroup) (only parsing).

(** [_settings_iterator] of each group: absent for [None], otherwise the
    number of values the iterator over [_settings] has handed out. *)
Abbreviation cursors := (gmap nat nat) (only parsing).

Definition settings_of (objs : heap) (g : gid) : list (string * node) :=
  match objs !! g with
  | Some G => _settings G
  | None => []
  end.

Definition node_name (objs : heap) (n : node) : string :=
  match n with
  | NSetting s => s_name s
  | NGroup g => from_option g_name "" (objs !! g)
  end.

Definition node_tags (objs : heap) (n : node) : gset string :=
  match n with
  | NSetting s => s_tags s
  | NGroup g => from_option g_tags ∅ (objs !! g)
  end.

Inductive exn :=
  | KeyError (e : key_error)
  | TypeError (e : type_error)
  | ValueError (e : value_error)
  | SettingValueError (message : string) (setting : option Setting)
      (messages : list string) (settings : list Setting)
  | IndexError.

Inductive result (A : Type) :=
  | Ok (a : A)
  | Raise (e : exn).
Arguments Ok {A} a.
Arguments Raise {A} e.

(** ** Paths *)

(** Modelled from the spec: [pgsettingutils.SETTING_PATH_SEPARATOR] is not
    among the sources; paths are slash-separated. *)
Definition SETTING_PATH_SEPARATOR : ascii := "/"%char.

(** [SETTING_PATH_SEPARATOR in s]. *)
Fixpoint contains_separator (s : string) : bool :=
  match s with
  | EmptyString => false
  | String c s' =>
      if Ascii.eqb c SETTING_PATH_SEPARATOR then true else contains_separator s'
  end.

(** [s.split(SETTING_PATH_SEPARATOR)]: never empty. *)
Fixpoint split (s : string) : list string :=
  match s with
  | EmptyString => [EmptyString]
  | String c s' =>
      if Ascii.eqb c SETTING_PATH_SEPARATOR then EmptyString :: split s'
      else match split s' with
           | [] => [String c EmptyString]
           | w :: ws => String c w :: ws
           end
  end.

(** [(l[:-1], l[-1])] of a list that is not empty. *)
Fixpoint init_last {A} (x : A) (l : list A) : list A * A :=
  match l with
  | [] => ([], x)
  | y :: l' => let '(i, z) := init_last y l' in (x :: i, z)
  end.

(** [name in n] and [n[name]] for a name without separator.  On a group
    these are the separator-free branches of [__contains__] and
    [__getitem__].

    Modelled from the spec: [pgsetting.Setting] is not among the sources; a
    setting is a leaf without child map, so membership and subscription on it
    raise [TypeError]. *)
Definition contains_name (objs : heap) (n : node) (name : string) : result bool :=
  match n with
  | NSetting _ => Raise (TypeError not_a_container)
  | NGroup g => Ok (od_contains name (settings_of objs g))
  end.

Definition getitem_name (objs : heap) (n : node) (name : string) : result node :=
  match n with
  | NSetting _ => Raise (TypeError not_a_container)
  | NGroup g =>
      match od_get name (settings_of objs g) with
      | Some child => Ok child
      | None => Raise (KeyError setting_not_found_in_group)
      end
  end.

(** The loop of [_get_setting_from_path] over [setting_path_components[:-1]].
    A component holds no separator, so [group_name in current_group] runs
    the separator-free branch of [__contains__]. *)
Fixpoint descend (objs : heap) (current_group : node) (group_names : list string)
  : result node :=
  match group_names with
  | [] => Ok current_group
  | group_name :: rest =>
      match contains_name objs current_group group_name with
      | Ok true =>
          match current_group with
          | NGroup g =>
              match od_get group_name (settings_of objs g) with
              | Some child => descend objs child rest
              | None => Raise (KeyError group_in_path_does_not_exist)
              end
          | NSetting _ => Raise (TypeError not_a_container)
          end
      | Ok false => Raise (KeyError group_in_path_does_not_exist)
      | Raise e => Raise e
      end
  end.

Definition _get_setting_from_path (objs : heap) (self : gid) (setting_path : string)
  : result node :=
  match split setting_path with
  | [] => Raise (KeyError setting_not_found_in_path)
  | c :: cs =>
      let '(group_names, last_component) := init_last c cs in
      match descend objs (NGroup self) group_names with
      | Ok current_group =>
          match getitem_name objs current_group last_component with
          | Ok setting => Ok setting
          | Raise (KeyError _) => Raise (KeyError setting_not_found_in_path)
          | Raise e => Raise e
          end
      | Raise e => Raise e
      end
  end.

Definition __getitem__ (objs : heap) (self : gid) (setting_name_or_path : string)
  : result node :=
  if contains_separator setting_name_or_path
  then _get_setting_from_path objs self setting_name_or_path
  else
    match od_get setting_name_or_path (settings_of objs self) with
    | Some setting => Ok setting
    | None => Raise (KeyError setting_not_found_in_group)
    end.

Definition __contains__ (objs : heap) (self : gid) (setting_name_or_path : string)
  : result bool :=
  if contains_separator setting_name_or_path
  then
    match _get_setting_from_path objs self setting_name_or_path with
    | Ok _ => Ok true
    | Raise (KeyError _) => Ok false
    | Raise e => Raise e
    end
  else Ok (od_contains setting_name_or_path (settings_of objs self)).

(** The walk of a path as the specification words it: split the path on the
    separator and look each segment up in the child map of the group reached
    so far. *)
Fixpoint walk_segments (objs : heap) (current : node) (segments : list string)
  : option node :=
  match segments with
  | [] => Some current
  | segment :: rest =>
      match current with
      | NGroup g =>
          match od_get segment (settings_of objs g) with
          | Some child => walk_segments objs child rest
          | None => None
          end
      | NSetting _ => None
      end
  end.

(** ** [add] *)

Inductive add_item :=
  | item_node (setting : node)
  | item_dict (setting_data : list (string * attribute)).

Definition set_settings (objs : heap) (self : gid) (name : string) (child : node)
  : heap :=
  alter (λ G, mkGroup (g_name G) (g_tags G) (setting_attributes G)
                (od_set name child (_settings G)))
    self objs.

(** [_add_setting]: both checks come before the only assignment, so a raise
    leaves the store as it was.  [setting == self] compares object
    identities. *)
Definition _add_setting (objs : heap) (self : gid) (setting : node) : result heap :=
  if od_contains (node_name objs setting) (settings_of objs self)
  then Raise (ValueError already_exists)
  else if decide (setting = NGroup self)
  then Raise (ValueError child_of_itself)
  else Ok (set_settings objs self (node_name objs setting) setting).

(** [l[0:n]] for a Python integer [n]. *)
Definition slice_to {A} (n : Z) (l : list A) : list A :=
  if (n <? 0)%Z then take (Z.to_nat (Z.of_nat (length l) + n)) l
  else take (Z.to_nat n) l.

(** [_get_required_argument_names] on the argument names and the default
    values that [inspect.getargspec] gives for the function.
    [required_args[0]] raises [IndexError] when no argument is required. *)
Definition _get_required_argument_names {D} (args : list string)
    (defaults : option (list D)) : result (list string) :=
  let arg_default_values := default [] defaults in
  let num_required_args :=
    (Z.of_nat (length args) - Z.of_nat (length arg_default_values))%Z in
  let required_args := slice_to num_required_args args in
  match required_args with
  | [] => Raise IndexError
  | first :: others =>
      if decide (first = "self") then Ok others else Ok required_args
  end.

Section Create.
(** Modelled from the spec: the setting classes of [pgsetting] are not among
    the sources.  [construct t data] is the call of [setting_type] on the
    keyword arguments [data] ([None] when it raises [TypeError]), and
    [getargspec t] is what [inspect.getargspec] gives for the constructor of
    [t]: the names of its arguments and the default values of the last of
    them, [None] when no argument has one. *)
Variable construct : nat → list (string * attribute) → option Setting.
Variable getargspec : nat → list string * option (list attribute).

Definition _get_missing_required_arguments (setting_type : nat)
    (setting_data : list (string * attribute)) : result (list string) :=
  match _get_required_argument_names (getargspec setting_type).1
          (getargspec setting_type).2 with
  | Raise e => Raise e
  | Ok required_arg_names =>
      Ok (filter (λ arg_name, od_contains arg_name setting_data = false)
            required_arg_names)
  end.

(** [_instantiate_setting]: an [IndexError] of
    [_get_missing_required_arguments] leaves the handler of the
    [TypeError] as it is. *)
Definition _instantiate_setting (objs : heap) (self : gid) (setting_type : nat)
    (name : string) (setting_data_copy : list (string * attribute))
  : result heap :=
  match construct setting_type setting_data_copy with
  | Some setting => Ok (set_settings objs self name (NSetting setting))
  | None =>
      match _get_missing_required_arguments setting_type setting_data_copy with
      | Raise e => Raise e
      | Ok [] => Raise (TypeError constructor_failed)
      | Ok missing => Raise (TypeError (missing_required_attributes missing))
      end
  end.

Definition _create_setting (objs : heap) (self : gid)
    (setting_data : list (string * attribute)) : result heap :=
  match od_get "type" setting_data with
  | None => Raise (TypeError (missing_required_attributes ["type"]))
  | Some type_value =>
      let setting_data_copy :=
        filter (λ kv, kv.1 ≠ "type") setting_data in
      match od_get "name" setting_data_copy with
      | None => Raise (TypeError (missing_required_attributes ["name"]))
      | Some (AStr name) =>
          if contains_separator name
          then Raise (ValueError name_contains_separator)
          else if od_contains name (settings_of objs self)
          then Raise (ValueError already_exists)
          else
            let setting_data_copy :=
              fold_left
                (λ d kv, if od_contains kv.1 d then d else od_set kv.1 kv.2 d)
                (from_option setting_attributes [] (objs !! self))
                setting_data_copy in
            match type_value with
            | AType setting_type =>
                _instantiate_setting objs self setting_type name setting_data_copy
            | _ => Raise (TypeError constructor_failed)
            end
      | Some (ATags name) =>
          if bool_decide (String SETTING_PATH_SEPARATOR "" ∈ name)
          then Raise (ValueError name_contains_separator)
          else Raise (TypeError unhashable)
      | Some (ASources name) =>
          if bool_decide (String SETTING_PATH_SEPARATOR "" ∈ name)
          then Raise (ValueError name_contains_separator)
          else Raise (TypeError unhashable)
      | Some (AType _) => Raise (TypeError not_a_container)
      end
  end.

(** [add]: the store it leaves and the exception that ended it, if any.
    Children added before a failing item stay.  The parent link set by
    [_set_as_parent_for_setting] is read by none of the modelled methods and
    is left out. *)
Fixpoint add (objs : heap) (self : gid) (setting_list : list add_item)
  : heap * option exn :=
  match setting_list with
  | [] => (objs, None)
  | item :: rest =>
      let added :=
        match item with
        | item_node setting => _add_setting objs self setting
        | item_dict setting_data => _create_setting objs self setting_data
        end in
      match added with
      | Ok objs' => add objs' self rest
      | Raise e => (objs, Some e)
      end
  end.
End Create.

(** [H] has [g] in its subtree: [g] is reached from [H] through one or more
    child maps. *)
Inductive in_subtree (objs : heap) (g : gid) : node → Prop :=
  | in_subtree_child h name :
      od_get name (settings_of objs h) = Some (NGroup g) →
      in_subtree objs g (NGroup h)
  | in_subtree_deeper h name c :
      od_get name (settings_of objs h) = Some c →
      in_subtree objs g c →
      in_subtree objs g (NGroup h).

(** ** [walk] *)

Inductive event :=
  | on_visit_setting (s : Setting)
  | on_visit_group (g : gid)
  | on_end_group_walk (g : gid)
  | yield (n : node).

Section Walk.
Variable objs : heap.
Variable self : gid.
Variable include_setting_func : node → bool.
Variables include_groups include_if_parent_skipped : bool.

(** [_next]: the iterator is created when the cursor is [None], and the
    cursor is set back to [None] when the iterator is exhausted.  The
    iterator over [_settings.itervalues()] is the count of values handed
    out; the dictionary is not changed while a walk runs. *)
Definition _next (g : gid) (iters : cursors) : option node * cursors :=
  let position := default 0 (iters !! g) in
  match od_values (settings_of objs g) !! position with
  | Some next_element => (Some next_element, <[g := S position]> iters)
  | None => (None, delete g iters)
  end.

(** One round of [while groups:]: the callbacks invoked, the node yielded
    if the round ends in a [yield], and the stack and cursors it leaves. *)
Definition walk_iteration (groups : list gid) (iters : cursors)
  : list event * option node * (list gid * cursors) :=
  match groups with
  | [] => ([], None, ([], iters))
  | g0 :: rest =>
      match _next g0 iters with
      | (None, iters') =>
          (if decide (g0 ≠ self) then [on_end_group_walk g0] else [],
           None, (rest, iters'))
      | (Some (NGroup c), iters') =>
          if include_setting_func (NGroup c) then
            if include_groups
            then ([on_visit_group c], Some (NGroup c), (c :: groups, iters'))
            else ([], None, (c :: groups, iters'))
          else if include_if_parent_skipped
          then ([], None, (c :: groups, iters'))
          else ([], None, (groups, iters'))
      | (Some (NSetting s), iters') =>
          if include_setting_func (NSetting s)
          then ([on_visit_setting s], Some (NSetting s), (groups, iters'))
          else ([], None, (groups, iters'))
      end
  end.

Definition yielded (y : option node) : list event :=
  match y with
  | Some n => [yield n]
  | None => []
  end.

(** [next()] on the generator: rounds are run up to the next [yield].  The
    answer is the node yielded ([None] for [StopIteration]), the callbacks
    invoked on the way, and the state in which the generator is suspended.
    Without fuel left there is no answer. *)
Fixpoint walk_next (fuel : nat) (groups : list gid) (iters : cursors)
  : option (option node * list event * (list gid * cursors)) :=
  match groups with
  | [] => Some (None, [], ([], iters))
  | _ =>
      match fuel with
      | 0 => None
      | S fuel' =>
          let '(callbacks, y, (groups', iters')) := walk_iteration groups iters in
          match y with
          | Some n => Some (Some n, callbacks, (groups', iters'))
          | None =>
              '(y', callbacks', st) ← walk_next fuel' groups' iters';
              Some (y', callbacks ++ callbacks', st)
          end
      end
  end.

(** The generator run to exhaustion: every callback and every yield, in
    order, and the cursors left behind. *)
Fixpoint walk_run (fuel : nat) (groups : list gid) (iters : cursors)
  : option (list event * cursors) :=
  match groups with
  | [] => Some ([], iters)
  | _ =>
      match fuel with
      | 0 => None
      | S fuel' =>
          let '(callbacks, y, (groups', iters')) := walk_iteration groups iters in
          '(events, iters'') ← walk_run fuel' groups' iters';
          Some (callbacks ++ yielded y ++ events, iters'')
      end
  end.

(** [walk(...)] starts with [groups = [self]]. *)
Definition walk (fuel : nat) (iters : cursors) : option (list event * cursors) :=
  walk_run fuel [self] iters.

(** A [for] loop over the generator: [next()] is called until it raises
    [StopIteration], and the body of the loop is run on each node yielded.
    The callbacks are dropped: the loops of this module pass none.  The
    bodies modelled below touch neither the child maps nor the cursors. *)
Fixpoint for_walk {A} (body : A → node → A) (fuel : nat) (groups : list gid)
    (iters : cursors) (acc : A) : option (A * cursors) :=
  match fuel with
  | 0 => None
  | S fuel' =>
      match walk_next fuel' groups iters with
      | None => None
      | Some (None, _, (_, iters')) => Some (acc, iters')
      | Some (Some n, _, (groups', iters')) =>
          for_walk body fuel' groups' iters' (body acc n)
      end
  end.
End Walk.

Definition yields (events : list event) : list node :=
  omap (λ e, match e with yield n => Some n | _ => None end) events.

(** The groups whose end was called back, in order. *)
Definition ended_groups (events : list event) : list gid :=
  omap (λ e, match e with on_end_group_walk g => Some g | _ => None end) events.

Definition yielded_settings (events : list event) : list Setting :=
  omap (λ e, match e with yield (NSetting s) => Some s | _ => None end) events.

(** The predicate of the tag-filtered operations:
    [tag not in setting.tags]. *)
Definition not_tagged (objs : heap) (tag : string) (n : node) : bool :=
  bool_decide (tag ∉ node_tags objs n).

(** ** The tree under a group *)

(** The subtree of a node, read off the store. *)
Inductive tree :=
  | TSetting (s : Setting)
  | TGroup (g : gid) (children : list tree).

Definition root (t : tree) : node :=
  match t with
  | TSetting s => NSetting s
  | TGroup g _ => NGroup g
  end.

(** [unfold depth objs n] is the subtree of [n] when no branch of it is
    longer than [depth] groups; a group that is its own descendant has no
    subtree at any depth. *)
Fixpoint unfold (depth : nat) (objs : heap) (n : node) : option tree :=
  match n with
  | NSetting s => Some (TSetting s)
  | NGroup g =>
      match depth with
      | 0 => None
      | S depth' =>
          children ← mapM (unfold depth' objs) (od_values (settings_of objs g));
          Some (TGroup g children)
      end
  end.

(** The identities of the groups of a tree. *)
Fixpoint groups_of (t : tree) : list gid :=
  match t with
  | TSetting _ => []
  | TGroup g children => g :: concat (map groups_of children)
  end.

Fixpoint tree_size (t : tree) : nat :=
  match t with
  | TSetting _ => 1
  | TGroup _ children => S (list_sum (map tree_size children))
  end.

(** A walk may start when no group of the tree is being iterated. *)
Definition cursors_clear (iters : cursors) (t : tree) : Prop :=
  ∀ g, g ∈ groups_of t → iters !! g = None.

Section WalkSpec.
Variable include_setting_func : node → bool.
Variables include_groups include_if_parent_skipped : bool.

(** What a walk does on a child and its subtree, and the rounds it takes:
    the filtered pre-order traversal of the specification. *)
Fixpoint subtree_events (t : tree) : list event :=
  match t with
  | TSetting s =>
      if include_setting_func (NSetting s)
      then [on_visit_setting s; yield (NSetting s)] else []
  | TGroup g children =>
      if include_setting_func (NGroup g) then
        (if include_groups then [on_visit_group g; yield (NGroup g)] else [])
        ++ concat (map subtree_events children) ++ [on_end_group_walk g]
      else if include_if_parent_skipped
      then concat (map subtree_events children) ++ [on_end_group_walk g]
      else []
  end.

Fixpoint subtree_rounds (t : tree) : nat :=
  match t with
  | TSetting s => 1
  | TGroup g children =>
      if include_setting_func (NGroup g) || include_if_parent_skipped
      then S (list_sum (map subtree_rounds children) + 1)
      else 1
  end.

(** The walk of a group: its children in order; the walked group itself is
    neither tested nor yielded, and its end is not called back. *)
Definition walk_events (t : tree) : list event :=
  match t with
  | TSetting _ => []
  | TGroup _ children => concat (map subtree_events children)
  end.

Definition walk_rounds (t : tree) : nat :=
  match t with
  | TSetting _ => 0
  | TGroup _ children => list_sum (map subtree_rounds children) + 1
  end.
End WalkSpec.

(** Pre-order with every node included, as the specification words it: a
    group is visited and yielded, then its children in insertion order, each
    with its subtree, then the end of the group is called back. *)
Fixpoint preorder_events (t : tree) : list event :=
  match t with
  | TSetting s => [on_visit_setting s; yield (NSetting s)]
  | TGroup g children =>
      [on_visit_group g; yield (NGroup g)]
      ++ concat (map preorder_events children) ++ [on_end_group_walk g]
  end.

(** The nodes of a tree in pre-order. *)
Fixpoint preorder (t : tree) : list node :=
  match t with
  | TSetting s => [NSetting s]
  | TGroup g children => NGroup g :: concat (map preorder children)
  end.

(** The settings of a tree that a tag-filtered walk yields: those without
    the tag whose enclosing groups, below the walked one, are without it. *)
Fixpoint untagged_settings (objs : heap) (tag : string) (t : tree) : list Setting :=
  match t with
  | TSetting s => if not_tagged objs tag (NSetting s) then [s] else []
  | TGroup g children =>
      if not_tagged objs tag (NGroup g)
      then concat (map (untagged_settings objs tag) children) else []
  end.

(** Every setting of a tree. *)
Fixpoint tree_settings (t : tree) : list Setting :=
  match t with
  | TSetting s => [s]
  | TGroup _ children => concat (map tree_settings children)
  end.

Definition walked_settings (objs : heap) (tag : string) (t : tree) : list Setting :=
  match t with
  | TSetting _ => []
  | TGroup _ children => concat (map (untagged_settings objs tag) children)
  end.

(** ** The tag-filtered operations *)

(** The list comprehension of [_load_save]:
    [[setting for setting in setting_iterator if setting.setting_sources]].
    The walk yields no group ([include_groups] is false). *)
Definition keep_with_sources (settings : list Setting) (n : node) : list Setting :=
  match n with
  | NSetting setting =>
      if decide (setting_sources setting ≠ []) then settings ++ [setting]
      else settings
  | NGroup _ => settings
  end.

(** [_load_save]: the walk, then the buckets and the backend calls. *)
Definition _load_save (fuel : nat) (objs : heap) (self : gid)
    (load_save_ignore_tag : string)
    (load_save_func : list Setting → list source → Status * string)
    (setting_sources : option (list source)) (iters : cursors)
  : option (list (list source * list Setting) * (Status * string) * cursors) :=
  '(settings, iters') ←
    for_walk objs self (not_tagged objs load_save_ignore_tag) false false
      keep_with_sources fuel [self] iters [];
  Some (_load_save_settings load_save_func setting_sources settings, iters').

(** [setting.invoke_event(event_type)], recorded in a log.  Modelled from the
    spec: the event mixin of [pgsettingutils] is not among the sources. *)
Definition invoke_event (event_type : string) (log : list (Setting * string))
    (n : node) : list (Setting * string) :=
  match n with
  | NSetting setting => log ++ [(setting, event_type)]
  | NGroup _ => log
  end.

(** [_load_save_group]: the events invoked before and after, and the return
    values of [_load_save]. *)
Definition _load_save_group (fuel : nat) (objs : heap) (self : gid)
    (load_save_ignore_tag : string)
    (load_save_func : list Setting → list source → Status * string)
    (setting_sources : option (list source))
    (before_load_save_group_event_type after_load_save_group_event_type : string)
    (iters : cursors)
  : option (list (Setting * string)
            * (list (list source * list Setting) * (Status * string)) * cursors) :=
  '(log, iters1) ←
    for_walk objs self (not_tagged objs load_save_ignore_tag) false false
      (invoke_event before_load_save_group_event_type) fuel [self] iters [];
  '(return_values, iters2) ←
    _load_save fuel objs self load_save_ignore_tag load_save_func setting_sources
      iters1;
  '(log', iters3) ←
    for_walk objs self (not_tagged objs load_save_ignore_tag) false false
      (invoke_event after_load_save_group_event_type) fuel [self] iters2 log;
  Some (log', return_values, iters3).

Section Persistor.
(** Modelled from the spec: [pgsettingpersistor.SettingPersistor] is not among
    the sources; its [load] and [save] are the backend operations. *)
Variable SettingPersistor_load : list Setting → list source → Status * string.
Variable SettingPersistor_save : list Setting → list source → Status * string.

Definition load (fuel : nat) (objs : heap) (self : gid)
    (setting_sources : option (list source)) (iters : cursors) :=
  _load_save_group fuel objs self "ignore_load" SettingPersistor_load
    setting_sources "before-load-group" "after-load-group" iters.

Definition save (fuel : nat) (objs : heap) (self : gid)
    (setting_sources : option (list source)) (iters : cursors) :=
  _load_save_group fuel objs self "ignore_save" SettingPersistor_save
    setting_sources "before-save-group" "after-save-group" iters.
End Persistor.

Section Gui.
(** Modelled from the spec: [setting.gui.update_setting_value] belongs to
    the GUI and value-type collaborators, which are not among the sources.
    It answers [None], or [Some (message, setting)] when it raises a
    [SettingValueError] with that message and that [setting] attribute. *)
Variable update_setting_value : Setting → option (string * Setting).

(** The body of the loop of [apply_gui_values_to_settings], on the settings
    updated so far and the two lists of the method. *)
Definition collect_failure (acc : list Setting * (list string * list Setting))
    (n : node) : list Setting * (list string * list Setting) :=
  match n with
  | NSetting setting =>
      let '(updated, (exception_messages, exception_settings)) := acc in
      match update_setting_value setting with
      | None => (updated ++ [setting], (exception_messages, exception_settings))
      | Some (message, failed) =>
          (updated ++ [setting],
           (exception_messages ++ [message], exception_settings ++ [failed]))
      end
  | NGroup _ => acc
  end.

(** The end of [apply_gui_values_to_settings]. *)
Definition raise_collected (collected : list string * list Setting) : result unit :=
  let '(exception_messages, exception_settings) := collected in
  match exception_messages with
  | [] => Ok ()
  | _ =>
      Raise (SettingValueError
               (String.concat (String "010"%char EmptyString) exception_messages)
               (head exception_settings)
               exception_messages exception_settings)
  end.

(** [apply_gui_values_to_settings]: the settings on which the update was
    called, in order, the outcome, and the cursors. *)
Definition apply_gui_values_to_settings (fuel : nat) (objs : heap) (self : gid)
    (iters : cursors) : option (list Setting * result unit * cursors) :=
  '(acc, iters') ←
    for_walk objs self (not_tagged objs "ignore_apply_gui_value_to_setting")
      false false collect_failure fuel [self] iters ([], ([], []));
  Some (acc.1, raise_collected acc.2, iters').
End Gui.

(** ** Specification-side notions for the persistence coordinator *)

(** The severity order of the specification:
    [SUCCESS < NOT_ALL_SETTINGS_FOUND < READ_FAIL / WRITE_FAIL]. *)
Definition severity (status : Status) : nat :=
  match status with
  | SUCCESS => 0
  | NOT_ALL_SETTINGS_FOUND => 1
  | READ_FAIL | WRITE_FAIL => 2
  end.

(** The answers of the backend, one per bucket, in the order of the calls. *)
Definition bucket_results
    (load_save_func : list Setting → list source → Status * string)
    (calls : list (list source * list Setting)) : list (Status * string) :=
  map (λ call, load_save_func call.2 call.1) calls.

(** The message of the first, and of the last, bucket that reported a
    status. *)
Definition first_message_of (status : Status) (results : list (Status * string))
  : option string :=
  snd <$> head (filter (λ r, r.1 = status) results).

Definition last_message_of (status : Status) (results : list (Status * string))
  : option string :=
  snd <$> last (filter (λ r, r.1 = status) results).

(** ** Sample data *)

Definition sample_setting (id : nat) (name : string) (tags : list string)
    (sources : list source) : Setting :=
  mkSetting id name (list_to_set tags) sources.

Definition setting_a : Setting := sample_setting 1 "a" [] ["session"; "persistent"].
Definition setting_b : Setting := sample_setting 2 "b" [] ["session"].
Definition setting_c : Setting := sample_setting 3 "c" ["ignore_load"] ["session"].
Definition setting_d : Setting := sample_setting 4 "d" [] [].

(** A backend whose two buckets both fail to read, each with its own
    message. *)
Definition failing_backend (settings : list Setting) (sources : list source)
  : Status * string :=
  match sources with
  | [_] => (READ_FAIL, "could not read b")
  | _ => (READ_FAIL, "could not read a")
  end.

(** A backend that finds everything in the bucket of two sources and fails
    on the others. *)
Definition mixed_backend (settings : list Setting) (sources : list source)
  : Status * string :=
  match sources with
  | [_; _] => (SUCCESS, "")
  | _ => (READ_FAIL, "could not read")
  end.

(** The name under which an item of [add] asks to be attached.  A
    description names a child when it holds the two required keys. *)
Definition item_name (objs : heap) (item : add_item) : option string :=
  match item with
  | item_node setting => Some (node_name objs setting)
  | item_dict setting_data =>
      match od_get "type" setting_data, od_get "name" setting_data with
      | Some _, Some (AStr name) => Some name
      | _, _ => None
      end
  end.

(** No group is a child of itself. *)
Definition no_self_child (objs : heap) : Prop :=
  ∀ g name, od_get name (settings_of objs g) ≠ Some (NGroup g).

(** A store with three nested groups:
    [root] holds group [main] and setting [d]; [main] holds setting [a],
    group [advanced] and setting [b]; [advanced] holds setting [c]. *)
Definition sample_objs : gmap nat SettingGroup :=
  <[0 := mkGroup "root" ∅ [] [("main", NGroup 1); ("d", NSetting setting_d)]]>
    (<[1 := mkGroup "main" ∅ []
             [("a", NSetting setting_a); ("advanced", NGroup 2);
              ("b", NSetting setting_b)]]>
       (<[2 := mkGroup "advanced" ∅ [] [("c", NSetting setting_c)]]> ∅)).

Definition sample_tree : tree :=
  TGroup 0
    [TGroup 1 [TSetting setting_a; TGroup 2 [TSetting setting_c]; TSetting setting_b];
     TSetting setting_d].

(** A store in which group [h] holds group [g], and [g] is empty. *)
Definition nested_objs : gmap nat SettingGroup :=
  <[0 := mkGroup "g" ∅ [] []]> (<[1 := mkGroup "h" ∅ [] [("g", NGroup 0)]]> ∅).

(** Setting classes for the samples: every description with a name can be
    constructed. *)
Definition sample_construct (setting_type : nat)
    (setting_data : list (string * attribute)) : option Setting :=
  match od_get "name" setting_data with
  | Some (AStr name) => Some (mkSetting setting_type name ∅ [])
  | _ => None
  end.

Definition sample_getargspec (setting_type : nat)
  : list string * option (list attribute) :=
  (["self"; "name"], None).

(** ** Auxiliary notions for the walk *)

(** The events of a finished stretch of a walk put before what follows. *)
Definition prepend (events : list event) (r : option (list event * gmap nat nat))
  : option (list event * gmap nat nat) :=
  (λ r', (events ++ r'.1, r'.2)) <$> r.

(** The callback at the end of a group: none for the walked group. *)
Definition end_of_group (self g : nat) : list event :=
  if decide (g ≠ self) then [on_end_group_walk g] else [].

(** ** Specification-side notions for GUI value application *)

(** The settings whose update fails, and the messages of the failures, in
    the order of the walk. *)
Definition failing_settings (update_setting_value : Setting → option (string * Setting))
    (walked : list Setting) : list Setting :=
  filter (λ s, is_Some (update_setting_value s)) walked.

Definition failure_messages (update_setting_value : Setting → option (string * Setting))
    (walked : list Setting) : list string :=
  omap (λ s, fst <$> update_setting_value s) walked.

(** [m] occurs in [s]. *)
Definition occurs_in (m s : string) : Prop :=
  ∃ before after, s = (before +:+ (m +:+ after)).

(** Validation for the samples: [a] and [b] are invalid. *)
Definition sample_update (s : Setting) : option (string * Setting) :=
  if decide (s_name s = "a") then Some ("a is invalid", s)
  else if decide (s_name s = "b") then Some ("b is invalid", s)
  else None.

(** What the walk does once a group is on top of the stack with a clear
    cursor: it goes through the subtrees of the children, calls back the end
    of the group and goes on with the rest of the stack, the cursors being as
    before. *)
Definition group_walked (objs : gmap nat SettingGroup) (self : nat)
    (include_setting_func : node → bool)
    (include_groups include_if_parent_skipped : bool) (depth : nat) : Prop :=
  ∀ c children stack iters k,
    unfold depth objs (NGroup c) = Some (TGroup c children) →
    iters !! c = None →
    (∀ id, id ∈ concat (map groups_of children) →
           iters !! id = None ∧ id ≠ self) →
    walk_run objs self include_setting_func include_groups
      include_if_parent_skipped
      (list_sum (map (subtree_rounds include_setting_func
                        include_if_parent_skipped) children) + 1 + k)
      (c :: stack) iters
    = prepend
        (concat (map (subtree_events include_setting_func include_groups
                        include_if_parent_skipped) children)
         ++ end_of_group self c)
        (walk_run objs self include_setting_func include_groups
           include_if_parent_skipped k stack iters).

(** ** Statements of the specification that do not hold *)

(** The returned message is that of the first bucket, in the order of the
    calls, that reported the returned status. *)
Definition message_of_first_worst_bucket
    (load_save_func : list Setting → list source → Status * string)
    (explicit : option (list source)) (walked : list Setting) : Prop :=
  let '(calls, (status, message)) :=
    _load_save_settings load_save_func explicit walked in
  1 < length calls →
  Some message = first_message_of status (bucket_results load_save_func calls).

(** A node that is the group itself, or that has the group in its subtree,
    is refused as a child of the group. *)
Definition ancestor_refused (objs : gmap nat SettingGroup) (G : nat) (H : node)
  : Prop :=
  H = NGroup G ∨ in_subtree objs G H → ∃ e, _add_setting objs G H = Raise e.

(** * The rest of the container API *)

(** Exceptions of the methods below that the methods above do not raise:
    the [KeyError] of [remove], the [ValueError] of
    [_get_setting_and_attribute_names], [AttributeError], the
    [TypeError] of a call of [SettingGroup] whose keyword arguments do not fit
    its parameters, and the [ValueError] of a name that it refuses. *)
Inductive error :=
  | Raised (e : exn)
  | setting_not_found (setting_name : string)
  | more_than_one_attribute_separator (setting_name_and_attribute : string)
  | AttributeError (attribute_name : string)
  | unexpected_arguments
  | invalid_setting_name (name : string).

Inductive outcome (A : Type) :=
  | Returns (a : A)
  | Raises (e : error).
Arguments Returns {A} a.
Arguments Raises {A} e.

(** [del d[k]] on an ordered dictionary that holds [k]. *)
Fixpoint od_delete {K V} `{EqDecision K} (k : K) (d : list (K * V)) : list (K * V) :=
  match d with
  | [] => []
  | (k', v) :: d' => if decide (k = k') then d' else (k', v) :: od_delete k d'
  end.

(** ** [__iter__], [__len__], [remove] *)

Definition __iter__ (objs : gmap nat SettingGroup) (self : nat) : list node :=
  od_values (settings_of objs self).

Definition __len__ (objs : gmap nat SettingGroup) (self : nat) : nat :=
  length (settings_of objs self).

Definition del_settings (objs : gmap nat SettingGroup) (self : nat) (name : string)
  : gmap nat SettingGroup :=
  alter (λ G, mkGroup (g_name G) (g_tags G) (setting_attributes G)
                (od_delete name (_settings G)))
    self objs.

(** [remove]: the store it leaves and the exception that ended it, if any.
    The children removed before a name that is not found stay removed. *)
Fixpoint remove (objs : gmap nat SettingGroup) (self : nat)
    (setting_names : list string) : gmap nat SettingGroup * option error :=
  match setting_names with
  | [] => (objs, None)
  | setting_name :: rest =>
      if od_contains setting_name (settings_of objs self)
      then remove (del_settings objs self setting_name) self rest
      else (objs, Some (setting_not_found setting_name))
  end.

(** ** Names of attributes *)

(** [s.split(sep)] for a separator of one character. *)
Fixpoint split_on (sep : ascii) (s : string) : list string :=
  match s with
  | EmptyString => [EmptyString]
  | String c s' =>
      if Ascii.eqb c sep then EmptyString :: split_on sep s'
      else match split_on sep s' with
           | [] => [String c EmptyString]
           | w :: ws => String c w :: ws
           end
  end.

(** [sep in s]. *)
Fixpoint contains_char (sep : ascii) (s : string) : bool :=
  match s with
  | EmptyString => false
  | String c s' => if Ascii.eqb c sep then true else contains_char sep s'
  end.

(** Modelled from the spec: [pgsettingutils.SETTING_ATTRIBUTE_SEPARATOR] is
    not among the sources; the docstring of [get_attributes] separates the
    attribute from the path by a dot. *)
Definition SETTING_ATTRIBUTE_SEPARATOR : ascii := "."%char.

Definition _get_setting_and_attribute_names (setting_name_and_attribute : string)
  : outcome (string * string) :=
  match split_on SETTING_ATTRIBUTE_SEPARATOR setting_name_and_attribute with
  | [_] => Returns (setting_name_and_attribute, "value")
  | [setting_name; attribute_name] => Returns (setting_name, attribute_name)
  | _ => Raises (more_than_one_attribute_separator setting_name_and_attribute)
  end.

(** ** Values and attributes *)

Section Attributes.
Context {V : Type}.

(** Modelled from the spec: the attributes of settings belong to
    [pgsetting], which is not among the sources.  [getattr n a] is the
    attribute [a] of the object [n], [None] when the object has none
    ([AttributeError]). *)
Variable getattr : node → string → option V.

Definition get_value (objs : gmap nat SettingGroup) (self : nat)
    (setting_name_or_path : string) (default_value : V) : outcome V :=
  match __getitem__ objs self setting_name_or_path with
  | Raise (KeyError _) => Returns default_value
  | Raise e => Raises (Raised e)
  | Ok setting =>
      match getattr setting "value" with
      | Some value => Returns value
      | None => Raises (AttributeError "value")
      end
  end.

(** The loop of [get_attributes] on the dictionary built so far. *)
Fixpoint get_attributes_from (objs : gmap nat SettingGroup) (self : nat)
    (setting_attributes : list string)
    (setting_attributes_and_values : list (string * V))
  : outcome (list (string * V)) :=
  match setting_attributes with
  | [] => Returns setting_attributes_and_values
  | setting_name_and_attribute :: rest =>
      match _get_setting_and_attribute_names setting_name_and_attribute with
      | Raises e => Raises e
      | Returns (setting_name, attribute_name) =>
          match __getitem__ objs self setting_name with
          | Raise e => Raises (Raised e)
          | Ok setting =>
              match getattr setting attribute_name with
              | None => Raises (AttributeError attribute_name)
              | Some value =>
                  get_attributes_from objs self rest
                    (od_set setting_name_and_attribute value
                       setting_attributes_and_values)
              end
          end
      end
  end.

Definition get_attributes (objs : gmap nat SettingGroup) (self : nat)
    (setting_attributes : list string) : outcome (list (string * V)) :=
  get_attributes_from objs self setting_attributes [].

(** Modelled from the spec: [Setting.get_path] and [Setting.value] belong to
    [pgsettingutils] and [pgsetting].  [get_path s] is [s.get_path("root")]. *)
Variable get_path : Setting → string.
Variable value : Setting → V.

(** The dictionary of [get_values]: an [OrderedDict] made from the pairs of
    the list comprehension, a later pair with the key of an earlier one
    replacing its value. *)
Definition value_entry (d : list (string * V)) (n : node) : list (string * V) :=
  match n with
  | NSetting setting => od_set (get_path setting) (value setting) d
  | NGroup _ => d
  end.

(** [get_values]: [walk()] with its default arguments includes every
    setting and yields no group. *)
Definition get_values (fuel : nat) (objs : gmap nat SettingGroup) (self : nat)
    (iters : gmap nat nat) : option (list (string * V) * gmap nat nat) :=
  for_walk objs self (λ _, true) false false value_entry fuel [self] iters [].
End Attributes.

(** ** [reset] and [initialize_gui] *)

(** [setting.reset()], recorded in a log.  Modelled from the spec:
    [Setting.reset] belongs to [pgsetting]. *)
Definition reset_setting (log : list Setting) (n : node) : list Setting :=
  match n with
  | NSetting setting => log ++ [setting]
  | NGroup _ => log
  end.

(** [reset]: the settings on which [reset()] was called, in order. *)
Definition reset (fuel : nat) (objs : gmap nat SettingGroup) (self : nat)
    (iters : gmap nat nat) : option (list Setting * gmap nat nat) :=
  for_walk objs self (not_tagged objs "ignore_reset") false false reset_setting
    fuel [self] iters [].

Section InitializeGui.
Context {A : Type}.
Variable get_path : Setting → string.

(** [setting.set_gui(...)], recorded in a log with its arguments;
    [set_gui()] is the call without arguments. *)
Definition set_gui (custom_gui : gmap string (list A))
    (log : list (Setting * list A)) (n : node) : list (Setting * list A) :=
  match n with
  | NSetting setting =>
      match custom_gui !! get_path setting with
      | None => log ++ [(setting, [])]
      | Some set_gui_args => log ++ [(setting, set_gui_args)]
      end
  | NGroup _ => log
  end.

Definition initialize_gui (fuel : nat) (objs : gmap nat SettingGroup) (self : nat)
    (custom_gui : option (gmap string (list A))) (iters : gmap nat nat)
  : option (list (Setting * list A) * gmap nat nat) :=
  let custom_gui := default ∅ custom_gui in
  for_walk objs self (not_tagged objs "ignore_initialize_gui") false false
    (set_gui custom_gui) fuel [self] iters [].
End InitializeGui.

(** ** Specification-side notions for the container API *)

(** The keyword arguments with which a setting is constructed from a
    description: the attributes of the description, except its type, and,
    for the attributes it does not give, the defaults of the group. *)
Definition constructor_argument (defaults setting_data : list (string * attribute))
    (k : string) : option attribute :=
  match (if decide (k = "type") then None else od_get k setting_data) with
  | Some v => Some v
  | None => od_get k defaults
  end.

Section AttributeOf.
Context {V : Type}.
Variable getattr : node → string → option V.

(** What one element of the list given to [get_attributes] stands for:
    the attribute, named after the separator or [value], of the node at the
    path before the separator. *)
Definition attribute_of (objs : gmap nat SettingGroup) (self : nat)
    (setting_name_and_attribute : string) : outcome V :=
  match _get_setting_and_attribute_names setting_name_and_attribute with
  | Raises e => Raises e
  | Returns (setting_name, attribute_name) =>
      match __getitem__ objs self setting_name with
      | Raise e => Raises (Raised e)
      | Ok setting =>
          match getattr setting attribute_name with
          | None => Raises (AttributeError attribute_name)
          | Some value => Returns value
          end
      end
  end.
End AttributeOf.

(** Sample attributes: the value of a setting is its identity, its
    [display_name] is its identity plus 100; a group has neither. *)
Definition sample_getattr (n : node) (a : string) : option nat :=
  match n with
  | NSetting s =>
      if decide (a = "value") then Some (s_id s)
      else if decide (a = "display_name") then Some (s_id s + 100)
      else None
  | NGroup _ => None
  end.

(** ** Specification-side notions for walks *)

(** A node that a walk yields when it comes to it: the predicate holds of
    it and, for a group, groups are asked for. *)
Definition is_yielded (include_setting_func : node → bool) (include_groups : bool)
    (n : node) : bool :=
  include_setting_func n
  && match n with
     | NSetting _ => true
     | NGroup _ => include_groups
     end.

(** The nodes below the root of a tree, in pre-order. *)
Definition descendants (t : tree) : list node :=
  match t with
  | TSetting _ => []
  | TGroup _ children => concat (map preorder children)
  end.

(** The groups of a subtree that a walk enters, in the order in which it
    leaves them: a group after the groups below it.  A group for which the
    predicate fails is entered only if [include_if_parent_skipped] is set. *)
Fixpoint entered_groups (include_setting_func : node → bool)
    (include_if_parent_skipped : bool) (t : tree) : list nat :=
  match t with
  | TSetting _ => []
  | TGroup g children =>
      if include_setting_func (NGroup g) || include_if_parent_skipped
      then concat (map (entered_groups include_setting_func
                          include_if_parent_skipped) children) ++ [g]
      else []
  end.

(** Every group of a subtree, a group after the groups below it. *)
Fixpoint postorder_groups (t : tree) : list nat :=
  match t with
  | TSetting _ => []
  | TGroup g children => concat (map postorder_groups children) ++ [g]
  end.

(** The nodes on which [on_visit_setting] and [on_visit_group] were called,
    in order. *)
Definition visited (events : list event) : list node :=
  omap (λ e, match e with
             | on_visit_setting s => Some (NSetting s)
             | on_visit_group g => Some (NGroup g)
             | _ => None
             end) events.

(** The value that a dictionary made from a list of pairs gives a key: the
    one of the last pair with that key. *)
Definition last_with {A K V} `{EqDecision K} (key : A → K) (val : A → V)
    (k : K) (l : list A) : option V :=
  val <$> last (filter (λ x, key x = k) l).

(** Arguments of [set_gui] for the sample setting [c]. *)
Definition sample_custom_gui : gmap string (list nat) := {["c" := [7; 8]]}.

(** ** Specification-side notions for the store and the buckets *)

(** Every child map files each child under the name of the child, once. *)
Definition filed_by_name (objs : gmap nat SettingGroup) : Prop :=
  ∀ g, NoDup (settings_of objs g).*1
       ∧ ∀ k n, (k, n) ∈ settings_of objs g → node_name objs n = k.


(** ** [create_groups] *)

(** A dictionary given to [create_groups].  Dictionaries are objects: the
    list under [groups] holds references to dictionaries, and
    [create_groups] removes the key from the dictionary that it is given.  A
    dictionary holds the values under the keys [name], [tags] and
    [setting_attributes] ([None] for a key that is absent), the other keys
    apart from [groups], and the list under [groups], [None] when the key is
    absent or its value is [None]. *)
Record group_dict := mkGroupDict {
  dict_name : option string;
  dict_tags : option (gset string);
  dict_setting_attributes : option (list (string * attribute));
  dict_other_keys : list string;
  dict_groups : option (list nat)
}.

(** Dictionary objects by identity. *)
Abbreviation dict_store := (gmap nat group_dict) (only parsing).

(** The dictionary after [setting_dict.pop("groups", None)]. *)
Definition pop_groups (setting_dict : group_dict) : group_dict :=
  mkGroupDict (dict_name setting_dict) (dict_tags setting_dict)
    (dict_setting_attributes setting_dict) (dict_other_keys setting_dict) None.

Section CreateGroups.
(** Modelled from the spec: [pgsettingutils.check_setting_name] is not among
    the sources; it raises [ValueError] for the names it refuses. *)
Variable check_setting_name : string → bool.
Variable construct : nat → list (string * attribute) → option Setting.
Variable getargspec : nat → list string * option (list attribute).

(** [SettingGroup(keyword arguments)]: the call raises [TypeError] when a key
    is no parameter of [__init__] or when [name] is not given.  The display
    name and the description are read by none of the modelled methods. *)
Definition __init__ (setting_dict : group_dict) : outcome SettingGroup :=
  if forallb (λ key, bool_decide (key ∈ ["display_name"; "description"]))
       (dict_other_keys setting_dict)
  then
    match dict_name setting_dict with
    | None => Raises unexpected_arguments
    | Some name =>
        if check_setting_name name
        then Returns (mkGroup name (default ∅ (dict_tags setting_dict))
                        (default [] (dict_setting_attributes setting_dict)) [])
        else Raises (invalid_setting_name name)
    end
  else Raises unexpected_arguments.

(** The loop of [create_groups], [create] being [create_groups] itself:
    the dictionaries and the groups it leaves and what it returns or
    raises. *)
Definition add_groups
    (create : dict_store → gmap nat SettingGroup → nat
              → option (dict_store * gmap nat SettingGroup * outcome nat))
    (setting_group : nat)
  : dict_store → gmap nat SettingGroup → list nat
    → option (dict_store * gmap nat SettingGroup * outcome nat) :=
  fix loop dicts objs setting_group_dicts :=
    match setting_group_dicts with
    | [] => Some (dicts, objs, Returns setting_group)
    | setting_group_dict :: rest =>
        match create dicts objs setting_group_dict with
        | None => None
        | Some (dicts, objs, Raises e) => Some (dicts, objs, Raises e)
        | Some (dicts, objs, Returns child) =>
            match add construct getargspec objs setting_group
                    [item_node (NGroup child)] with
            | (objs, Some e) => Some (dicts, objs, Raises (Raised e))
            | (objs, None) => loop dicts objs rest
            end
        end
    end.

(** [create_groups] on the dictionary [setting_dict] of the store [dicts].
    The key [groups] is removed from the dictionary before anything else,
    so that a dictionary that is met again has no groups left.  The new group
    is an object that the store did not hold.  The depth of the recursion is
    bounded by [fuel]; a reference to no dictionary has no answer. *)
Fixpoint create_groups (fuel : nat) (dicts : dict_store)
    (objs : gmap nat SettingGroup) (setting_dict : nat)
  : option (dict_store * gmap nat SettingGroup * outcome nat) :=
  match fuel with
  | 0 => None
  | S fuel' =>
      D ← dicts !! setting_dict;
      let setting_group_dicts := default [] (dict_groups D) in
      let dicts := <[setting_dict := pop_groups D]> dicts in
      match __init__ (pop_groups D) with
      | Raises e => Some (dicts, objs, Raises e)
      | Returns G =>
          let setting_group := fresh (dom objs) in
          add_groups (create_groups fuel') setting_group dicts
            (<[setting_group := G]> objs) setting_group_dicts
      end
  end.
End CreateGroups.

(** The dictionaries reached from a dictionary, as a tree: each node is a
    dictionary object with what it holds. *)
Inductive dict_tree :=
  | DictTree (id : nat) (D : group_dict) (children : list dict_tree).

Definition dict_root (T : dict_tree) : nat :=
  match T with DictTree id _ _ => id end.

Definition tree_name (T : dict_tree) : option string :=
  match T with DictTree _ D _ => dict_name D end.

(** [dict_unfold depth dicts r] is the tree under dictionary [r] when no
    branch of it is longer than [depth]. *)
Fixpoint dict_unfold (depth : nat) (dicts : gmap nat group_dict) (r : nat)
  : option dict_tree :=
  match depth with
  | 0 => None
  | S depth' =>
      D ← dicts !! r;
      children ← mapM (dict_unfold depth' dicts) (default [] (dict_groups D));
      Some (DictTree r D children)
  end.

(** The identities of the dictionaries of a tree. *)
Fixpoint dict_ids (T : dict_tree) : list nat :=
  match T with
  | DictTree id _ children => id :: concat (map dict_ids children)
  end.

Fixpoint dict_size (T : dict_tree) : nat :=
  match T with
  | DictTree _ _ children => S (list_sum (map dict_size children))
  end.

(** A tree of dictionaries that [create_groups] accepts: every dictionary
    has a name that passes the check and no key that [SettingGroup] does not
    know, and the dictionaries under one [groups] key have different
    names. *)
Inductive accepted (check_setting_name : string → bool) : dict_tree → Prop :=
  | accepted_dict id D name children :
      dict_name D = Some name →
      check_setting_name name = true →
      Forall (λ key, key ∈ ["display_name"; "description"]) (dict_other_keys D) →
      NoDup (tree_name <$> children) →
      Forall (accepted check_setting_name) children →
      accepted check_setting_name (DictTree id D children).

(** Group [g] of the store is as the tree of dictionaries describes it: it
    has the name, the tags and the default attributes of the dictionary at
    the root, and its children are, in order and under their names, groups
    that are as the trees under [groups] describe them. *)
Inductive describes (objs : gmap nat SettingGroup) : dict_tree → nat → Prop :=
  | describes_group id D children g G groups :
      objs !! g = Some G →
      dict_name D = Some (g_name G) →
      g_tags G = default ∅ (dict_tags D) →
      setting_attributes G = default [] (dict_setting_attributes D) →
      _settings G = (λ c, (node_name objs (NGroup c), NGroup c)) <$> groups →
      Forall2 (describes objs) children groups →
      describes objs (DictTree id D children) g.

(** The dictionaries of the docstring of [create_groups]: [main] with the
    groups [procedures] and [constraints]. *)
Definition sample_dicts : gmap nat group_dict :=
  <[0 := mkGroupDict (Some "main") None None [] (Some [1; 2])]>
    (<[1 := mkGroupDict (Some "procedures") None None [] None]>
       (<[2 := mkGroupDict (Some "constraints") None None ["display_name"] None]>
          ∅)).

Definition sample_dict_tree : dict_tree :=
  DictTree 0 (mkGroupDict (Some "main") None None [] (Some [1; 2]))
    [DictTree 1 (mkGroupDict (Some "procedures") None None [] None) [];
     DictTree 2 (mkGroupDict (Some "constraints") None None ["display_name"] None)
       []].

(** Two dictionaries with the same name under one [groups] key. *)
Definition duplicate_dicts : gmap nat group_dict :=
  <[0 := mkGroupDict (Some "main") None None [] (Some [1; 2; 3])]>
    (<[1 := mkGroupDict (Some "procedures") None None [] None]>
       (<[2 := mkGroupDict (Some "procedures") (Some ∅) None [] None]>
          (<[3 := mkGroupDict (Some "constraints") None None [] None]> ∅))).

(** One dictionary object, [s] with the group [t], under the [groups] keys
    of both [a] and [b]. *)
Definition shared_dicts : gmap nat group_dict :=
  <[0 := mkGroupDict (Some "main") None None [] (Some [1; 2])]>
    (<[1 := mkGroupDict (Some "a") None None [] (Some [3])]>
       (<[2 := mkGroupDict (Some "b") None None [] (Some [3])]>
          (<[3 := mkGroupDict (Some "s") None None [] (Some [4])]>
             (<[4 := mkGroupDict (Some "t") None None [] None]> ∅)))).

(** * Properties *)

(** ** Ordered dictionaries *)

Section OrderedDictFacts.
Context {K V : Type} `{EqDecision K}.
Implicit Types (k : K) (v : V) (d : list (K * V)).

Lemma od_contains_true k d : od_contains k d = true ↔ is_Some (od_get k d).
Proof. unfold od_contains. by rewrite bool_decide_eq_true. Qed.

Lemma od_contains_false k d : od_contains k d = false ↔ od_get k d = None.
Proof.
  unfold od_contains. rewrite bool_decide_eq_false.
  by rewrite eq_None_not_Some.
Qed.

Lemma od_get_set_eq k v d : od_get k (od_set k v d) = Some v.
Proof.
  induction d as [|[k' v'] d IH]; simpl.
  - by rewrite decide_True.
  - destruct (decide (k = k')) as [->|Hne]; simpl.
    + by rewrite decide_True.
    + by rewrite decide_False.
Qed.

Lemma od_get_set_ne k k' v d : k ≠ k' → od_get k' (od_set k v d) = od_get k' d.
Proof.
  intros Hne. induction d as [|[k1 v1] d IH]; simpl.
  - by rewrite decide_False.
  - destruct (decide (k = k1)) as [->|Hne1]; simpl.
    + by rewrite !decide_False.
    + destruct (decide (k' = k1)); [done | apply IH].
Qed.

Lemma od_get_set k k' v d :
  od_get k' (od_set k v d) = if decide (k = k') then Some v else od_get k' d.
Proof.
  destruct (decide (k = k')) as [->|Hne].
  - apply od_get_set_eq.
  - by apply od_get_set_ne.
Qed.

Lemma od_get_Some_elem k v d : od_get k d = Some v → (k, v) ∈ d.
Proof.
  induction d as [|[k' v'] d IH]; simpl; [done|].
  destruct (decide (k = k')) as [->|Hne].
  - intros [= ->]. left.
  - intros Hd. right. by apply IH.
Qed.

Lemma od_get_None_keys k d : od_get k d = None ↔ k ∉ d.*1.
Proof.
  induction d as [|[k' v'] d IH]; simpl.
  - split; [intros _; apply not_elem_of_nil | done].
  - rewrite not_elem_of_cons. destruct (decide (k = k')) as [->|Hne].
    + split; [done | intros [? _]; done].
    + rewrite IH. tauto.
Qed.


(** Assigning to a key that is absent appends; to one that is present,
    replaces in place. *)
Lemma od_set_absent k v d : od_get k d = None → od_set k v d = d ++ [(k, v)].
Proof.
  induction d as [|[k' v'] d IH]; simpl; [done|].
  destruct (decide (k = k')); [done|]. intros Hd. by rewrite IH.
Qed.

Lemma od_set_keys_present k v d :
  is_Some (od_get k d) → (od_set k v d).*1 = d.*1.
Proof.
  induction d as [|[k' v'] d IH]; simpl.
  - by intros [? ?].
  - destruct (decide (k = k')); simpl; [done|]. intros Hd. f_equal. by apply IH.
Qed.

Lemma od_set_NoDup k v d : NoDup d.*1 → NoDup (od_set k v d).*1.
Proof.
  intros Hnd. destruct (od_get k d) as [v0|] eqn:Hget.
  - rewrite (od_set_keys_present k v d); [done | by rewrite Hget].
  - rewrite od_set_absent by done. rewrite fmap_app. simpl.
    apply NoDup_app. split_and!; [done | | apply NoDup_singleton].
    intros k' Hk' ->%list_elem_of_singleton.
    by apply od_get_None_keys in Hget.
Qed.
End OrderedDictFacts.

(** ** Status aggregation *)

Section Aggregation.
Variable load_save_func : list Setting → list source → Status * string.

Local Abbreviation status_and_messages_of calls d :=
  (fold_left (record_status load_save_func) calls d).

(** After the loop a status maps to the message of the last bucket that
    reported it. *)
Lemma status_and_messages_get calls d status :
  od_get status (status_and_messages_of calls d)
  = match last_message_of status (bucket_results load_save_func calls) with
    | Some message => Some message
    | None => od_get status d
    end.
Proof.
  unfold last_message_of.
  revert d. induction calls as [|call calls IH]; intros d; simpl; [done|].
  rewrite IH. unfold record_status.
  destruct (load_save_func call.2 call.1) as [st msg] eqn:Hcall.
  rewrite filter_cons. simpl.
  destruct (decide (st = status)) as [->|Hne].
  - rewrite last_cons.
    destruct (last (filter _ (bucket_results load_save_func calls)))
      as [[st' msg']|]; simpl; [done|].
    apply od_get_set_eq.
  - destruct (last (filter _ (bucket_results load_save_func calls)))
      as [[st' msg']|]; simpl; [done|].
    by apply od_get_set_ne.
Qed.

Lemma last_message_is_Some status (results : list (Status * string)) :
  is_Some (last_message_of status results) ↔ status ∈ results.*1.
Proof.
  unfold last_message_of. rewrite fmap_is_Some, last_is_Some. split.
  - intros Hne. destruct (filter _ results) as [|[st msg] l] eqn:Hf; [done|].
    assert ((st, msg) ∈ filter (λ r, r.1 = status) results) as Hin
      by (rewrite Hf; left).
    apply list_elem_of_filter in Hin as [Hst Hin]. simpl in Hst. subst st.
    change status with ((status, msg).1). by apply list_elem_of_fmap_2.
  - intros ([st msg] & -> & Hin)%list_elem_of_fmap Hnil.
    assert ((st, msg) ∈ filter (λ r, r.1 = (st, msg).1) results) as Hin'
      by (by apply list_elem_of_filter).
    rewrite Hnil in Hin'. by apply elem_of_nil in Hin'.
Qed.

Lemma status_and_messages_contains calls status :
  od_contains status (status_and_messages_of calls []) = true
  ↔ status ∈ (bucket_results load_save_func calls).*1.
Proof.
  rewrite od_contains_true, status_and_messages_get.
  rewrite <-last_message_is_Some. simpl.
  destruct (last_message_of _ _); [done|]. split; by intros [? ?].
Qed.

(** [_get_worst_status] read as a case analysis on the statuses present. *)
Lemma worst_status_cases calls :
  let present status := status ∈ (bucket_results load_save_func calls).*1 in
  let worst := _get_worst_status (status_and_messages_of calls []) in
  (present READ_FAIL ∧ worst = READ_FAIL)
  ∨ (¬ present READ_FAIL ∧ present WRITE_FAIL ∧ worst = WRITE_FAIL)
  ∨ (¬ present READ_FAIL ∧ ¬ present WRITE_FAIL
     ∧ present NOT_ALL_SETTINGS_FOUND ∧ worst = NOT_ALL_SETTINGS_FOUND)
  ∨ (¬ present READ_FAIL ∧ ¬ present WRITE_FAIL
     ∧ ¬ present NOT_ALL_SETTINGS_FOUND ∧ worst = SUCCESS).
Proof.
  intros present worst. subst worst. unfold _get_worst_status.
  pose proof (status_and_messages_contains calls READ_FAIL) as Hr.
  pose proof (status_and_messages_contains calls WRITE_FAIL) as Hw.
  pose proof (status_and_messages_contains calls NOT_ALL_SETTINGS_FOUND) as Hn.
  fold (present READ_FAIL) in Hr. fold (present WRITE_FAIL) in Hw.
  fold (present NOT_ALL_SETTINGS_FOUND) in Hn.
  destruct (od_contains READ_FAIL _) eqn:Er;
    destruct (od_contains WRITE_FAIL _) eqn:Ew;
    destruct (od_contains NOT_ALL_SETTINGS_FOUND _) eqn:En;
    rewrite ?Er, ?Ew, ?En;
    assert (∀ P : Prop, (false = true ↔ P) → ¬ P) as Hno
      by (intros P HP HPp; apply HP in HPp; discriminate);
    assert (∀ P : Prop, (true = true ↔ P) → P) as Hyes
      by (intros P HP; by apply HP);
    repeat match goal with
           | H : false = true ↔ _ |- _ => apply Hno in H
           | H : true = true ↔ _ |- _ => apply Hyes in H
           end; tauto.
Qed.
End Aggregation.

(** C6.  The status returned by a load or save is the most severe one among
    the statuses reported by the buckets, for the order
    [SUCCESS < NOT_ALL_SETTINGS_FOUND < READ_FAIL / WRITE_FAIL]: no bucket
    reported a more severe one and, when there is a bucket, some bucket
    reported it.  In particular [READ_FAIL] is returned as soon as one bucket
    reports it, and [SUCCESS] when every bucket reports [SUCCESS]. *)
Theorem worst_status_most_severe load_save_func explicit walked calls status message :
  _load_save_settings load_save_func explicit walked = (calls, (status, message)) →
  let statuses := (bucket_results load_save_func calls).*1 in
  (∀ s, s ∈ statuses → severity s ≤ severity status)
  ∧ (statuses ≠ [] → status ∈ statuses)
  ∧ (READ_FAIL ∈ statuses → status = READ_FAIL)
  ∧ (Forall (λ s, s = SUCCESS) statuses → status = SUCCESS).
Proof.
  intros Heq statuses. unfold _load_save_settings in Heq.
  injection Heq as <- <- _.
  set (calls := settings_per_sources_of explicit _) in *.
  pose proof (worst_status_cases load_save_func calls) as Hcases.
  simpl in Hcases. fold statuses in Hcases.
  set (worst := _get_worst_status _) in *.
  split_and!.
  - intros s Hs.
    destruct Hcases as [[_ ->]|[(_ & _ & ->)|[(Hr & Hw & _ & ->)|(Hr & Hw & Hn & ->)]]];
      destruct s; simpl; try lia; done.
  - intros Hne.
    destruct Hcases as [[? ->]|[(_ & ? & ->)|[(_ & _ & ? & ->)|(Hr & Hw & Hn & ->)]]];
      try done.
    destruct statuses as [|s l]; [done|].
    destruct s; [left | exfalso; apply Hr; left | exfalso; apply Hw; left
                | exfalso; apply Hn; left].
  - intros Hr. destruct Hcases as [[_ ->]|[(? & _)|[(? & _)|(? & _)]]]; done.
  - intros Hall. rewrite Forall_forall in Hall.
    destruct Hcases as [[Hp ->]|[(_ & Hp & ->)|[(_ & _ & Hp & ->)|(_ & _ & _ & ->)]]];
      try done; by apply Hall in Hp.
Qed.

Lemma worst_status_most_severe_witness :
  let statuses :=
    (bucket_results mixed_backend
       [(["session"; "persistent"], [setting_a]); (["session"], [setting_b])]).*1 in
  (∀ s, s ∈ statuses → severity s ≤ severity READ_FAIL)
  ∧ (statuses ≠ [] → READ_FAIL ∈ statuses)
  ∧ (READ_FAIL ∈ statuses → READ_FAIL = READ_FAIL)
  ∧ (Forall (λ s, s = SUCCESS) statuses → READ_FAIL = SUCCESS).
Proof.
  apply (worst_status_most_severe mixed_backend None [setting_a; setting_b]
           _ READ_FAIL "could not read").
  reflexivity.
Defined.

(** The message that [_load_save] returns is the message of the last
    bucket, in the order of the calls, that reported the returned status:
    the assignment to [status_and_messages] overwrites the message of an
    earlier bucket with the same status. *)
Lemma message_of_last_worst_bucket load_save_func explicit walked calls status message :
  _load_save_settings load_save_func explicit walked = (calls, (status, message)) →
  message = default "" (last_message_of status (bucket_results load_save_func calls)).
Proof.
  unfold _load_save_settings. intros [= <- <- <-].
  rewrite status_and_messages_get. simpl.
  by destruct (last_message_of _ _).
Qed.

(** With two buckets that report the returned status, the message returned
    is not the one of the first of them. *)
Lemma message_of_first_worst_bucket_fails :
  ¬ message_of_first_worst_bucket failing_backend None [setting_a; setting_b].
Proof.
  unfold message_of_first_worst_bucket.
  assert (_load_save_settings failing_backend None [setting_a; setting_b]
          = ([(["session"; "persistent"], [setting_a]); (["session"], [setting_b])],
             (READ_FAIL, "could not read b"))) as -> by reflexivity.
  intros H. specialize (H ltac:(simpl; lia)). discriminate H.
Qed.

Lemma string_length_app (s1 s2 : string) :
  String.length (s1 +:+ s2) = String.length s1 + String.length s2.
Proof. induction s1 as [|a s1 IH]; simpl; [done|]. by rewrite IH. Qed.

(** C1.  On the sample group, whose settings [a] and [b] have different
    source tuples, with a backend that fails to read either bucket with a
    message of its own, [load] calls the backend for [a] and then for [b] and
    returns [READ_FAIL] with the message of the second call alone.  The
    message of the first bucket that reported the returned status is not the
    message returned, and it is no part of it either. *)
Theorem load_loses_first_message :
  ∃ log calls,
    load failing_backend 15 sample_objs 0 None ∅
    = Some (log, (calls, (READ_FAIL, "could not read b")), ∅)
    ∧ bucket_results failing_backend calls
      = [(READ_FAIL, "could not read a"); (READ_FAIL, "could not read b")]
    ∧ first_message_of READ_FAIL (bucket_results failing_backend calls)
      = Some "could not read a"
    ∧ ¬ occurs_in "could not read a" "could not read b".
Proof.
  do 2 eexists. split_and!; [reflexivity..|].
  intros (before & after & Heq).
  pose proof (f_equal String.length Heq) as Hlen.
  rewrite !string_length_app in Hlen. simpl in Hlen.
  destruct before; [|simpl in Hlen; lia].
  destruct after; [|simpl in Hlen; lia].
  discriminate Heq.
Qed.

(** ** Path lookup *)

Lemma split_not_nil s : split s ≠ [].
Proof.
  destruct s as [|c s]; simpl; [done|].
  destruct (Ascii.eqb c SETTING_PATH_SEPARATOR); [done|].
  by destruct (split s).
Qed.

(** A name without separator is its own single component, and the
    components of a path hold no separator. *)
Lemma split_name s : contains_separator s = false → split s = [s].
Proof.
  induction s as [|c s IH]; simpl; [done|].
  destruct (Ascii.eqb c SETTING_PATH_SEPARATOR); [done|].
  intros Hs. by rewrite IH.
Qed.

Lemma split_components s :
  Forall (λ component, contains_separator component = false) (split s).
Proof.
  induction s as [|c s IH]; simpl.
  - by repeat constructor.
  - destruct (Ascii.eqb c SETTING_PATH_SEPARATOR) eqn:Hc.
    + by constructor.
    + destruct (split s) as [|w ws]; [repeat constructor; simpl; by rewrite Hc|].
      inversion IH; subst. constructor; [|done]. simpl. by rewrite Hc.
Qed.

(** On a component, [__contains__] and [__getitem__] of a group are their
    separator-free branches, as used in [descend]. *)
Lemma contains_component objs g name :
  contains_separator name = false →
  __contains__ objs g name = contains_name objs (NGroup g) name.
Proof. intros Hname. unfold __contains__. by rewrite Hname. Qed.

Lemma getitem_component objs g name :
  contains_separator name = false →
  __getitem__ objs g name = getitem_name objs (NGroup g) name.
Proof. intros Hname. unfold __getitem__. by rewrite Hname. Qed.

Lemma init_last_app {A} (x : A) l i z : init_last x l = (i, z) → x :: l = i ++ [z].
Proof.
  revert x i z. induction l as [|y l IH]; intros x i z; simpl.
  - by intros [= <- <-].
  - destruct (init_last y l) as [i' z'] eqn:Hil. intros [= <- <-].
    simpl. f_equal. by apply IH.
Qed.

Lemma walk_segments_app objs n segments segments' :
  walk_segments objs n (segments ++ segments')
  = walk_segments objs n segments ≫= λ m, walk_segments objs m segments'.
Proof.
  revert n. induction segments as [|s segments IH]; intros n; simpl; [done|].
  destruct n as [?|g]; [done|].
  destruct (od_get s (settings_of objs g)); [apply IH | done].
Qed.

(** The loop of [_get_setting_from_path] ends without raising exactly when
    the segments can be walked, and then at the node they lead to. *)
Lemma descend_Ok objs n group_names m :
  descend objs n group_names = Ok m ↔ walk_segments objs n group_names = Some m.
Proof.
  revert n. induction group_names as [|name rest IH]; intros n; simpl.
  - split; congruence.
  - destruct n as [s|g]; simpl; [done|].
    unfold od_contains.
    destruct (od_get name (settings_of objs g)) as [child|] eqn:Hget.
    + rewrite bool_decide_eq_true_2 by eauto. apply IH.
    + rewrite bool_decide_eq_false_2 by (by intros [? ?]). done.
Qed.

(** When the loop raises, it raises [KeyError] unless it met a setting where
    a group was due. *)
Lemma descend_KeyError objs n group_names :
  (∃ e, descend objs n group_names = Raise (KeyError e))
  ∨ (∃ m, descend objs n group_names = Ok m)
  ∨ descend objs n group_names = Raise (TypeError not_a_container).
Proof.
  revert n. induction group_names as [|name rest IH]; intros n; simpl.
  - right; left; eauto.
  - destruct n as [s|g]; simpl; [by right; right|].
    unfold od_contains.
    destruct (od_get name (settings_of objs g)) as [child|] eqn:Hget.
    + rewrite bool_decide_eq_true_2 by eauto. apply IH.
    + rewrite bool_decide_eq_false_2 by (by intros [? ?]). left; eauto.
Qed.

Lemma getitem_name_Ok objs n name m :
  getitem_name objs n name = Ok m ↔ walk_segments objs n [name] = Some m.
Proof.
  destruct n as [s|g]; simpl; [done|].
  destruct (od_get name (settings_of objs g)); split; congruence.
Qed.

Lemma get_setting_from_path_Ok objs self setting_path m :
  _get_setting_from_path objs self setting_path = Ok m
  ↔ walk_segments objs (NGroup self) (split setting_path) = Some m.
Proof.
  unfold _get_setting_from_path.
  destruct (split setting_path) as [|c cs] eqn:Hsplit.
  - by apply split_not_nil in Hsplit.
  - destruct (init_last c cs) as [group_names last_component] eqn:Hil.
    rewrite (init_last_app _ _ _ _ Hil), walk_segments_app.
    destruct (descend objs (NGroup self) group_names) as [current|e] eqn:Hd.
    + apply descend_Ok in Hd. rewrite Hd. simpl.
      change (match current with
              | NSetting _ => None
              | NGroup g =>
                  match od_get last_component (settings_of objs g) with
                  | Some child => Some child
                  | None => None
                  end
              end) with (walk_segments objs current [last_component]).
      rewrite <-getitem_name_Ok.
      destruct (getitem_name objs current last_component) as [?|[]];
        split; congruence.
    + split; [done|].
      destruct (walk_segments objs (NGroup self) group_names) as [current|] eqn:Hw;
        [|done].
      apply descend_Ok in Hw. congruence.
Qed.

(** [_get_setting_from_path] raises [KeyError], returns, or raises the
    [TypeError] of a setting met where a group was due. *)
Lemma get_setting_from_path_cases objs self setting_path :
  (∃ e, _get_setting_from_path objs self setting_path = Raise (KeyError e))
  ∨ (∃ m, _get_setting_from_path objs self setting_path = Ok m)
  ∨ _get_setting_from_path objs self setting_path = Raise (TypeError not_a_container).
Proof.
  unfold _get_setting_from_path.
  destruct (split setting_path) as [|c cs]; [left; eauto|].
  destruct (init_last c cs) as [group_names last_component].
  destruct (descend_KeyError objs (NGroup self) group_names)
    as [[e ->]|[[m ->]| ->]]; [left; eauto | | by right; right].
  destruct m as [s|g]; simpl; [by right; right|].
  destruct (od_get last_component (settings_of objs g)); [right|]; left; eauto.
Qed.

Example split_sample : split "main/advanced/c" = ["main"; "advanced"; "c"].
Proof. reflexivity. Qed.

Example split_trailing : split "main/" = ["main"; ""].
Proof. reflexivity. Qed.

Example getitem_sample :
  __getitem__ sample_objs 0 "main/advanced/c" = Ok (NSetting setting_c).
Proof. reflexivity. Qed.

Example contains_sample_missing : __contains__ sample_objs 0 "main/zzz" = Ok false.
Proof. reflexivity. Qed.

(** A path through a setting: both operations raise the same [TypeError]. *)
Example contains_sample_through_setting :
  __contains__ sample_objs 0 "d/x" = Raise (TypeError not_a_container)
  ∧ __getitem__ sample_objs 0 "d/x" = Raise (TypeError not_a_container).
Proof. split; reflexivity. Qed.

(** C3.  [path in group] answers [True] exactly when [group[path]] returns a
    node and [False] exactly when it raises [KeyError]; the node returned by
    [group[path]] is the one reached by splitting the path on the separator
    and walking the segments through the child maps of the nested groups. *)
Theorem contains_iff_getitem objs self setting_name_or_path :
  (__contains__ objs self setting_name_or_path = Ok true
   ↔ ∃ n, __getitem__ objs self setting_name_or_path = Ok n)
  ∧ (__contains__ objs self setting_name_or_path = Ok false
     ↔ ∃ e, __getitem__ objs self setting_name_or_path = Raise (KeyError e))
  ∧ (∀ n, __getitem__ objs self setting_name_or_path = Ok n
          ↔ walk_segments objs (NGroup self) (split setting_name_or_path) = Some n).
Proof.
  unfold __contains__, __getitem__.
  destruct (contains_separator setting_name_or_path) eqn:Hsep.
  - split_and!.
    + destruct (get_setting_from_path_cases objs self setting_name_or_path)
        as [[e ->]|[[m ->]| ->]]; split; try done; eauto; by intros [? ?].
    + destruct (get_setting_from_path_cases objs self setting_name_or_path)
        as [[e ->]|[[m ->]| ->]]; split; try done; eauto; by intros [? ?].
    + intros n. apply get_setting_from_path_Ok.
  - rewrite (split_name _ Hsep). simpl. unfold od_contains.
    destruct (od_get setting_name_or_path (settings_of objs self)) as [child|].
    + rewrite bool_decide_eq_true_2 by eauto.
      split_and!; [split; eauto | split; [done | by intros [? ?]] |].
      intros n; split; congruence.
    + rewrite bool_decide_eq_false_2 by (by intros [? ?]).
      split_and!; [split; [done | by intros [? ?]] | split; eauto |].
      intros n; split; congruence.
Qed.

(** ** Adding children *)

Lemma settings_of_set_settings objs self name child g :
  settings_of (set_settings objs self name child) g
  = if decide (g = self)
    then match objs !! self with
         | Some G => od_set name child (_settings G)
         | None => []
         end
    else settings_of objs g.
Proof.
  unfold settings_of, set_settings. destruct (decide (g = self)) as [->|Hne].
  - rewrite lookup_alter_eq. by destruct (objs !! self).
  - by rewrite lookup_alter_ne.
Qed.

Lemma od_get_filter_ne {V} (k k' : string) (d : list (string * V)) :
  k ≠ k' → od_get k (filter (λ kv, kv.1 ≠ k') d) = od_get k d.
Proof.
  intros Hne. induction d as [|[k1 v1] d IH]; [done|].
  rewrite filter_cons. simpl. destruct (decide (k1 ≠ k')) as [Hk1|Hk1]; simpl.
  - destruct (decide (k = k1)); [done | apply IH].
  - apply dec_stable in Hk1. subst k1. rewrite decide_False by done. apply IH.
Qed.

Section AddFacts.
Variable construct : nat → list (string * attribute) → option Setting.
Variable getargspec : nat → list string * option (list attribute).

Local Abbreviation add' :=
  (add construct getargspec).
Local Abbreviation create' :=
  (_create_setting construct getargspec).

(** A setting or group that is attached is not the group itself. *)
Lemma add_setting_Ok objs self setting objs' :
  _add_setting objs self setting = Ok objs' →
  setting ≠ NGroup self
  ∧ objs' = set_settings objs self (node_name objs setting) setting.
Proof.
  unfold _add_setting.
  destruct (od_contains _ _); [done|].
  destruct (decide (setting = NGroup self)); [done|]. by intros [= <-].
Qed.

(** A description attaches a setting. *)
Lemma create_setting_Ok objs self setting_data objs' :
  create' objs self setting_data = Ok objs' →
  ∃ name setting, objs' = set_settings objs self name (NSetting setting).
Proof.
  unfold _create_setting, _instantiate_setting.
  destruct (od_get "type" setting_data) as [ty|]; [|done].
  destruct (od_get "name" _) as [[name| | |]|];
    try done; try (by destruct (bool_decide _)).
  destruct (contains_separator name); [done|].
  destruct (od_contains name _); [done|].
  destruct ty as [|ty| |]; try done.
  destruct (construct ty _) as [setting|].
  - intros [= <-]. eauto.
  - by destruct (_get_missing_required_arguments _ _ _) as [[|? ?]|].
Qed.

Lemma set_settings_no_self_child objs self name child :
  child ≠ NGroup self →
  no_self_child objs → no_self_child (set_settings objs self name child).
Proof.
  intros Hchild Hobjs g name'. rewrite settings_of_set_settings.
  destruct (decide (g = self)) as [->|Hne]; [|apply Hobjs].
  destruct (objs !! self) as [G|] eqn:HG; [|done].
  rewrite od_get_set. destruct (decide (name = name')); [congruence|].
  specialize (Hobjs self name'). unfold settings_of in Hobjs.
  by rewrite HG in Hobjs.
Qed.

Lemma add_no_self_child objs self setting_list :
  no_self_child objs → no_self_child (add' objs self setting_list).1.
Proof.
  revert objs. induction setting_list as [|item rest IH]; intros objs Hobjs;
    simpl; [done|].
  destruct item as [setting|setting_data].
  - destruct (_add_setting objs self setting) as [objs'|e] eqn:Hadd; [|done].
    apply add_setting_Ok in Hadd as [Hne ->].
    by apply IH, set_settings_no_self_child.
  - destruct (create' objs self setting_data) as [objs'|e] eqn:Hadd; [|done].
    apply create_setting_Ok in Hadd as (name & setting & ->).
    by apply IH, set_settings_no_self_child.
Qed.

(** Adding a group to itself raises [ValueError]. *)
Lemma add_setting_self objs self :
  ∃ e, _add_setting objs self (NGroup self) = Raise (ValueError e).
Proof.
  unfold _add_setting. destruct (od_contains _ _); [eauto|].
  rewrite decide_True by done. eauto.
Qed.
End AddFacts.

(** C2 fails for a group that holds [G] without being [G]: it is attached,
    and [G] becomes a descendant of itself. *)
Lemma ancestor_refused_fails : ¬ ancestor_refused nested_objs 0 (NGroup 1).
Proof.
  intros Hclaim. destruct Hclaim as [e He].
  - right. by apply in_subtree_child with (name := "g").
  - discriminate He.
Qed.

Lemma add_closes_cycle :
  ∃ objs',
    add sample_construct sample_getargspec nested_objs 0
      [item_node (NGroup 1)] = (objs', None)
    ∧ in_subtree objs' 0 (NGroup 0).
Proof.
  eexists. split; [reflexivity|].
  apply in_subtree_deeper with (name := "h") (c := NGroup 1); [reflexivity|].
  by apply in_subtree_child with (name := "g").
Qed.

(** C2, amended.  Adding a group as a child of itself fails with an error
    and leaves the store, hence the child set of the group, as it was; after
    any [add] on a store in which no group is a child of itself, no group is
    a child of itself.  (A group that holds [G] deeper in its subtree is not
    refused.) *)
Theorem self_refused construct getargspec objs self setting_list :
  (∃ e, add construct getargspec objs self
          [item_node (NGroup self)] = (objs, Some (ValueError e)))
  ∧ (no_self_child objs →
     no_self_child
       (add construct getargspec objs self
          setting_list).1).
Proof.
  split.
  - destruct (add_setting_self objs self) as [e He]. exists e. simpl. by rewrite He.
  - apply add_no_self_child.
Qed.

Lemma nested_no_self_child : no_self_child nested_objs.
Proof.
  intros g name. unfold settings_of, nested_objs.
  destruct (decide (g = 0)) as [->|H0]; [by rewrite lookup_insert_eq|].
  rewrite lookup_insert_ne by done.
  destruct (decide (g = 1)) as [->|H1].
  - rewrite lookup_insert_eq. simpl. destruct (decide (name = "g")); done.
  - by rewrite lookup_insert_ne.
Qed.

Lemma self_refused_witness :
  (∃ e, add sample_construct sample_getargspec nested_objs 0
          [item_node (NGroup 0)] = (nested_objs, Some (ValueError e)))
  ∧ no_self_child
      (add sample_construct sample_getargspec nested_objs 0
         [item_node (NGroup 1)]).1.
Proof.
  destruct (self_refused sample_construct sample_getargspec
              nested_objs 0 [item_node (NGroup 1)]) as [Hself Hinv].
  split; [exact Hself | exact (Hinv nested_no_self_child)].
Defined.

(** C8.  When a group has a child named [n], adding another child named [n],
    as a node or as a description, raises the [ValueError] of a duplicate
    name and leaves the store, hence the children of the group and their
    order, as they were. *)
Theorem duplicate_name_refused construct getargspec objs self n
    item :
  is_Some (od_get n (settings_of objs self)) →
  contains_separator n = false →
  item_name objs item = Some n →
  add construct getargspec objs self [item]
  = (objs, Some (ValueError already_exists)).
Proof.
  intros Hchild Hsep Hitem. apply od_contains_true in Hchild.
  destruct item as [setting|setting_data]; simpl in *.
  - injection Hitem as <-. unfold _add_setting. by rewrite Hchild.
  - unfold _create_setting.
    destruct (od_get "type" setting_data) as [ty|]; [|done].
    rewrite od_get_filter_ne by done.
    destruct (od_get "name" setting_data) as [[name| | |]|];
    try done; try (by destruct (bool_decide _)).
    injection Hitem as ->. by rewrite Hsep, Hchild.
Qed.

Lemma duplicate_name_refused_witness :
  add sample_construct sample_getargspec sample_objs 1
    [item_dict [("type", AType 7); ("name", AStr "a")]]
  = (sample_objs, Some (ValueError already_exists)).
Proof.
  apply (duplicate_name_refused sample_construct sample_getargspec
           sample_objs 1 "a"); [by eexists | reflexivity | reflexivity].
Defined.

(** ** The tree under a group *)

Lemma elem_of_concat_map {A B} (f : A → list B) (l : list A) (y : B) :
  y ∈ concat (map f l) ↔ ∃ x, x ∈ l ∧ y ∈ f x.
Proof.
  induction l as [|x l IH]; simpl.
  - split; [by intros ?%elem_of_nil | by intros (? & ?%elem_of_nil & _)].
  - rewrite elem_of_app, IH. split.
    + intros [Hy|(x' & Hx' & Hy)]; [exists x; split; [left | done]|].
      exists x'. split; [by right | done].
    + intros (x' & [->|Hx']%elem_of_cons & Hy); [by left | right; eauto].
Qed.

Lemma list_sum_elem_le (l : list nat) (x : nat) : x ∈ l → x ≤ list_sum l.
Proof.
  induction l as [|y l IH]; simpl; [by intros ?%elem_of_nil|].
  intros [->|Hx]%elem_of_cons; [lia|]. apply IH in Hx. lia.
Qed.

Lemma Forall2_elem_r {A B} (R : A → B → Prop) l k y :
  Forall2 R l k → y ∈ k → ∃ x, x ∈ l ∧ R x y.
Proof.
  induction 1 as [|x y' l k HR _ IH]; [by intros ?%elem_of_nil|].
  intros [->|Hy]%elem_of_cons.
  - exists x. split; [left | done].
  - destruct (IH Hy) as (x' & Hx' & HR'). exists x'. split; [by right | done].
Qed.

Section Unfold.
Variable objs : gmap nat SettingGroup.

Lemma unfold_group depth g t :
  unfold (S depth) objs (NGroup g) = Some t
  ↔ ∃ children,
      t = TGroup g children
      ∧ Forall2 (λ n c, unfold depth objs n = Some c)
          (od_values (settings_of objs g)) children.
Proof.
  simpl. split.
  - destruct (mapM _ _) as [children|] eqn:Hm; [|done].
    intros [= <-]. exists children. split; [done|]. by apply mapM_Some.
  - intros (children & -> & Hm%mapM_Some). by rewrite Hm.
Qed.

Lemma unfold_group_inv depth g t :
  unfold depth objs (NGroup g) = Some t →
  ∃ depth' children,
    depth = S depth' ∧ t = TGroup g children
    ∧ Forall2 (λ n c, unfold depth' objs n = Some c)
        (od_values (settings_of objs g)) children.
Proof.
  destruct depth as [|depth']; [done|].
  intros (children & -> & Hm)%unfold_group. eauto.
Qed.

Lemma unfold_root depth n t : unfold depth objs n = Some t → root t = n.
Proof.
  destruct n as [s|g].
  - destruct depth; by intros [= <-].
  - by intros (? & ? & -> & -> & _)%unfold_group_inv.
Qed.

(** A greater depth yields the same tree. *)
Lemma unfold_S depth n t :
  unfold depth objs n = Some t → unfold (S depth) objs n = Some t.
Proof.
  revert n t. induction depth as [|depth IH]; intros n t.
  - by destruct n.
  - destruct n as [s|g]; [done|].
    intros (children & -> & Hm)%unfold_group.
    apply unfold_group. exists children. split; [done|].
    eapply Forall2_impl; [exact Hm|]. intros ? ?. apply IH.
Qed.

(** A group that occurs below the root of a tree has a smaller tree of its
    own, so it is not the root. *)
Lemma unfold_below depth g children id :
  unfold depth objs (NGroup g) = Some (TGroup g children) →
  id ∈ concat (map groups_of children) →
  ∃ t, unfold depth objs (NGroup id) = Some t
       ∧ tree_size t < tree_size (TGroup g children).
Proof.
  revert g children id. induction depth as [|depth IH]; intros g children id;
    [done|].
  intros (children' & [= <-] & Hm)%unfold_group.
  intros (c & Hc & Hid)%elem_of_concat_map.
  destruct (Forall2_elem_r _ _ _ _ Hm Hc) as (n & _ & Hn).
  assert (tree_size c ≤ list_sum (map tree_size children)) as Hsize.
  { apply list_sum_elem_le, list_elem_of_In, in_map, list_elem_of_In, Hc. }
  destruct c as [s|g' children'']; simpl in Hid; [by apply elem_of_nil in Hid|].
  pose proof (unfold_root _ _ _ Hn) as Hroot. simpl in Hroot. subst n.
  apply elem_of_cons in Hid as [->|Hid].
  - exists (TGroup g' children''). split; [by apply unfold_S|]. simpl in *. lia.
  - destruct (IH _ _ _ Hn Hid) as (t & Ht & Hlt).
    exists t. split; [by apply unfold_S|]. simpl in *. lia.
Qed.

Lemma unfold_acyclic depth g children :
  unfold depth objs (NGroup g) = Some (TGroup g children) →
  g ∉ concat (map groups_of children).
Proof.
  intros Hg Hin. destruct (unfold_below _ _ _ _ Hg Hin) as (t & Ht & Hlt).
  rewrite Hg in Ht. injection Ht as <-. lia.
Qed.
End Unfold.

(** ** The walk *)

Lemma prepend_prepend events events' r :
  prepend events (prepend events' r) = prepend (events ++ events') r.
Proof. destruct r as [[e i]|]; simpl; [|done]. by rewrite app_assoc. Qed.

Lemma yields_app events events' :
  yields (events ++ events') = yields events ++ yields events'.
Proof. apply omap_app. Qed.

Lemma prepend_nil r : prepend [] r = r.
Proof. by destruct r as [[e i]|]. Qed.

Section WalkFacts.
Variable objs : gmap nat SettingGroup.
Variable self : nat.
Variable include_setting_func : node → bool.
Variables include_groups include_if_parent_skipped : bool.

Local Abbreviation run :=
  (walk_run objs self include_setting_func include_groups
     include_if_parent_skipped).
Local Abbreviation events_of :=
  (subtree_events include_setting_func include_groups include_if_parent_skipped).
Local Abbreviation rounds_of :=
  (subtree_rounds include_setting_func include_if_parent_skipped).
Local Abbreviation group_walked' :=
  (group_walked objs self include_setting_func include_groups
     include_if_parent_skipped).

(** One round of the loop. *)
Lemma walk_run_round fuel g0 rest iters :
  run (S fuel) (g0 :: rest) iters
  = let '(callbacks, y, (groups', iters')) :=
      walk_iteration objs self include_setting_func include_groups
        include_if_parent_skipped (g0 :: rest) iters in
    prepend (callbacks ++ yielded y) (run fuel groups' iters').
Proof.
  cbn [walk_run].
  destruct (walk_iteration _ _ _ _ _ _ _) as [[callbacks y] [groups' iters']].
  destruct (run fuel groups' iters') as [[e i]|]; simpl; [|done].
  by rewrite app_assoc.
Qed.

Lemma next_child g iters pre n rest :
  od_values (settings_of objs g) = pre ++ n :: rest →
  default 0 (iters !! g) = length pre →
  _next objs g iters = (Some n, <[g := S (length pre)]> iters).
Proof.
  intros Hvalues Hpos. unfold _next. rewrite Hpos, Hvalues.
  by rewrite list_lookup_middle.
Qed.

Lemma next_exhausted g iters :
  default 0 (iters !! g) = length (od_values (settings_of objs g)) →
  _next objs g iters = (None, delete g iters).
Proof.
  intros Hpos. unfold _next. rewrite Hpos.
  by rewrite lookup_ge_None_2.
Qed.

(** The rounds of the loop, case by case. *)
Lemma round_setting fuel g stack iters s iters' :
  _next objs g iters = (Some (NSetting s), iters') →
  run (S fuel) (g :: stack) iters
  = prepend (events_of (TSetting s)) (run fuel (g :: stack) iters').
Proof.
  intros Hnext. rewrite walk_run_round. unfold walk_iteration. rewrite Hnext.
  simpl. by destruct (include_setting_func (NSetting s)).
Qed.

Lemma round_group_entered fuel g stack iters c iters' :
  _next objs g iters = (Some (NGroup c), iters') →
  include_setting_func (NGroup c) = true →
  run (S fuel) (g :: stack) iters
  = prepend (if include_groups then [on_visit_group c; yield (NGroup c)] else [])
      (run fuel (c :: g :: stack) iters').
Proof.
  intros Hnext Hinc. rewrite walk_run_round. unfold walk_iteration.
  rewrite Hnext, Hinc. by destruct include_groups.
Qed.

Lemma round_group_descended fuel g stack iters c iters' :
  _next objs g iters = (Some (NGroup c), iters') →
  include_setting_func (NGroup c) = false →
  include_if_parent_skipped = true →
  run (S fuel) (g :: stack) iters = run fuel (c :: g :: stack) iters'.
Proof.
  intros Hnext Hinc Hskip. rewrite walk_run_round. unfold walk_iteration.
  rewrite Hnext, Hinc. destruct include_if_parent_skipped; [|done].
  apply prepend_nil.
Qed.

Lemma round_group_skipped fuel g stack iters c iters' :
  _next objs g iters = (Some (NGroup c), iters') →
  include_setting_func (NGroup c) = false →
  include_if_parent_skipped = false →
  run (S fuel) (g :: stack) iters = run fuel (g :: stack) iters'.
Proof.
  intros Hnext Hinc Hskip. rewrite walk_run_round. unfold walk_iteration.
  rewrite Hnext, Hinc. destruct include_if_parent_skipped; [done|].
  apply prepend_nil.
Qed.

Lemma round_end fuel g stack iters iters' :
  _next objs g iters = (None, iters') →
  run (S fuel) (g :: stack) iters
  = prepend (end_of_group self g) (run fuel stack iters').
Proof.
  intros Hnext. rewrite walk_run_round. unfold walk_iteration. rewrite Hnext.
  by rewrite app_nil_r.
Qed.

(** The traversal of the specification on a group, case by case. *)
Lemma subtree_group_entered g children :
  include_setting_func (NGroup g) = true →
  events_of (TGroup g children)
  = (if include_groups then [on_visit_group g; yield (NGroup g)] else [])
    ++ concat (map events_of children) ++ [on_end_group_walk g]
  ∧ rounds_of (TGroup g children) = S (list_sum (map rounds_of children) + 1).
Proof. intros Hinc. simpl. by rewrite Hinc. Qed.

Lemma subtree_group_descended g children :
  include_setting_func (NGroup g) = false →
  include_if_parent_skipped = true →
  events_of (TGroup g children)
  = concat (map events_of children) ++ [on_end_group_walk g]
  ∧ rounds_of (TGroup g children) = S (list_sum (map rounds_of children) + 1).
Proof.
  intros Hinc Hskip. simpl. rewrite Hinc.
  by destruct include_if_parent_skipped.
Qed.

Lemma subtree_group_skipped g children :
  include_setting_func (NGroup g) = false →
  include_if_parent_skipped = false →
  events_of (TGroup g children) = [] ∧ rounds_of (TGroup g children) = 1.
Proof.
  intros Hinc Hskip. simpl. rewrite Hinc.
  by destruct include_if_parent_skipped.
Qed.

Lemma children_walked depth :
  group_walked' depth →
  ∀ rest children pre g stack iters k,
    od_values (settings_of objs g) = pre ++ rest →
    Forall2 (λ n c, unfold depth objs n = Some c) rest children →
    default 0 (iters !! g) = length pre →
    (∀ id, id ∈ concat (map groups_of children) →
           iters !! id = None ∧ id ≠ self ∧ id ≠ g) →
    run (list_sum (map rounds_of children) + 1 + k) (g :: stack) iters
    = prepend (concat (map events_of children) ++ end_of_group self g)
        (run k stack (delete g iters)).
Proof.
  intros Hgroup rest children pre g stack iters k Hvalues Hforall.
  revert pre iters Hvalues.
  induction Hforall as [|n t rest children Hn _ IH];
    intros pre iters Hvalues Hpos Hclear.
  - (* no child left: the group is popped *)
    cbn [map list_sum concat Nat.add app].
    rewrite (round_end _ _ _ _ (delete g iters)); [done|].
    apply next_exhausted.
    by rewrite Hvalues, Hpos, length_app, Nat.add_0_r.
  - assert (Hnext := next_child g iters pre n rest Hvalues Hpos).
    set (iters1 := <[g := S (length pre)]> iters) in *.
    assert (Hrest :
      run (list_sum (map rounds_of children) + 1 + k) (g :: stack) iters1
      = prepend (concat (map events_of children) ++ end_of_group self g)
          (run k stack (delete g iters))).
    { replace (delete g iters) with (delete g iters1)
        by apply delete_insert_eq.
      apply (IH (pre ++ [n])).
      - by rewrite <-app_assoc.
      - subst iters1. rewrite lookup_insert_eq. simpl.
        rewrite length_app. simpl. lia.
      - intros id Hid. destruct (Hclear id) as (Hnone & Hself & Hg).
        { simpl. apply elem_of_app. by right. }
        subst iters1. by rewrite lookup_insert_ne. }
    change (concat (map events_of (t :: children)))
      with (events_of t ++ concat (map events_of children)).
    change (list_sum (map rounds_of (t :: children)))
      with (rounds_of t + list_sum (map rounds_of children)).
    rewrite <-(app_assoc (events_of t)), <-prepend_prepend, <-Hrest.
    clear Hrest IH.
    destruct n as [s|c].
    + (* a setting *)
      assert (t = TSetting s) as -> by (destruct depth; by injection Hn as <-).
      by rewrite <-(round_setting _ _ _ _ _ _ Hnext).
    + (* a group *)
      destruct (unfold_group_inv _ _ _ _ Hn) as (depth' & grandchildren & _ & -> & _).
      assert (Hc : iters1 !! c = None ∧ c ≠ self ∧ c ≠ g).
      { destruct (Hclear c) as (Hnone & Hself & Hg).
        { simpl. left. }
        subst iters1. by rewrite lookup_insert_ne. }
      destruct Hc as (Hc_none & Hc_self & Hc_g).
      assert (Hinner : ∀ k',
        run (list_sum (map rounds_of grandchildren) + 1 + k') (c :: g :: stack) iters1
        = prepend (concat (map events_of grandchildren) ++ [on_end_group_walk c])
            (run k' (g :: stack) iters1)).
      { intros k'. rewrite (Hgroup c grandchildren (g :: stack) iters1 k' Hn Hc_none).
        - unfold end_of_group. by rewrite decide_True.
        - intros id Hid. destruct (Hclear id) as (Hnone & Hself & Hg).
          { simpl. right. apply elem_of_app. by left. }
          subst iters1. by rewrite lookup_insert_ne. }
      set (k' := list_sum (map rounds_of children) + 1 + k).
      destruct (include_setting_func (NGroup c)) eqn:Hinc;
        [|destruct (decide (include_if_parent_skipped = true))
            as [Hskip|Hskip%not_true_is_false]].
      * destruct (subtree_group_entered c grandchildren Hinc) as [-> ->].
        replace (S (list_sum (map rounds_of grandchildren) + 1)
                 + list_sum (map rounds_of children) + 1 + k)
          with (S (list_sum (map rounds_of grandchildren) + 1 + k'))
          by (subst k'; lia).
        rewrite (round_group_entered _ _ _ _ _ _ Hnext Hinc), Hinner.
        by rewrite !prepend_prepend.
      * destruct (subtree_group_descended c grandchildren Hinc Hskip) as [-> ->].
        replace (S (list_sum (map rounds_of grandchildren) + 1)
                 + list_sum (map rounds_of children) + 1 + k)
          with (S (list_sum (map rounds_of grandchildren) + 1 + k'))
          by (subst k'; lia).
        by rewrite (round_group_descended _ _ _ _ _ _ Hnext Hinc Hskip), Hinner.
      * destruct (subtree_group_skipped c grandchildren Hinc Hskip) as [-> ->].
        replace (1 + list_sum (map rounds_of children) + 1 + k) with (S k')
          by (subst k'; lia).
        rewrite (round_group_skipped _ _ _ _ _ _ Hnext Hinc Hskip).
        by rewrite prepend_nil.
Qed.

Lemma group_walked_all depth : group_walked' depth.
Proof.
  induction depth as [|depth IH]; [by intros ? ? ? ? ? ?|].
  intros c children stack iters k Hunfold Hnone Hclear.
  pose proof (unfold_acyclic _ _ _ _ Hunfold) as Hacyclic.
  apply unfold_group in Hunfold as (children' & [= <-] & Hforall).
  rewrite (children_walked depth IH (od_values (settings_of objs c)) children
             [] c stack iters k);
    [by rewrite delete_id | done | done | by rewrite Hnone |].
  intros id Hid. destruct (Hclear id Hid) as [? ?]. split_and!; [done..|].
  by intros ->.
Qed.

(** The walk of a group under which the store holds a tree, started with
    clear cursors: it ends, it does what the filtered pre-order traversal
    of the tree says, and it leaves the cursors as it found them. *)
Lemma walk_tree depth t iters k :
  unfold depth objs (NGroup self) = Some t →
  cursors_clear iters t →
  walk objs self include_setting_func include_groups include_if_parent_skipped
    (walk_rounds include_setting_func include_if_parent_skipped t + k) iters
  = Some (walk_events include_setting_func include_groups
            include_if_parent_skipped t, iters).
Proof.
  intros Hunfold Hclear.
  destruct (unfold_group_inv _ _ _ _ Hunfold) as (depth' & children & _ & -> & _).
  pose proof (unfold_acyclic _ _ _ _ Hunfold) as Hacyclic.
  unfold walk. simpl walk_rounds. simpl walk_events.
  rewrite (group_walked_all depth self children [] iters k Hunfold).
  - unfold end_of_group. rewrite decide_False by (by intros ?).
    destruct k; simpl; by rewrite !app_nil_r.
  - apply Hclear. simpl. left.
  - intros id Hid. split.
    + apply Hclear. simpl. by right.
    + by intros ->.
Qed.
(** A walk started while the cursor of the walked group stands after some
    of its children goes through the remaining children only. *)
Lemma walk_from_cursor depth pre rest children iters k :
  od_values (settings_of objs self) = pre ++ rest →
  Forall2 (λ n c, unfold depth objs n = Some c) rest children →
  default 0 (iters !! self) = length pre →
  (∀ id, id ∈ concat (map groups_of children) → iters !! id = None ∧ id ≠ self) →
  walk objs self include_setting_func include_groups include_if_parent_skipped
    (list_sum (map rounds_of children) + 1 + k) iters
  = Some (concat (map events_of children), delete self iters).
Proof.
  intros Hvalues Hforall Hpos Hclear. unfold walk.
  rewrite (children_walked depth (group_walked_all depth) rest children pre
             self [] iters k Hvalues Hforall Hpos).
  - unfold end_of_group. rewrite decide_False by (by intros ?).
    destruct k; simpl; by rewrite !app_nil_r.
  - intros id Hid. destruct (Hclear id Hid) as [? ?]. done.
Qed.

(** The first [next()] on a walk of a group whose first child is a setting
    that is included yields that setting. *)
Lemma walk_next_first_setting fuel iters s rest :
  od_values (settings_of objs self) = NSetting s :: rest →
  iters !! self = None →
  include_setting_func (NSetting s) = true →
  walk_next objs self include_setting_func include_groups
    include_if_parent_skipped (S fuel) [self] iters
  = Some (Some (NSetting s), [on_visit_setting s], ([self], <[self := 1]> iters)).
Proof.
  intros Hvalues Hnone Hinc. cbn [walk_next]. unfold walk_iteration.
  rewrite (next_child self iters [] (NSetting s) rest Hvalues)
    by (by rewrite Hnone).
  by rewrite Hinc.
Qed.
(** The callbacks of a round are no yields. *)
Lemma walk_iteration_callbacks groups iters :
  yields (walk_iteration objs self include_setting_func include_groups
            include_if_parent_skipped groups iters).1.1 = [].
Proof.
  unfold walk_iteration. destruct groups as [|g0 rest]; [done|].
  destruct (_next objs g0 iters) as [[[s|c]|] iters']; simpl.
  - by destruct (include_setting_func (NSetting s)).
  - destruct (include_setting_func (NGroup c)); [by destruct include_groups|].
    by destruct include_if_parent_skipped.
  - unfold end_of_group. by destruct (decide (g0 ≠ self)).
Qed.

(** The generator and its run to exhaustion: when the run ends, [next()]
    either raises [StopIteration], and the run yields nothing, or yields the
    first node of the run and leaves a generator whose run yields the
    others. *)
Lemma walk_next_of_run n groups iters events iters' fuel :
  run n groups iters = Some (events, iters') →
  n ≤ fuel →
  match walk_next objs self include_setting_func include_groups
          include_if_parent_skipped fuel groups iters with
  | Some (None, _, (_, iters1)) => yields events = [] ∧ iters1 = iters'
  | Some (Some first, _, (groups1, iters1)) =>
      ∃ n1 events1,
        n1 < n ∧ run n1 groups1 iters1 = Some (events1, iters')
        ∧ yields events = first :: yields events1
  | None => False
  end.
Proof.
  revert groups iters events fuel.
  induction n as [|n IH]; intros groups iters events fuel Hrun Hfuel.
  - destruct groups as [|g0 rest]; [|done]. injection Hrun as <- <-.
    by destruct fuel.
  - destruct groups as [|g0 rest].
    { injection Hrun as <- <-. by destruct fuel. }
    destruct fuel as [|fuel]; [lia|].
    pose proof (walk_iteration_callbacks (g0 :: rest) iters) as Hcallbacks.
    cbn [walk_run walk_next] in *.
    destruct (walk_iteration _ _ _ _ _ _ _) as [[callbacks y] [groups1 iters1]].
    simpl in Hcallbacks.
    destruct (run n groups1 iters1) as [[events1 iters2]|] eqn:Hrun1; [|done].
    injection Hrun as <- <-.
    destruct y as [first|].
    + exists n, events1. split_and!; [lia | done |].
      by rewrite !yields_app, Hcallbacks.
    + specialize (IH groups1 iters1 events1 fuel Hrun1 ltac:(lia)).
      destruct (walk_next _ _ _ _ _ fuel groups1 iters1)
        as [[[[first|] callbacks'] [groups2 iters3]]|]; simpl; [| |done].
      * destruct IH as (n1 & events2 & Hn1 & Hrun2 & Hyields).
        exists n1, events2. split_and!; [lia | done |].
        by rewrite !yields_app, Hcallbacks.
      * destruct IH as [Hyields ->]. split; [|done].
        by rewrite !yields_app, Hcallbacks.
Qed.

(** A [for] loop over a walk whose run ends folds its body over the nodes
    that the run yields. *)
Lemma for_walk_of_run {A} (body : A → node → A) fuel :
  ∀ n groups iters events iters' acc,
    run n groups iters = Some (events, iters') →
    n < fuel →
    for_walk objs self include_setting_func include_groups
      include_if_parent_skipped body fuel groups iters acc
    = Some (fold_left body (yields events) acc, iters').
Proof.
  induction fuel as [|fuel IH]; intros n groups iters events iters' acc Hrun Hfuel;
    [lia|].
  pose proof (walk_next_of_run n groups iters events iters' fuel Hrun
                ltac:(lia)) as Hnext.
  cbn [for_walk].
  destruct (walk_next _ _ _ _ _ fuel groups iters)
    as [[[[first|] callbacks] [groups1 iters1]]|]; [| |done].
  - destruct Hnext as (n1 & events1 & Hn1 & Hrun1 & ->).
    by rewrite (IH n1 groups1 iters1 events1 iters' (body acc first) Hrun1
                  ltac:(lia)).
  - by destruct Hnext as [-> ->].
Qed.
End WalkFacts.

(** ** Trees *)

Lemma tree_induction (P : tree → Prop) :
  (∀ s, P (TSetting s)) →
  (∀ g children, Forall P children → P (TGroup g children)) →
  ∀ t, P t.
Proof.
  intros Hsetting Hgroup. fix IH 1. intros [s|g children].
  - apply Hsetting.
  - apply Hgroup. induction children as [|c children IHc]; constructor.
    + apply IH.
    + apply IHc.
Qed.

Lemma list_sum_le_map {A} (f f' : A → nat) (k : nat) (l : list A) :
  Forall (λ x, f x ≤ k * f' x) l →
  list_sum (map f l) ≤ k * list_sum (map f' l).
Proof. induction 1; simpl; lia. Qed.

(** The rounds of a walk are at most twice the nodes of the tree. *)
Lemma subtree_rounds_bound include_setting_func include_if_parent_skipped t :
  subtree_rounds include_setting_func include_if_parent_skipped t
  ≤ 2 * tree_size t.
Proof.
  induction t as [s|g children IH] using tree_induction; simpl; [lia|].
  apply list_sum_le_map in IH.
  destruct (include_setting_func (NGroup g) || include_if_parent_skipped); lia.
Qed.

Lemma walk_rounds_bound include_setting_func include_if_parent_skipped t :
  walk_rounds include_setting_func include_if_parent_skipped t ≤ 2 * tree_size t.
Proof.
  destruct t as [s|g children]; simpl; [lia|].
  assert (list_sum (map (subtree_rounds include_setting_func
                           include_if_parent_skipped) children)
          ≤ 2 * list_sum (map tree_size children)); [|lia].
  apply list_sum_le_map, Forall_forall. intros c _. apply subtree_rounds_bound.
Qed.

(** The walk of a tree with any fuel from twice its size on. *)
Lemma walk_tree_fuel objs self include_setting_func include_groups
    include_if_parent_skipped depth t iters fuel :
  unfold depth objs (NGroup self) = Some t →
  cursors_clear iters t →
  2 * tree_size t ≤ fuel →
  walk objs self include_setting_func include_groups include_if_parent_skipped
    fuel iters
  = Some (walk_events include_setting_func include_groups
            include_if_parent_skipped t, iters).
Proof.
  intros Hunfold Hclear Hfuel.
  pose proof (walk_rounds_bound include_setting_func include_if_parent_skipped t).
  replace fuel
    with (walk_rounds include_setting_func include_if_parent_skipped t
          + (fuel - walk_rounds include_setting_func include_if_parent_skipped t))
    by lia.
  by eapply walk_tree.
Qed.

Lemma yields_concat {A} (f : A → list event) (g : A → list node) (l : list A) :
  Forall (λ x, yields (f x) = g x) l →
  yields (concat (map f l)) = concat (map g l).
Proof.
  induction 1 as [|x l Hx _ IH]; simpl; [done|]. by rewrite yields_app, Hx, IH.
Qed.

(** With every node included and groups yielded, the filtered traversal is
    the plain pre-order one. *)
Lemma subtree_events_all include_if_parent_skipped t :
  subtree_events (λ _, true) true include_if_parent_skipped t = preorder_events t.
Proof.
  induction t as [s|g children IH] using tree_induction; simpl; [done|].
  assert (map (subtree_events (λ _, true) true include_if_parent_skipped) children
          = map preorder_events children) as ->; [|done].
  induction IH as [|c children Hc _ IHc]; simpl; [done|]. by rewrite Hc, IHc.
Qed.

Lemma yields_preorder t : yields (preorder_events t) = preorder t.
Proof.
  induction t as [s|g children IH] using tree_induction; simpl; [done|].
  unfold yields in *. simpl. f_equal. rewrite omap_app. simpl.
  rewrite app_nil_r. by apply yields_concat.
Qed.

Lemma ended_groups_preorder t : ended_groups (preorder_events t) ≡ₚ groups_of t.
Proof.
  induction t as [s|g children IH] using tree_induction; simpl; [done|].
  unfold ended_groups in *. simpl. rewrite omap_app. simpl.
  rewrite <-Permutation_cons_append. constructor.
  induction IH as [|c children Hc _ IHc]; simpl; [done|].
  by rewrite omap_app, Hc, IHc.
Qed.

Lemma preorder_length t : length (preorder t) = tree_size t.
Proof.
  induction t as [s|g children IH] using tree_induction; simpl; [done|].
  f_equal. induction IH as [|c children Hc _ IHc]; simpl; [done|].
  by rewrite length_app, Hc, IHc.
Qed.

(** C4.  The walk of a group with every node included and groups yielded
    ends and does what the pre-order traversal of the tree under the group
    says: every child, in insertion order, is visited and yielded, a group
    before the nodes of its subtree, and the end of every subgroup is called
    back after the last node of its subtree.  The nodes yielded are those of
    the tree below the group, each once, at its place in pre-order, and the
    groups whose end is called back are the subgroups, each once. *)
Theorem walk_all_preorder objs self include_if_parent_skipped depth children
    iters fuel :
  unfold depth objs (NGroup self) = Some (TGroup self children) →
  cursors_clear iters (TGroup self children) →
  2 * tree_size (TGroup self children) ≤ fuel →
  ∃ events,
    walk objs self (λ _, true) true include_if_parent_skipped fuel iters
    = Some (events, iters)
    ∧ events = concat (map preorder_events children)
    ∧ yields events = concat (map preorder children)
    ∧ length (yields events) = list_sum (map tree_size children)
    ∧ ended_groups events ≡ₚ concat (map groups_of children).
Proof.
  intros Hunfold Hclear Hfuel.
  assert (Hevents :
    walk_events (λ _, true) true include_if_parent_skipped (TGroup self children)
    = concat (map preorder_events children)).
  { simpl. apply (f_equal (@concat event)), map_ext. intros c.
    apply subtree_events_all. }
  assert (Hyields :
    yields (concat (map preorder_events children)) = concat (map preorder children)).
  { apply yields_concat, Forall_forall. intros c _. apply yields_preorder. }
  exists (concat (map preorder_events children)). split_and!.
  - rewrite <-Hevents. by eapply walk_tree_fuel.
  - done.
  - done.
  - rewrite Hyields. clear. induction children as [|c children IH]; simpl; [done|].
    by rewrite length_app, preorder_length, IH.
  - clear. induction children as [|c children IH]; simpl; [done|].
    unfold ended_groups in *. rewrite omap_app.
    by rewrite IH, (ended_groups_preorder c).
Qed.

Lemma sample_unfold : unfold 3 sample_objs (NGroup 0) = Some sample_tree.
Proof. reflexivity. Qed.

Lemma sample_clear : cursors_clear ∅ sample_tree.
Proof. intros g _. apply lookup_empty. Qed.

Lemma walk_all_preorder_witness :
  ∃ events,
    walk sample_objs 0 (λ _, true) true false 14 ∅ = Some (events, ∅)
    ∧ events
      = concat (map preorder_events
          [TGroup 1 [TSetting setting_a; TGroup 2 [TSetting setting_c];
                     TSetting setting_b];
           TSetting setting_d])
    ∧ yields events
      = concat (map preorder
          [TGroup 1 [TSetting setting_a; TGroup 2 [TSetting setting_c];
                     TSetting setting_b];
           TSetting setting_d])
    ∧ length (yields events) = 6
    ∧ ended_groups events ≡ₚ [1; 2].
Proof.
  apply (walk_all_preorder sample_objs 0 false 3
           [TGroup 1 [TSetting setting_a; TGroup 2 [TSetting setting_c];
                      TSetting setting_b];
            TSetting setting_d] ∅ 14).
  - exact sample_unfold.
  - exact sample_clear.
  - simpl. lia.
Defined.

(** ** Walks and cursors *)

Example walk_sample :
  walk sample_objs 0 (λ _, true) true false 14 ∅
  = Some ([on_visit_group 1; yield (NGroup 1);
           on_visit_setting setting_a; yield (NSetting setting_a);
           on_visit_group 2; yield (NGroup 2);
           on_visit_setting setting_c; yield (NSetting setting_c);
           on_end_group_walk 2;
           on_visit_setting setting_b; yield (NSetting setting_b);
           on_end_group_walk 1;
           on_visit_setting setting_d; yield (NSetting setting_d)], ∅).
Proof. reflexivity. Qed.

(** Two [next()] on a walk of the sample yield [main] and [a]; if the walk
    is then abandoned, the next walk yields [d] only, and the walk after it
    goes through [main] from the place where the abandoned walk left it. *)
Example walk_sample_abandoned :
  ∃ groups1 iters1 groups2 iters2 iters3,
    walk_next sample_objs 0 (λ _, true) true false 14 [0] ∅
    = Some (Some (NGroup 1), [on_visit_group 1], (groups1, iters1))
    ∧ walk_next sample_objs 0 (λ _, true) true false 14 groups1 iters1
      = Some (Some (NSetting setting_a), [on_visit_setting setting_a],
              (groups2, iters2))
    ∧ walk sample_objs 0 (λ _, true) true false 14 iters2
      = Some ([on_visit_setting setting_d; yield (NSetting setting_d)], iters3)
    ∧ walk sample_objs 0 (λ _, true) true false 14 iters3
      = Some ([on_visit_group 1; yield (NGroup 1);
               on_visit_group 2; yield (NGroup 2);
               on_visit_setting setting_c; yield (NSetting setting_c);
               on_end_group_walk 2;
               on_visit_setting setting_b; yield (NSetting setting_b);
               on_end_group_walk 1;
               on_visit_setting setting_d; yield (NSetting setting_d)], ∅).
Proof. do 5 eexists. split_and!; reflexivity. Qed.

(** A walk started while the cursor of the walked group stands after some
    of its children, the cursors below the other children being clear, goes
    through these other children only, and clears the cursor. *)
Lemma walk_resumes objs self include_setting_func include_groups
    include_if_parent_skipped depth children iters fuel before after :
  unfold depth objs (NGroup self) = Some (TGroup self children) →
  2 * tree_size (TGroup self children) ≤ fuel →
  children = before ++ after →
  default 0 (iters !! self) = length before →
  (∀ id, id ∈ concat (map groups_of after) → iters !! id = None) →
  walk objs self include_setting_func include_groups include_if_parent_skipped
    fuel iters
  = Some (concat (map (subtree_events include_setting_func include_groups
                         include_if_parent_skipped) after),
          delete self iters).
Proof.
  intros Hunfold Hfuel -> Hpos Hclear.
  pose proof (unfold_acyclic _ _ _ _ Hunfold) as Hacyclic.
  destruct depth as [|depth]; [done|].
  apply unfold_group in Hunfold as (children' & [= <-] & Hforall).
  apply Forall2_app_inv_r in Hforall as (pre & rest & Hpre & Hrest & Hvalues).
  pose proof (walk_rounds_bound include_setting_func include_if_parent_skipped
                (TGroup self after)) as Hbound.
  simpl in Hbound, Hfuel. rewrite map_app, list_sum_app in Hfuel.
  replace fuel
    with (list_sum (map (subtree_rounds include_setting_func
                           include_if_parent_skipped) after) + 1
          + (fuel - (list_sum (map (subtree_rounds include_setting_func
                                      include_if_parent_skipped) after) + 1)))
    by lia.
  apply (walk_from_cursor objs self include_setting_func include_groups
           include_if_parent_skipped depth pre rest after); [done..| |].
  - by rewrite Hpos, (Forall2_length _ _ _ Hpre).
  - intros id Hid. split; [by apply Hclear|]. intros ->. apply Hacyclic.
    rewrite map_app, concat_app. apply elem_of_app. by right.
Qed.

(** C9.  When the store holds a tree under a group and no group of the tree
    is being iterated, a walk run to exhaustion leaves every cursor as it
    found it, so a second walk with the same arguments, run to exhaustion,
    yields the same sequence.  A walk abandoned after its first yield leaves
    the cursor of the walked group behind: the next walk goes on after the
    node that was yielded and does not start from the beginning.  In general
    a walk started while the cursor of the walked group stands after some of
    its children goes through the children after the cursor only. *)
Theorem walk_restarts objs self include_setting_func include_groups
    include_if_parent_skipped depth children iters fuel :
  unfold depth objs (NGroup self) = Some (TGroup self children) →
  cursors_clear iters (TGroup self children) →
  2 * tree_size (TGroup self children) ≤ fuel →
  (∃ events iters1,
     walk objs self include_setting_func include_groups
       include_if_parent_skipped fuel iters = Some (events, iters1)
     ∧ iters1 = iters
     ∧ walk objs self include_setting_func include_groups
         include_if_parent_skipped fuel iters1 = Some (events, iters1))
  ∧ (∀ s rest,
       children = TSetting s :: rest →
       include_setting_func (NSetting s) = true →
       ∃ iters1,
         walk_next objs self include_setting_func include_groups
           include_if_parent_skipped fuel [self] iters
         = Some (Some (NSetting s), [on_visit_setting s], ([self], iters1))
         ∧ walk objs self include_setting_func include_groups
             include_if_parent_skipped fuel iters
           = Some ([on_visit_setting s; yield (NSetting s)]
                   ++ concat (map (subtree_events include_setting_func
                                     include_groups include_if_parent_skipped) rest),
                   iters)
         ∧ walk objs self include_setting_func include_groups
             include_if_parent_skipped fuel iters1
           = Some (concat (map (subtree_events include_setting_func
                                  include_groups include_if_parent_skipped) rest),
                   iters))
  ∧ (∀ before after iters1,
       children = before ++ after →
       iters1 !! self = Some (length before) →
       (∀ id, id ∈ concat (map groups_of after) → iters1 !! id = None) →
       walk objs self include_setting_func include_groups
         include_if_parent_skipped fuel iters1
       = Some (concat (map (subtree_events include_setting_func
                              include_groups include_if_parent_skipped) after),
               delete self iters1)).
Proof.
  intros Hunfold Hclear Hfuel.
  pose proof (walk_tree_fuel objs self include_setting_func include_groups
                include_if_parent_skipped depth _ iters fuel Hunfold Hclear Hfuel)
    as Hwalk.
  assert (iters !! self = None) as Hnone by (apply Hclear; simpl; left).
  split_and!; [by eauto | |].
  - intros s rest -> Hinc.
    exists (<[self := 1]> iters). split_and!.
    + destruct depth as [|depth]; [done|].
      apply unfold_group in Hunfold as (children' & [= <-] & Hforall).
      destruct (od_values (settings_of objs self)) as [|n rest_nodes] eqn:Hvalues;
        inversion Hforall as [|? ? ? ? Hn Hrest]; subst.
      assert (n = NSetting s) as ->.
      { apply unfold_root in Hn. by simpl in Hn. }
      destruct fuel as [|fuel]; [simpl in Hfuel; lia|].
      by apply walk_next_first_setting with (rest := rest_nodes).
    + rewrite Hwalk. simpl. by rewrite Hinc.
    + rewrite (walk_resumes objs self include_setting_func include_groups
                 include_if_parent_skipped depth (TSetting s :: rest)
                 (<[self := 1]> iters) fuel [TSetting s] rest Hunfold Hfuel).
      * by rewrite delete_insert_eq, delete_id.
      * done.
      * by rewrite lookup_insert_eq.
      * intros id Hid. pose proof (unfold_acyclic _ _ _ _ Hunfold) as Hacyclic.
        rewrite lookup_insert_ne.
        -- apply Hclear. simpl. by right.
        -- intros <-. by apply Hacyclic.
  - intros before after iters1 Hchildren Hcursor Hafter.
    apply (walk_resumes objs self include_setting_func include_groups
             include_if_parent_skipped depth children iters1 fuel before after);
      [done..| |done].
    by rewrite Hcursor.
Qed.

Lemma main_unfold :
  unfold 2 sample_objs (NGroup 1)
  = Some (TGroup 1 [TSetting setting_a; TGroup 2 [TSetting setting_c];
                    TSetting setting_b]).
Proof. reflexivity. Qed.

Lemma cursors_clear_empty t : cursors_clear ∅ t.
Proof. intros g _. apply lookup_empty. Qed.

Lemma walk_restarts_witness :
  (∃ events iters1,
     walk sample_objs 1 (λ _, true) false false 10 ∅ = Some (events, iters1)
     ∧ iters1 = ∅
     ∧ walk sample_objs 1 (λ _, true) false false 10 iters1 = Some (events, iters1))
  ∧ (∃ iters1,
       walk_next sample_objs 1 (λ _, true) false false 10 [1] ∅
       = Some (Some (NSetting setting_a), [on_visit_setting setting_a], ([1], iters1))
       ∧ walk sample_objs 1 (λ _, true) false false 10 ∅
         = Some ([on_visit_setting setting_a; yield (NSetting setting_a);
                  on_visit_setting setting_c; yield (NSetting setting_c);
                  on_end_group_walk 2;
                  on_visit_setting setting_b; yield (NSetting setting_b)], ∅)
       ∧ walk sample_objs 1 (λ _, true) false false 10 iters1
         = Some ([on_visit_setting setting_c; yield (NSetting setting_c);
                  on_end_group_walk 2;
                  on_visit_setting setting_b; yield (NSetting setting_b)], ∅)).
Proof.
  destruct (walk_restarts sample_objs 1 (λ _, true) false false 2
              [TSetting setting_a; TGroup 2 [TSetting setting_c]; TSetting setting_b]
              ∅ 10 main_unfold (cursors_clear_empty _) ltac:(simpl; lia))
    as (Hrestart & Habandoned & _).
  split; [exact Hrestart|].
  exact (Habandoned setting_a _ eq_refl eq_refl).
Defined.

(** ** The tag-filtered walk *)

Lemma yielded_settings_app events events' :
  yielded_settings (events ++ events')
  = yielded_settings events ++ yielded_settings events'.
Proof. apply omap_app. Qed.

Lemma yielded_settings_concat {A} (f : A → list event) (g : A → list Setting)
    (l : list A) :
  Forall (λ x, yielded_settings (f x) = g x) l →
  yielded_settings (concat (map f l)) = concat (map g l).
Proof.
  induction 1 as [|x l Hx _ IH]; simpl; [done|].
  by rewrite yielded_settings_app, Hx, IH.
Qed.

(** The settings yielded by a walk that excludes a tag and yields no
    group. *)
Lemma yielded_untagged objs tag t :
  yielded_settings (subtree_events (not_tagged objs tag) false false t)
  = untagged_settings objs tag t.
Proof.
  induction t as [s|g children IH] using tree_induction; simpl.
  - by destruct (not_tagged objs tag (NSetting s)).
  - destruct (not_tagged objs tag (NGroup g)); [|done].
    rewrite yielded_settings_app. simpl. rewrite app_nil_r.
    by apply yielded_settings_concat.
Qed.

Lemma yielded_walked objs tag t :
  yielded_settings (walk_events (not_tagged objs tag) false false t)
  = walked_settings objs tag t.
Proof.
  destruct t as [s|g children]; simpl; [done|].
  apply yielded_settings_concat, Forall_forall. intros c _. apply yielded_untagged.
Qed.

(** A walk that yields no group yields settings only. *)
Lemma yields_settings include_setting_func include_if_parent_skipped t :
  yields (subtree_events include_setting_func false include_if_parent_skipped t)
  = NSetting
    <$> yielded_settings
          (subtree_events include_setting_func false include_if_parent_skipped t).
Proof.
  induction t as [s|g children IH] using tree_induction; simpl.
  - by destruct (include_setting_func (NSetting s)).
  - assert (yields (concat (map (subtree_events include_setting_func false
                                   include_if_parent_skipped) children)
                    ++ [on_end_group_walk g])
            = NSetting
              <$> yielded_settings
                    (concat (map (subtree_events include_setting_func false
                                    include_if_parent_skipped) children)
                     ++ [on_end_group_walk g])) as Hchildren.
    { rewrite yields_app, yielded_settings_app, fmap_app. simpl.
      rewrite !app_nil_r.
      induction IH as [|c children Hc _ IHc]; simpl; [done|].
      by rewrite yields_app, yielded_settings_app, fmap_app, Hc, IHc. }
    destruct (include_setting_func (NGroup g)); [done|].
    by destruct include_if_parent_skipped.
Qed.

Lemma yields_walked objs tag t :
  yields (walk_events (not_tagged objs tag) false false t)
  = NSetting <$> walked_settings objs tag t.
Proof.
  rewrite <-yielded_walked. destruct t as [s|g children]; simpl; [done|].
  induction children as [|c children IH]; simpl; [done|].
  by rewrite yields_app, yielded_settings_app, fmap_app, yields_settings, IH.
Qed.

(** A [for] loop over the tag-filtered walk of a tree ends, folds its body
    over the walked settings and leaves the cursors as it found them. *)
Lemma for_walk_tagged {A} (body : A → node → A) objs self tag depth t iters fuel
    acc :
  unfold depth objs (NGroup self) = Some t →
  cursors_clear iters t →
  2 * tree_size t < fuel →
  for_walk objs self (not_tagged objs tag) false false body fuel [self] iters acc
  = Some (fold_left body (NSetting <$> walked_settings objs tag t) acc, iters).
Proof.
  intros Hunfold Hclear Hfuel. rewrite <-yields_walked.
  apply for_walk_of_run with (n := 2 * tree_size t); [|done].
  by apply (walk_tree_fuel _ _ _ _ _ depth).
Qed.

Lemma kept_with_sources_from (walked acc : list Setting) :
  fold_left keep_with_sources (NSetting <$> walked) acc
  = acc ++ filter (λ s, setting_sources s ≠ []) walked.
Proof.
  revert acc. induction walked as [|s walked IH]; intros acc; simpl.
  - by rewrite app_nil_r.
  - rewrite IH, filter_cons.
    destruct (decide (setting_sources s ≠ [])); [by rewrite <-app_assoc | done].
Qed.

Lemma kept_with_sources (walked : list Setting) :
  fold_left keep_with_sources (NSetting <$> walked) []
  = filter (λ s, setting_sources s ≠ []) walked.
Proof. apply kept_with_sources_from. Qed.

Lemma invoked_events event_type (walked : list Setting) log :
  fold_left (invoke_event event_type) (NSetting <$> walked) log
  = log ++ map (λ s, (s, event_type)) walked.
Proof.
  revert log. induction walked as [|s walked IH]; intros log; simpl.
  - by rewrite app_nil_r.
  - by rewrite IH, <-app_assoc.
Qed.

(** A setting that is walked belongs to the tree and is without the tag. *)
Lemma untagged_settings_elem objs tag t s :
  s ∈ untagged_settings objs tag t → s ∈ tree_settings t ∧ tag ∉ s_tags s.
Proof.
  induction t as [s'|g children IH] using tree_induction; simpl.
  - unfold not_tagged. simpl. case_bool_decide; [|by intros ?%elem_of_nil].
    intros Hs. split; [done|]. by apply list_elem_of_singleton in Hs as ->.
  - destruct (not_tagged objs tag (NGroup g)); [|by intros ?%elem_of_nil].
    rewrite !elem_of_concat_map. intros (c & Hc & Hs).
    rewrite Forall_forall in IH. destruct (IH c Hc Hs) as [? ?]. eauto.
Qed.

Lemma walked_settings_elem objs tag t s :
  s ∈ walked_settings objs tag t → s ∈ tree_settings t ∧ tag ∉ s_tags s.
Proof.
  destruct t as [s'|g children]; simpl; [by intros ?%elem_of_nil|].
  rewrite !elem_of_concat_map. intros (c & Hc & Hs).
  destruct (untagged_settings_elem objs tag c s Hs) as [? ?]. eauto.
Qed.

(** ** Buckets *)

Section Buckets.
Variable explicit : option (list string).

Local Abbreviation with_key key l :=
  (filter (λ s, bucket_sources explicit s = key) l).






(** No setting selected: no bucket. *)
Lemma settings_per_sources_nil settings :
  Forall (λ s, bucket_sources explicit s = []) settings →
  settings_per_sources_of explicit settings = [].
Proof.
  unfold settings_per_sources_of.
  induction settings as [|setting settings IH] using rev_ind; [done|].
  intros [Hall Hlast]%Forall_app. apply Forall_inv in Hlast.
  rewrite fold_left_app. simpl. rewrite IH by done.
  unfold file_setting. by rewrite Hlast.
Qed.
End Buckets.

(** ** Load and save *)



(** The persistence scenario of the specification: setting [a] with two
    sources and setting [b] with one give two calls, each with its own
    setting; [c] is tagged and [d] has no sources. *)
Example load_sample :
  _load_save 15 sample_objs 0 "ignore_load" mixed_backend None ∅
  = Some ([(["session"; "persistent"], [setting_a]); (["session"], [setting_b])],
          (READ_FAIL, "could not read"), ∅).
Proof. reflexivity. Qed.

Example load_sample_explicit :
  _load_save 15 sample_objs 0 "ignore_save" mixed_backend (Some ["persistent"]) ∅
  = Some ([(["persistent"], [setting_a])], (READ_FAIL, "could not read"), ∅).
Proof. reflexivity. Qed.

(** C10.  When no setting of the tree is selected, that is, every setting
    is left out by the walk (it carries the ignore tag, or a group above it
    does), has no sources, or has none of the given sources, a load or save
    calls no backend and returns [SUCCESS] with the empty message. *)
Theorem load_save_nothing_selected objs self tag load_save_func explicit depth t
    iters fuel :
  unfold depth objs (NGroup self) = Some t →
  cursors_clear iters t →
  2 * tree_size t < fuel →
  (∀ s, s ∈ tree_settings t →
        s ∉ walked_settings objs tag t ∨ setting_sources s = []
        ∨ bucket_sources explicit s = []) →
  _load_save fuel objs self tag load_save_func explicit iters
  = Some ([], (SUCCESS, ""), iters).
Proof.
  intros Hunfold Hclear Hfuel Hnone. unfold _load_save.
  rewrite (for_walk_tagged _ _ _ _ _ _ _ _ _ Hunfold Hclear Hfuel). simpl.
  rewrite kept_with_sources. unfold _load_save_settings.
  rewrite settings_per_sources_nil; [done|].
  apply Forall_forall. intros s [Hsources Hs]%list_elem_of_filter.
  destruct (walked_settings_elem _ _ _ _ Hs) as [Htree Htag].
  destruct (Hnone s Htree) as [?|[?|?]]; done.
Qed.

(** A setting with the tag is left out by the walk. *)
Lemma tagged_not_walked objs tag t s :
  tag ∈ s_tags s → s ∉ walked_settings objs tag t.
Proof. intros Htag Hs. by apply walked_settings_elem in Hs as [_ ?]. Qed.

Lemma sample_nothing_selected s :
  s ∈ tree_settings sample_tree →
  s ∉ walked_settings sample_objs "ignore_load" sample_tree
  ∨ setting_sources s = []
  ∨ bucket_sources (Some ["file"]) s = [].
Proof.
  simpl tree_settings. rewrite !elem_of_cons.
  intros [->|[->|[->|[->|?%elem_of_nil]]]]; try done.
  - by right; right.
  - left. by apply tagged_not_walked.
  - by right; right.
  - by right; left.
Qed.

Lemma load_save_nothing_selected_witness :
  _load_save 15 sample_objs 0 "ignore_load" mixed_backend (Some ["file"]) ∅
  = Some ([], (SUCCESS, ""), ∅).
Proof.
  apply (load_save_nothing_selected sample_objs 0 "ignore_load" mixed_backend
           (Some ["file"]) 3 sample_tree ∅ 15 sample_unfold sample_clear).
  - simpl. lia.
  - exact sample_nothing_selected.
Defined.

(** [load] and [save] on a tree return what [_load_save] returns, between
    the two rounds of events, each invoked on every walked setting. *)
Lemma load_save_group_tree objs self tag load_save_func explicit before after
    depth t iters fuel :
  unfold depth objs (NGroup self) = Some t →
  cursors_clear iters t →
  2 * tree_size t < fuel →
  ∃ return_values,
    _load_save fuel objs self tag load_save_func explicit iters
    = Some (return_values, iters)
    ∧ _load_save_group fuel objs self tag load_save_func explicit before after iters
      = Some (map (λ s, (s, before)) (walked_settings objs tag t)
              ++ map (λ s, (s, after)) (walked_settings objs tag t),
              return_values, iters).
Proof.
  intros Hunfold Hclear Hfuel. unfold _load_save_group, _load_save.
  rewrite (for_walk_tagged (invoke_event before) _ _ _ _ _ _ _ _
             Hunfold Hclear Hfuel). simpl.
  rewrite (for_walk_tagged keep_with_sources _ _ _ _ _ _ _ _
             Hunfold Hclear Hfuel). simpl.
  rewrite (for_walk_tagged (invoke_event after) _ _ _ _ _ _ _ _
             Hunfold Hclear Hfuel). simpl.
  eexists. split; [done|]. by rewrite !invoked_events.
Qed.

Example load_sample_events :
  load mixed_backend 15 sample_objs 0 None ∅
  = Some ([(setting_a, "before-load-group"); (setting_b, "before-load-group");
           (setting_d, "before-load-group");
           (setting_a, "after-load-group"); (setting_b, "after-load-group");
           (setting_d, "after-load-group")],
          ([(["session"; "persistent"], [setting_a]); (["session"], [setting_b])],
           (READ_FAIL, "could not read")), ∅).
Proof. reflexivity. Qed.

(** ** GUI value application *)

Lemma string_app_assoc (s1 s2 s3 : string) :
  (s1 +:+ (s2 +:+ s3)) = ((s1 +:+ s2) +:+ s3).
Proof.
  induction s1 as [|a s1 IH]; [done|].
  change (String a (s1 +:+ (s2 +:+ s3)) = String a ((s1 +:+ s2) +:+ s3)).
  by rewrite IH.
Qed.

Lemma string_app_nil_r (s : string) : (s +:+ "") = s.
Proof.
  induction s as [|a s IH]; [done|].
  change (String a (s +:+ "") = String a s). by rewrite IH.
Qed.

(** A string of a list occurs in the list joined by a separator. *)
Lemma occurs_in_concat sep (l : list string) m :
  m ∈ l → occurs_in m (String.concat sep l).
Proof.
  induction l as [|x l IH]; [by intros ?%elem_of_nil|].
  intros [->|Hm]%elem_of_cons.
  - destruct l as [|y l].
    + exists "", "". simpl. by rewrite string_app_nil_r.
    + by exists "", (sep +:+ String.concat sep (y :: l)).
  - destruct l as [|y l]; [by apply elem_of_nil in Hm|].
    destruct (IH Hm) as (before & after & Heq).
    exists (x +:+ (sep +:+ before)), after.
    change (String.concat sep (x :: y :: l))
      with (x +:+ (sep +:+ String.concat sep (y :: l))).
    by rewrite Heq, <-!string_app_assoc.
Qed.

Section GuiFacts.
Variable update_setting_value : Setting → option (string * Setting).

Lemma collect_failures walked updated messages settings :
  fold_left (collect_failure update_setting_value) (NSetting <$> walked)
    (updated, (messages, settings))
  = (updated ++ walked,
     (messages ++ failure_messages update_setting_value walked,
      settings ++ omap (λ s, snd <$> update_setting_value s) walked)).
Proof.
  revert updated messages settings.
  induction walked as [|s walked IH]; intros updated messages settings; simpl.
  - by rewrite !app_nil_r.
  - unfold failure_messages. simpl.
    destruct (update_setting_value s) as [[message failed]|]; simpl.
    + by rewrite IH, <-!app_assoc.
    + by rewrite IH, <-!app_assoc.
Qed.

(** The error of a setting names the setting. *)
Hypothesis error_names_setting :
  ∀ s message failed, update_setting_value s = Some (message, failed) → failed = s.

Lemma failed_are_failing walked :
  omap (λ s, snd <$> update_setting_value s) walked
  = failing_settings update_setting_value walked.
Proof.
  unfold failing_settings.
  induction walked as [|s walked IH]; simpl; [done|].
  rewrite filter_cons.
  destruct (update_setting_value s) as [[message failed]|] eqn:Hs; simpl.
  - f_equal; [by apply (error_names_setting _ _ _ Hs) | apply IH].
  - apply IH.
Qed.

Lemma failure_message_each walked :
  Forall2 (λ s message, update_setting_value s = Some (message, s))
    (failing_settings update_setting_value walked)
    (failure_messages update_setting_value walked).
Proof.
  unfold failing_settings, failure_messages.
  induction walked as [|s walked IH]; simpl; [constructor|].
  rewrite filter_cons.
  destruct (update_setting_value s) as [[message failed]|] eqn:Hs; simpl.
  - constructor; [|done]. rewrite Hs. f_equal. f_equal.
    by apply (error_names_setting _ _ _ Hs).
  - done.
Qed.

Lemma raise_collected_outcome walked :
  raise_collected
    (failure_messages update_setting_value walked,
     failing_settings update_setting_value walked)
  = match failing_settings update_setting_value walked with
    | [] => Ok ()
    | failing =>
        Raise (SettingValueError
                 (String.concat (String "010"%char EmptyString)
                    (failure_messages update_setting_value walked))
                 (head failing)
                 (failure_messages update_setting_value walked) failing)
    end.
Proof.
  unfold raise_collected.
  pose proof (failure_message_each walked) as Heach. by destruct Heach.
Qed.
End GuiFacts.

(** C7.  Applying the GUI values on a tree ends; the update is called on
    every walked setting, whatever fails.  When no setting fails nothing is
    raised.  When some fail, one [SettingValueError] is raised after the
    walk: its settings are the failing settings in walk order, its messages
    are theirs, one each, in the same order, and its message is the messages
    joined by newlines, in which each of them occurs. *)
Theorem gui_failures_collected update_setting_value objs self depth t iters fuel :
  unfold depth objs (NGroup self) = Some t →
  cursors_clear iters t →
  2 * tree_size t < fuel →
  (∀ s message failed,
     update_setting_value s = Some (message, failed) → failed = s) →
  ∃ outcome,
    apply_gui_values_to_settings update_setting_value fuel objs self iters
    = Some (walked_settings objs "ignore_apply_gui_value_to_setting" t,
            outcome, iters)
    ∧ (failing_settings update_setting_value
         (walked_settings objs "ignore_apply_gui_value_to_setting" t) = [] →
       outcome = Ok ())
    ∧ (failing_settings update_setting_value
         (walked_settings objs "ignore_apply_gui_value_to_setting" t) ≠ [] →
       ∃ message messages failing,
         outcome = Raise (SettingValueError message (head failing) messages failing)
         ∧ failing
           = failing_settings update_setting_value
               (walked_settings objs "ignore_apply_gui_value_to_setting" t)
         ∧ Forall2 (λ s m, update_setting_value s = Some (m, s)) failing messages
         ∧ message = String.concat (String "010"%char EmptyString) messages
         ∧ ∀ m, m ∈ messages → occurs_in m message).
Proof.
  intros Hunfold Hclear Hfuel Hnames. unfold apply_gui_values_to_settings.
  rewrite (for_walk_tagged _ _ _ _ _ _ _ _ _ Hunfold Hclear Hfuel). simpl.
  rewrite collect_failures. cbn [fst snd app].
  rewrite (failed_are_failing _ Hnames), (raise_collected_outcome _ Hnames).
  set (walked := walked_settings objs "ignore_apply_gui_value_to_setting" t).
  eexists. split_and!; [done | by intros -> |].
  intros Hfailing.
  destruct (failing_settings update_setting_value walked) as [|s failing] eqn:Hf;
    [done|].
  do 3 eexists. split_and!; [done | done | | done |].
  - rewrite <-Hf. by apply failure_message_each.
  - intros m. apply occurs_in_concat.
Qed.

Lemma sample_update_names s message failed :
  sample_update s = Some (message, failed) → failed = s.
Proof.
  unfold sample_update. repeat case_decide; [| |done]; by intros [= _ <-].
Qed.

Lemma gui_failures_collected_witness :
  ∃ outcome,
    apply_gui_values_to_settings sample_update 15 sample_objs 0 ∅
    = Some (walked_settings sample_objs "ignore_apply_gui_value_to_setting" sample_tree,
            outcome, ∅)
    ∧ (failing_settings sample_update
         (walked_settings sample_objs "ignore_apply_gui_value_to_setting" sample_tree)
       = [] → outcome = Ok ())
    ∧ (failing_settings sample_update
         (walked_settings sample_objs "ignore_apply_gui_value_to_setting" sample_tree)
       ≠ [] →
       ∃ message messages failing,
         outcome = Raise (SettingValueError message (head failing) messages failing)
         ∧ failing
           = failing_settings sample_update
               (walked_settings sample_objs "ignore_apply_gui_value_to_setting"
                  sample_tree)
         ∧ Forall2 (λ s m, sample_update s = Some (m, s)) failing messages
         ∧ message = String.concat (String "010"%char EmptyString) messages
         ∧ ∀ m, m ∈ messages → occurs_in m message).
Proof.
  apply (gui_failures_collected sample_update sample_objs 0 3 sample_tree ∅ 15
           sample_unfold sample_clear).
  - simpl. lia.
  - exact sample_update_names.
Defined.

(** The scenario of the specification: [a] and [b] are invalid; one error is
    raised, with both messages and both settings. *)
Example apply_gui_sample :
  apply_gui_values_to_settings sample_update 15 sample_objs 0 ∅
  = Some ([setting_a; setting_c; setting_b; setting_d],
          Raise (SettingValueError
                   ("a is invalid" +:+ String "010"%char "b is invalid")
                   (Some setting_a) ["a is invalid"; "b is invalid"]
                   [setting_a; setting_b]),
          ∅).
Proof. reflexivity. Qed.

(** * Further properties *)

(** ** Deleting from an ordered dictionary *)

Lemma filter_all {A} (P : A → Prop) `{∀ x, Decision (P x)} (l : list A) :
  Forall P l → filter P l = l.
Proof.
  induction 1 as [|x l Hx _ IH]; [done|].
  by rewrite filter_cons, decide_True, IH.
Qed.

Section OdDelete.
Context {K V : Type} `{EqDecision K}.
Implicit Types (k : K) (v : V) (d : list (K * V)).

Lemma od_delete_filter k d :
  NoDup d.*1 → od_delete k d = filter (λ kv, kv.1 ≠ k) d.
Proof.
  induction d as [|[k' v'] d IH]; simpl; [done|].
  rewrite NoDup_cons. intros [Hk' Hnd]. rewrite filter_cons. simpl.
  destruct (decide (k = k')) as [->|Hne].
  - rewrite decide_False by (by intros ?). symmetry.
    apply filter_all, Forall_forall. intros [k1 v1] Hin. simpl. intros ->.
    apply Hk'. change k' with ((k', v1).1). by apply list_elem_of_fmap_2.
  - rewrite decide_True by (by intros ->). by rewrite IH.
Qed.

Lemma od_delete_set_absent k v d :
  od_get k d = None → od_delete k (od_set k v d) = d.
Proof.
  induction d as [|[k' v'] d IH]; simpl.
  - by rewrite decide_True.
  - destruct (decide (k = k')) as [->|Hne]; [done|]. simpl.
    rewrite decide_False by done. intros Hd. by rewrite IH.
Qed.

Lemma filter_keys_NoDup (P : K * V → Prop) `{∀ x, Decision (P x)} d :
  NoDup d.*1 → NoDup (filter P d).*1.
Proof.
  induction d as [|[k v] d IH]; simpl; [done|].
  rewrite NoDup_cons. intros [Hk Hnd]. rewrite filter_cons.
  destruct (decide (P (k, v))); [|by apply IH].
  simpl. apply NoDup_cons. split; [|by apply IH].
  intros ([k' v'] & Hk' & [_ Hin]%list_elem_of_filter)%list_elem_of_fmap.
  simpl in Hk'. subst k'. apply Hk.
  change k with ((k, v').1). by apply list_elem_of_fmap_2.
Qed.

Lemma od_get_filter_keys (P : K → Prop) `{∀ x, Decision (P x)} k d :
  od_get k (filter (λ kv, P kv.1) d) = if decide (P k) then od_get k d else None.
Proof.
  induction d as [|[k' v'] d IH]; simpl.
  - by destruct (decide (P k)).
  - rewrite filter_cons. simpl. destruct (decide (P k')) as [Hk'|Hk']; simpl.
    + destruct (decide (k = k')) as [->|Hne]; [by rewrite decide_True | done].
    + rewrite IH. destruct (decide (P k)) as [Hk|Hk]; [|done].
      rewrite decide_False; [done|]. by intros ->.
Qed.
End OdDelete.

(** ** Stores after an assignment or a deletion *)

Lemma settings_of_del_settings objs self name g :
  settings_of (del_settings objs self name) g
  = if decide (g = self) then od_delete name (settings_of objs self)
    else settings_of objs g.
Proof.
  unfold settings_of, del_settings. destruct (decide (g = self)) as [->|Hne].
  - rewrite lookup_alter_eq. by destruct (objs !! self).
  - by rewrite lookup_alter_ne.
Qed.

Lemma settings_of_set_settings_self objs self name child :
  is_Some (objs !! self) →
  settings_of (set_settings objs self name child) self
  = od_set name child (settings_of objs self).
Proof.
  intros [G HG]. rewrite settings_of_set_settings, decide_True by done.
  unfold settings_of. by rewrite HG.
Qed.

Lemma node_name_set_settings objs self name child n :
  node_name (set_settings objs self name child) n = node_name objs n.
Proof.
  destruct n as [s|g]; simpl; [done|]. unfold set_settings.
  destruct (decide (g = self)) as [->|Hne].
  - rewrite lookup_alter_eq. by destruct (objs !! self).
  - by rewrite lookup_alter_ne.
Qed.

Lemma set_settings_is_Some objs self name child g :
  is_Some (set_settings objs self name child !! g) ↔ is_Some (objs !! g).
Proof.
  unfold set_settings. destruct (decide (g = self)) as [->|Hne].
  - rewrite lookup_alter_eq. by rewrite fmap_is_Some.
  - by rewrite lookup_alter_ne.
Qed.

Lemma set_settings_other objs self name child g :
  g ≠ self → set_settings objs self name child !! g = objs !! g.
Proof. intros Hne. unfold set_settings. by rewrite lookup_alter_ne. Qed.

Lemma del_set_settings objs self name child :
  od_get name (settings_of objs self) = None →
  del_settings (set_settings objs self name child) self name = objs.
Proof.
  intros Habsent. apply map_eq. intros g. unfold del_settings, set_settings.
  destruct (decide (g = self)) as [->|Hne].
  - rewrite !lookup_alter_eq. unfold settings_of in Habsent.
    destruct (objs !! self) as [[name' tags attrs settings]|]; simpl in *; [|done].
    by rewrite od_delete_set_absent.
  - by rewrite !lookup_alter_ne.
Qed.

(** ** [add]: order, composition, lookup *)

Section AddMore.
Variable construct : nat → list (string * attribute) → option Setting.
Variable getargspec : nat → list string * option (list attribute).

Local Abbreviation add' := (add construct getargspec).

(** [add] on a list put together from two lists: the second list is added
    after the first, unless the first raises; what the first list added
    stays. *)
Lemma add_app objs self items items' :
  add' objs self (items ++ items')
  = match add' objs self items with
    | (objs', None) => add' objs' self items'
    | (objs', Some e) => (objs', Some e)
    end.
Proof.
  revert objs. induction items as [|item items IH]; intros objs; simpl; [done|].
  destruct (match item with
            | item_node setting => _add_setting objs self setting
            | item_dict setting_data =>
                _create_setting construct getargspec objs self
                  setting_data
            end) as [objs1|e]; [apply IH | done].
Qed.

Lemma add_nodes_Ok objs self nodes :
  is_Some (objs !! self) →
  NoDup (node_name objs <$> nodes) →
  (∀ n, n ∈ nodes → od_get (node_name objs n) (settings_of objs self) = None) →
  NGroup self ∉ nodes →
  ∃ objs',
    add' objs self (item_node <$> nodes) = (objs', None)
    ∧ settings_of objs' self
      = settings_of objs self ++ ((λ n, (node_name objs n, n)) <$> nodes)
    ∧ (∀ g, g ≠ self → objs' !! g = objs !! g)
    ∧ (∀ n, node_name objs' n = node_name objs n).
Proof.
  revert objs. induction nodes as [|n nodes IH]; intros objs Hself Hnames Hfresh Hnot.
  - exists objs. simpl. by rewrite app_nil_r.
  - rewrite fmap_cons in Hnames. apply NoDup_cons in Hnames as [Hn Hnames].
    apply not_elem_of_cons in Hnot as [Hne Hnot].
    assert (od_get (node_name objs n) (settings_of objs self) = None) as Habsent
      by (apply Hfresh; left).
    set (objs1 := set_settings objs self (node_name objs n) n).
    assert (_add_setting objs self n = Ok objs1) as Hadd.
    { unfold _add_setting.
      rewrite (proj2 (od_contains_false _ _) Habsent).
      by rewrite decide_False. }
    assert (∀ m, node_name objs1 m = node_name objs m) as Hsame
      by (intros m; apply node_name_set_settings).
    destruct (IH objs1) as (objs' & Hadd' & Hsettings & Hframe & Hnames').
    + by apply set_settings_is_Some.
    + erewrite list_fmap_ext; [exact Hnames|]. intros ? m _. apply Hsame.
    + intros m Hm. rewrite Hsame. unfold objs1.
      rewrite settings_of_set_settings_self by done.
      rewrite od_get_set_ne; [apply Hfresh; by right|].
      intros Heq. apply Hn. rewrite Heq. by apply list_elem_of_fmap_2.
    + done.
    + exists objs'. simpl. rewrite Hadd. split_and!.
      * done.
      * rewrite Hsettings. unfold objs1.
        rewrite settings_of_set_settings_self by done.
        rewrite od_set_absent by done. rewrite <-app_assoc. simpl.
        do 2 f_equal. apply list_fmap_ext. intros ? m _. by rewrite Hsame.
      * intros g Hg. rewrite Hframe by done. by apply set_settings_other.
      * intros m. by rewrite Hnames', Hsame.
Qed.
End AddMore.

Section AddTheorems.
Variable construct : nat → list (string * attribute) → option Setting.
Variable getargspec : nat → list string * option (list attribute).

Lemma add_nodes_inv objs self nodes objs' :
  is_Some (objs !! self) →
  add construct getargspec objs self (item_node <$> nodes)
  = (objs', None) →
  NoDup (node_name objs <$> nodes)
  ∧ (∀ n, n ∈ nodes → od_get (node_name objs n) (settings_of objs self) = None)
  ∧ NGroup self ∉ nodes.
Proof.
  revert objs. induction nodes as [|n nodes IH]; intros objs Hself Hadd.
  - split_and!; [constructor | by intros ? ?%elem_of_nil | apply not_elem_of_nil].
  - simpl in Hadd.
    destruct (_add_setting objs self n) as [objs1|e] eqn:Hn; [|done].
    unfold _add_setting in Hn.
    destruct (od_contains _ _) eqn:Hcontains; [done|].
    destruct (decide (n = NGroup self)) as [|Hne]; [done|].
    injection Hn as <-. apply od_contains_false in Hcontains.
    set (objs1 := set_settings objs self (node_name objs n) n) in *.
    assert (∀ m, node_name objs1 m = node_name objs m) as Hsame
      by (intros m; apply node_name_set_settings).
    destruct (IH objs1) as (Hnames & Hfresh & Hnot);
      [by apply set_settings_is_Some | done |].
    assert (∀ m, m ∈ nodes →
                 node_name objs m ≠ node_name objs n
                 ∧ od_get (node_name objs m) (settings_of objs self) = None)
      as Hrest.
    { intros m Hm. specialize (Hfresh m Hm). rewrite Hsame in Hfresh.
      unfold objs1 in Hfresh.
      rewrite settings_of_set_settings_self, od_get_set in Hfresh by done.
      destruct (decide (node_name objs n = node_name objs m)); [done|].
      split; [congruence | done]. }
    split_and!.
    + rewrite fmap_cons. apply NoDup_cons. split.
      * intros (m & Heq & Hm)%list_elem_of_fmap.
        destruct (Hrest m Hm) as [Hne' _]. congruence.
      * erewrite list_fmap_ext; [exact Hnames|]. intros ? m _.
        by rewrite Hsame.
    + intros m [->|Hm]%elem_of_cons; [done|]. by apply Hrest.
    + apply not_elem_of_cons. split; [congruence | done].
Qed.

(** X1.  Adding nodes to a group succeeds exactly when their names differ
    from each other and from the names of the children, and none of them is
    the group itself; the nodes are then appended to the children in the
    order of the list, and the other groups are as before. *)
Theorem add_nodes objs self nodes :
  is_Some (objs !! self) →
  ((∃ objs', add construct getargspec objs self (item_node <$> nodes)
             = (objs', None))
   ↔ NoDup (node_name objs <$> nodes)
     ∧ (∀ n, n ∈ nodes → od_get (node_name objs n) (settings_of objs self) = None)
     ∧ NGroup self ∉ nodes)
  ∧ (∀ objs',
       add construct getargspec objs self (item_node <$> nodes)
       = (objs', None) →
       __iter__ objs' self = __iter__ objs self ++ nodes
       ∧ __len__ objs' self = __len__ objs self + length nodes
       ∧ ∀ g, g ≠ self → objs' !! g = objs !! g).
Proof.
  intros Hself. split.
  - split.
    + intros [objs' Hadd]. by eapply add_nodes_inv.
    + intros (Hnames & Hfresh & Hnot).
      destruct (add_nodes_Ok construct getargspec objs self nodes
                  Hself Hnames Hfresh Hnot) as (objs' & Hadd & _). eauto.
  - intros objs' Hadd.
    destruct (add_nodes_inv _ _ _ _ Hself Hadd) as (Hnames & Hfresh & Hnot).
    destruct (add_nodes_Ok construct getargspec objs self nodes
                Hself Hnames Hfresh Hnot) as (objs'' & Hadd' & Hsettings & Hframe & _).
    rewrite Hadd in Hadd'. injection Hadd' as <-.
    unfold __iter__, __len__, od_values. rewrite Hsettings. split_and!.
    + rewrite fmap_app. f_equal.
      clear. induction nodes as [|n nodes IH]; [done|].
      rewrite !fmap_cons. simpl. by rewrite IH.
    + by rewrite length_app, length_fmap.
    + done.
Qed.

(** X2.  [add] does not roll back: when an item raises, the items before it
    stay added and the items after it are not looked at. *)
Theorem add_no_rollback objs self items item rest objs1 e :
  add construct getargspec objs self items = (objs1, None) →
  add construct getargspec objs1 self [item] = (objs1, Some e) →
  add construct getargspec objs self (items ++ item :: rest)
  = (objs1, Some e).
Proof.
  intros Hitems Hitem. rewrite add_app, Hitems.
  change (item :: rest) with ([item] ++ rest). by rewrite add_app, Hitem.
Qed.

(** X3.  A node that was added is found under its name, when the name holds
    no separator: [group[name]] returns the node and [name in group] is
    true. *)
Theorem added_node_found objs self setting objs' :
  is_Some (objs !! self) →
  contains_separator (node_name objs setting) = false →
  _add_setting objs self setting = Ok objs' →
  __getitem__ objs' self (node_name objs setting) = Ok setting
  ∧ __contains__ objs' self (node_name objs setting) = Ok true.
Proof.
  intros Hself Hsep Hadd. unfold _add_setting in Hadd.
  destruct (od_contains _ _); [done|].
  destruct (decide (setting = NGroup self)); [done|]. injection Hadd as <-.
  unfold __getitem__, __contains__, od_contains. rewrite Hsep.
  rewrite settings_of_set_settings_self, od_get_set_eq by done.
  split; [done|]. by rewrite bool_decide_eq_true_2 by eauto.
Qed.
End AddTheorems.

Lemma sample_advanced_exists : is_Some (sample_objs !! 2).
Proof. by eexists. Qed.

Lemma add_nodes_witness :
  ((∃ objs', add sample_construct sample_getargspec sample_objs 2
               (item_node <$> [NSetting setting_a; NSetting setting_b])
             = (objs', None))
   ↔ NoDup (node_name sample_objs <$> [NSetting setting_a; NSetting setting_b])
     ∧ (∀ n, n ∈ [NSetting setting_a; NSetting setting_b] →
             od_get (node_name sample_objs n) (settings_of sample_objs 2) = None)
     ∧ NGroup 2 ∉ [NSetting setting_a; NSetting setting_b])
  ∧ (∀ objs',
       add sample_construct sample_getargspec sample_objs 2
         (item_node <$> [NSetting setting_a; NSetting setting_b]) = (objs', None) →
       __iter__ objs' 2
       = __iter__ sample_objs 2 ++ [NSetting setting_a; NSetting setting_b]
       ∧ __len__ objs' 2 = __len__ sample_objs 2 + 2
       ∧ ∀ g, g ≠ 2 → objs' !! g = sample_objs !! g).
Proof.
  exact (add_nodes sample_construct sample_getargspec sample_objs 2
           [NSetting setting_a; NSetting setting_b] sample_advanced_exists).
Defined.

Lemma add_no_rollback_witness :
  add sample_construct sample_getargspec sample_objs 2
    ([item_node (NSetting setting_a)] ++ item_node (NGroup 2)
     :: [item_node (NSetting setting_b)])
  = (set_settings sample_objs 2 "a" (NSetting setting_a),
     Some (ValueError child_of_itself)).
Proof.
  apply (add_no_rollback sample_construct sample_getargspec sample_objs 2
           [item_node (NSetting setting_a)] (item_node (NGroup 2))
           [item_node (NSetting setting_b)]); reflexivity.
Defined.

Lemma added_node_found_witness :
  __getitem__ (set_settings sample_objs 2 "a" (NSetting setting_a)) 2 "a"
  = Ok (NSetting setting_a)
  ∧ __contains__ (set_settings sample_objs 2 "a" (NSetting setting_a)) 2 "a"
    = Ok true.
Proof.
  apply (added_node_found sample_objs 2 (NSetting setting_a));
    [exact sample_advanced_exists | reflexivity | reflexivity].
Defined.

(** ** Settings created from descriptions *)

Lemma merge_defaults_get (defaults setting_data_copy : list (string * attribute)) k :
  od_get k
    (fold_left (λ d kv, if od_contains kv.1 d then d else od_set kv.1 kv.2 d)
       defaults setting_data_copy)
  = match od_get k setting_data_copy with
    | Some v => Some v
    | None => od_get k defaults
    end.
Proof.
  revert setting_data_copy.
  induction defaults as [|[k1 v1] defaults IH]; intros copy; simpl.
  - by destruct (od_get k copy).
  - rewrite IH. destruct (od_contains k1 copy) eqn:Hc.
    + apply od_contains_true in Hc as [v Hv].
      destruct (od_get k copy) eqn:Hk; [done|].
      destruct (decide (k = k1)) as [->|Hne]; [congruence | done].
    + apply od_contains_false in Hc. rewrite od_get_set.
      destruct (decide (k1 = k)) as [->|Hne].
      * by rewrite Hc, decide_True.
      * rewrite (decide_False (P := k = k1)) by congruence. done.
Qed.

Lemma od_get_filter_eq {V} (k : string) (d : list (string * V)) :
  od_get k (filter (λ kv, kv.1 ≠ k) d) = None.
Proof.
  induction d as [|[k1 v1] d IH]; [done|].
  rewrite filter_cons. simpl. destruct (decide (k1 ≠ k)) as [Hne|_]; [|done].
  simpl. by rewrite decide_False by congruence.
Qed.

(** X4.  A description that is accepted gives a setting that is constructed
    from the attributes of the description other than its type, completed by
    the defaults of the group for the attributes that the description does
    not give; an attribute of the description wins over a default.  The
    setting is appended to the children and is found under the name of the
    description, which holds no separator. *)
Theorem created_setting construct getargspec objs self setting_data
    objs' :
  is_Some (objs !! self) →
  _create_setting construct getargspec objs self setting_data
  = Ok objs' →
  ∃ name setting_type arguments setting,
    od_get "name" setting_data = Some (AStr name)
    ∧ od_get "type" setting_data = Some (AType setting_type)
    ∧ contains_separator name = false
    ∧ construct setting_type arguments = Some setting
    ∧ (∀ k, od_get k arguments
            = constructor_argument
                (from_option setting_attributes [] (objs !! self)) setting_data k)
    ∧ __getitem__ objs' self name = Ok (NSetting setting)
    ∧ __iter__ objs' self = __iter__ objs self ++ [NSetting setting].
Proof.
  intros Hself. unfold _create_setting, _instantiate_setting.
  destruct (od_get "type" setting_data) as [ty|] eqn:Hty; [|done].
  rewrite od_get_filter_ne by done.
  destruct (od_get "name" setting_data) as [[name| | |]|] eqn:Hname;
    try done; try (by destruct (bool_decide _)).
  destruct (contains_separator name) eqn:Hsep; [done|].
  destruct (od_contains name (settings_of objs self)) eqn:Hc; [done|].
  destruct ty as [|ty| |]; try done.
  set (arguments := fold_left _ _ _).
  destruct (construct ty arguments) as [setting|] eqn:Hconstruct.
  - intros [= <-]. exists name, ty, arguments, setting.
    apply od_contains_false in Hc.
    split_and!; [done..| | |].
    + intros k. unfold arguments, constructor_argument.
      rewrite merge_defaults_get.
      destruct (decide (k = "type")) as [->|Hne].
      * by rewrite od_get_filter_eq.
      * by rewrite od_get_filter_ne.
    + unfold __getitem__. rewrite Hsep.
      by rewrite settings_of_set_settings_self, od_get_set_eq.
    + unfold __iter__, od_values.
      rewrite settings_of_set_settings_self, od_set_absent by done.
      by rewrite fmap_app.
  - by destruct (_get_missing_required_arguments _ _ _) as [[|? ?]|].
Qed.

Lemma created_setting_witness :
  ∃ name setting_type arguments setting,
    od_get "name" [("type", AType 7); ("name", AStr "e")] = Some (AStr name)
    ∧ od_get "type" [("type", AType 7); ("name", AStr "e")]
      = Some (AType setting_type)
    ∧ contains_separator name = false
    ∧ sample_construct setting_type arguments = Some setting
    ∧ (∀ k, od_get k arguments
            = constructor_argument
                (from_option setting_attributes [] (sample_objs !! 2))
                [("type", AType 7); ("name", AStr "e")] k)
    ∧ __getitem__
        (set_settings sample_objs 2 "e" (NSetting (mkSetting 7 "e" ∅ []))) 2 name
      = Ok (NSetting setting)
    ∧ __iter__
        (set_settings sample_objs 2 "e" (NSetting (mkSetting 7 "e" ∅ []))) 2
      = __iter__ sample_objs 2 ++ [NSetting setting].
Proof.
  apply (created_setting sample_construct sample_getargspec sample_objs 2
           [("type", AType 7); ("name", AStr "e")]);
    [exact sample_advanced_exists | reflexivity].
Defined.

(** ** [remove] *)

Lemma remove_app objs self names names' :
  remove objs self (names ++ names')
  = match remove objs self names with
    | (objs', None) => remove objs' self names'
    | (objs', Some e) => (objs', Some e)
    end.
Proof.
  revert objs. induction names as [|name names IH]; intros objs; simpl; [done|].
  destruct (od_contains name (settings_of objs self)); [apply IH | done].
Qed.

Lemma del_settings_other objs self name g :
  g ≠ self → del_settings objs self name !! g = objs !! g.
Proof. intros Hne. unfold del_settings. by rewrite lookup_alter_ne. Qed.

(** Names that are all children, each named once, are removed, and the
    other children stay in their order. *)
Lemma remove_found objs self names :
  NoDup (settings_of objs self).*1 →
  NoDup names →
  (∀ k, k ∈ names → is_Some (od_get k (settings_of objs self))) →
  ∃ objs',
    remove objs self names = (objs', None)
    ∧ settings_of objs' self
      = filter (λ kv, kv.1 ∉ names) (settings_of objs self)
    ∧ (∀ g, g ≠ self → objs' !! g = objs !! g).
Proof.
  revert objs. induction names as [|k names IH]; intros objs Hkeys Hnames Hfound.
  - exists objs. split_and!; [done | | done].
    symmetry. apply filter_all, Forall_forall. intros kv _. apply not_elem_of_nil.
  - apply NoDup_cons in Hnames as [Hk Hnames]. simpl.
    rewrite (proj2 (od_contains_true _ _)) by (apply Hfound; left).
    set (objs1 := del_settings objs self k).
    assert (settings_of objs1 self
            = filter (λ kv, kv.1 ≠ k) (settings_of objs self)) as Hsettings1.
    { unfold objs1. rewrite settings_of_del_settings, decide_True by done.
      by apply od_delete_filter. }
    destruct (IH objs1) as (objs' & Hremove & Hsettings & Hframe).
    + rewrite Hsettings1. by apply filter_keys_NoDup.
    + done.
    + intros k' Hk'. rewrite Hsettings1.
      rewrite od_get_filter_ne by (by intros ->). apply Hfound. by right.
    + exists objs'. split_and!; [done | |].
      * rewrite Hsettings, Hsettings1, list_filter_filter.
        apply list_filter_iff. intros [k' v']. simpl.
        rewrite not_elem_of_cons. tauto.
      * intros g Hg. rewrite Hframe by done. by apply del_settings_other.
Qed.

(** X5.  Removing a child by name right after it was added gives back the
    store as it was before, children and order included. *)
Theorem add_then_remove construct getargspec objs self item name
    objs' :
  is_Some (objs !! self) →
  item_name objs item = Some name →
  add construct getargspec objs self [item] = (objs', None) →
  remove objs' self [name] = (objs, None).
Proof.
  intros Hself Hname Hadd. simpl in Hadd.
  assert (od_get name (settings_of objs self) = None
          ∧ ∃ child, objs' = set_settings objs self name child)
    as [Habsent [child ->]].
  { destruct item as [setting|setting_data]; simpl in Hname.
    - injection Hname as <-. unfold _add_setting in Hadd.
      destruct (od_contains _ _) eqn:Hc; [done|].
      destruct (decide (setting = NGroup self)); [done|]. injection Hadd as <-.
      apply od_contains_false in Hc. eauto.
    - unfold _create_setting, _instantiate_setting in Hadd.
      destruct (od_get "type" setting_data) as [ty|]; [|done].
      rewrite od_get_filter_ne in Hadd by done.
      destruct (od_get "name" setting_data) as [[name'| | |]|];
        try done; try (by destruct (bool_decide _)).
      injection Hname as ->.
      destruct (contains_separator name); [done|].
      destruct (od_contains name (settings_of objs self)) eqn:Hc; [done|].
      apply od_contains_false in Hc.
      destruct ty as [|ty| |]; try done.
      destruct (construct ty _) as [setting|].
      + injection Hadd as <-. eauto.
      + by destruct (_get_missing_required_arguments _ _ _) as [[|? ?]|]. }
  simpl. unfold od_contains.
  rewrite settings_of_set_settings_self, od_get_set_eq by done.
  rewrite bool_decide_eq_true_2 by eauto. by rewrite del_set_settings.
Qed.

Lemma add_then_remove_witness :
  remove (set_settings sample_objs 2 "a" (NSetting setting_a)) 2 ["a"]
  = (sample_objs, None).
Proof.
  apply (add_then_remove sample_construct sample_getargspec sample_objs 2
           (item_node (NSetting setting_a)) "a");
    [exact sample_advanced_exists | reflexivity | reflexivity].
Defined.

(** X6.  [remove] takes the names one after the other.  The names before
    the first one that is not, or no longer, a child are removed, and the
    other children stay in their order; at that name [KeyError] is raised
    and nothing is rolled back; without such a name all are removed. *)
Theorem remove_up_to_missing objs self names :
  NoDup (settings_of objs self).*1 →
  (∃ objs',
     remove objs self names = (objs', None)
     ∧ NoDup names
     ∧ (∀ k, k ∈ names → is_Some (od_get k (settings_of objs self)))
     ∧ settings_of objs' self = filter (λ kv, kv.1 ∉ names) (settings_of objs self)
     ∧ ∀ g, g ≠ self → objs' !! g = objs !! g)
  ∨ (∃ objs' removed missing rest,
       remove objs self names = (objs', Some (setting_not_found missing))
       ∧ names = removed ++ missing :: rest
       ∧ NoDup removed
       ∧ (∀ k, k ∈ removed → is_Some (od_get k (settings_of objs self)))
       ∧ (od_get missing (settings_of objs self) = None ∨ missing ∈ removed)
       ∧ settings_of objs' self
         = filter (λ kv, kv.1 ∉ removed) (settings_of objs self)
       ∧ ∀ g, g ≠ self → objs' !! g = objs !! g).
Proof.
  intros Hkeys.
  induction names as [|k names IH] using rev_ind.
  - left. exists objs. split_and!; [done | constructor | | | done].
    + by intros ? ?%elem_of_nil.
    + symmetry. apply filter_all, Forall_forall. intros kv _. apply not_elem_of_nil.
  - rewrite remove_app.
    destruct IH as [(objs1 & Hremove & Hnames & Hfound & Hsettings & Hframe)
                   |(objs1 & removed & missing & rest & Hremove & -> & Hrest)].
    + rewrite Hremove. simpl.
      assert (od_contains k (settings_of objs1 self)
              = bool_decide ((k ∉ names)
                             ∧ is_Some (od_get k (settings_of objs self)))) as ->.
      { unfold od_contains. rewrite Hsettings.
        assert (od_get k (filter (λ kv : string * node, kv.1 ∉ names)
                            (settings_of objs self))
                = if decide (k ∉ names) then od_get k (settings_of objs self)
                  else None) as ->
          by exact (od_get_filter_keys (λ x, x ∉ names) k _).
        apply bool_decide_ext. destruct (decide (k ∉ names)); [tauto|].
        split; [by intros [? ?] | tauto]. }
      destruct (decide ((k ∉ names) ∧ is_Some (od_get k (settings_of objs self))))
        as [[Hk Hchild]|Hno].
      * rewrite bool_decide_eq_true_2 by done. left.
        assert (NoDup (names ++ [k])) as Hnames'.
        { apply NoDup_app. split_and!; [done | | apply NoDup_singleton].
          by intros ? ? ->%list_elem_of_singleton. }
        assert (∀ k', k' ∈ names ++ [k]
                → is_Some (od_get k' (settings_of objs self))) as Hfound'.
        { intros k' [?| ->%list_elem_of_singleton]%elem_of_app; eauto. }
        destruct (remove_found objs self (names ++ [k]))
          as (objs' & Hremove' & Hsettings' & Hframe'); [done..|].
        rewrite remove_app, Hremove in Hremove'. simpl in Hremove'.
        unfold od_contains in Hremove'. rewrite bool_decide_eq_true_2 in Hremove'.
        -- injection Hremove' as <-. eexists. split_and!; [done..].
        -- rewrite Hsettings.
           assert (od_get k (filter (λ kv : string * node, kv.1 ∉ names)
                               (settings_of objs self))
                   = if decide (k ∉ names) then od_get k (settings_of objs self)
                     else None) as ->
             by exact (od_get_filter_keys (λ x, x ∉ names) k _).
           by rewrite decide_True.
      * rewrite bool_decide_eq_false_2 by done. right.
        exists objs1, names, k, []. split_and!; [done..| | done | done].
        destruct (decide (k ∈ names)); [by right | left].
        destruct (od_get k (settings_of objs self)) eqn:Hchild; [|done].
        exfalso. apply Hno. eauto.
    + rewrite Hremove. right.
      exists objs1, removed, missing, (rest ++ [k]).
      split_and!; [done | by rewrite <-app_assoc | apply Hrest..].
Qed.

Lemma sample_main_keys : NoDup (settings_of sample_objs 1).*1.
Proof. apply (bool_decide_unpack _). vm_compute. exact I. Qed.

Lemma remove_up_to_missing_witness :
  (∃ objs',
     remove sample_objs 1 ["b"; "zz"; "a"] = (objs', None)
     ∧ NoDup ["b"; "zz"; "a"]
     ∧ (∀ k, k ∈ ["b"; "zz"; "a"]
             → is_Some (od_get k (settings_of sample_objs 1)))
     ∧ settings_of objs' 1
       = filter (λ kv, kv.1 ∉ ["b"; "zz"; "a"]) (settings_of sample_objs 1)
     ∧ ∀ g, g ≠ 1 → objs' !! g = sample_objs !! g)
  ∨ (∃ objs' removed missing rest,
       remove sample_objs 1 ["b"; "zz"; "a"]
       = (objs', Some (setting_not_found missing))
       ∧ ["b"; "zz"; "a"] = removed ++ missing :: rest
       ∧ NoDup removed
       ∧ (∀ k, k ∈ removed → is_Some (od_get k (settings_of sample_objs 1)))
       ∧ (od_get missing (settings_of sample_objs 1) = None ∨ missing ∈ removed)
       ∧ settings_of objs' 1
         = filter (λ kv, kv.1 ∉ removed) (settings_of sample_objs 1)
       ∧ ∀ g, g ≠ 1 → objs' !! g = sample_objs !! g).
Proof.
  apply (remove_up_to_missing sample_objs 1 ["b"; "zz"; "a"]).
  exact sample_main_keys.
Defined.

(** ** Names of attributes *)

Lemma split_on_cases sep s :
  (contains_char sep s = false ∧ split_on sep s = [s])
  ∨ (∃ n s', s = (n +:+ String sep s') ∧ contains_char sep n = false
             ∧ split_on sep s = n :: split_on sep s').
Proof.
  induction s as [|c s IH]; simpl; [by left|].
  destruct (Ascii.eqb c sep) eqn:Hc.
  - apply Ascii.eqb_eq in Hc as ->. right. by exists "", s.
  - destruct IH as [[Hno ->]|(n & s' & -> & Hno & ->)]; [by left|].
    right. exists (String c n), s'. simpl. by rewrite Hc.
Qed.

Lemma split_on_not_nil sep s : split_on sep s ≠ [].
Proof.
  destruct (split_on_cases sep s) as [[_ ->]|(n & s' & _ & _ & ->)]; done.
Qed.

Lemma split_on_none sep s : contains_char sep s = false → split_on sep s = [s].
Proof.
  induction s as [|c s IH]; simpl; [done|].
  destruct (Ascii.eqb c sep); [done|]. intros Hs. by rewrite IH.
Qed.

Lemma split_on_first sep n s :
  contains_char sep n = false →
  split_on sep (n +:+ String sep s) = n :: split_on sep s.
Proof.
  induction n as [|c n IH]; simpl.
  - intros _. by rewrite Ascii.eqb_refl.
  - destruct (Ascii.eqb c sep); [done|]. intros Hn. by rewrite IH.
Qed.

Lemma contains_char_app sep n s :
  contains_char sep (n +:+ String sep s) = true.
Proof.
  induction n as [|c n IH]; simpl.
  - by rewrite Ascii.eqb_refl.
  - by destruct (Ascii.eqb c sep).
Qed.

(** X7.  A key without a dot names the attribute [value] of the node at
    that path; a key with one dot names the attribute after the dot of the
    node at the path before it, either part possibly empty; a key with two
    dots or more is refused with [ValueError]. *)
Theorem setting_and_attribute_names setting_name_and_attribute :
  (∀ setting_name attribute_name,
     _get_setting_and_attribute_names setting_name_and_attribute
     = Returns (setting_name, attribute_name)
     ↔ (contains_char "." setting_name_and_attribute = false
        ∧ setting_name = setting_name_and_attribute ∧ attribute_name = "value")
       ∨ (setting_name_and_attribute = (setting_name +:+ "." +:+ attribute_name)
          ∧ contains_char "." setting_name = false
          ∧ contains_char "." attribute_name = false))
  ∧ ((∃ names, _get_setting_and_attribute_names setting_name_and_attribute
               = Returns names)
     ∨ (_get_setting_and_attribute_names setting_name_and_attribute
        = Raises (more_than_one_attribute_separator setting_name_and_attribute)
        ∧ ∃ s1 s2 s3, setting_name_and_attribute
                      = (s1 +:+ "." +:+ s2 +:+ "." +:+ s3))).
Proof.
  unfold _get_setting_and_attribute_names, SETTING_ATTRIBUTE_SEPARATOR.
  destruct (split_on_cases "." setting_name_and_attribute)
    as [[Hno ->]|(n & s' & -> & Hn & ->)].
  - split; [|left; eauto]. intros sn an. split.
    + intros [= <- <-]. by left.
    + intros [(_ & -> & ->)|(-> & _ & _)]; [done|].
      change (sn +:+ "." +:+ an) with (sn +:+ String "." an) in Hno.
      by rewrite contains_char_app in Hno.
  - destruct (split_on_cases "." s') as [[Hno ->]|(n' & s'' & -> & Hn' & ->)].
    + split; [|left; eauto]. intros sn an. split.
      * intros [= <- <-]. by right.
      * intros [(Hc & _ & _)|(Heq & Hsn & Han)].
        -- by rewrite contains_char_app in Hc.
        -- assert (n :: [s'] = sn :: [an]) as [= -> ->]; [|done].
           rewrite <-(split_on_none "." s'), <-(split_on_none "." an) by done.
           rewrite <-!split_on_first by done. by rewrite Heq.
    + destruct (split_on "." s'') as [|w ws] eqn:Hs'';
        [by apply split_on_not_nil in Hs''|].
      split; [|right; split; [done | by exists n, n', s'']].
      intros sn an. split; [done|].
      intros [(Hc & _ & _)|(Heq & Hsn & Han)].
      * by rewrite contains_char_app in Hc.
      * exfalso.
        assert (n :: n' :: w :: ws = sn :: [an]) as Habs; [|discriminate].
        rewrite <-(split_on_none "." an), <-Hs'' by done.
        rewrite <-!split_on_first by done.
        change (sn +:+ "." +:+ an) with (sn +:+ String "." an) in Heq.
        by rewrite Heq.
Qed.

(** ** [get_value] and [get_attributes] *)

Section AttributeFacts.
Context {V : Type}.
Variable getattr : node → string → option V.

Lemma contains_of_getitem objs self setting_name_or_path :
  __contains__ objs self setting_name_or_path
  = match __getitem__ objs self setting_name_or_path with
    | Ok _ => Ok true
    | Raise (KeyError _) => Ok false
    | Raise e => Raise e
    end.
Proof.
  unfold __contains__, __getitem__.
  destruct (contains_separator setting_name_or_path); [done|].
  unfold od_contains.
  destruct (od_get setting_name_or_path (settings_of objs self)).
  - by rewrite bool_decide_eq_true_2 by eauto.
  - by rewrite bool_decide_eq_false_2 by (by intros [? ?]).
Qed.

Lemma getitem_walk_segments objs self setting_name_or_path n :
  __getitem__ objs self setting_name_or_path = Ok n
  ↔ walk_segments objs (NGroup self) (split setting_name_or_path) = Some n.
Proof.
  unfold __getitem__.
  destruct (contains_separator setting_name_or_path) eqn:Hsep.
  - apply get_setting_from_path_Ok.
  - rewrite (split_name _ Hsep). simpl.
    destruct (od_get setting_name_or_path (settings_of objs self));
      split; congruence.
Qed.

(** X8.  [get_value] gives the default only when the path leads nowhere.
    The value of the node is returned when the path leads to one, and
    [AttributeError] is raised when that node has no value, as a group; a
    path that goes through a setting raises [TypeError], the default
    notwithstanding. *)
Theorem get_value_or_default objs self setting_name_or_path default_value :
  (∀ setting,
     walk_segments objs (NGroup self) (split setting_name_or_path) = Some setting →
     get_value getattr objs self setting_name_or_path default_value
     = match getattr setting "value" with
       | Some value => Returns value
       | None => Raises (AttributeError "value")
       end)
  ∧ (__contains__ objs self setting_name_or_path = Ok false →
     get_value getattr objs self setting_name_or_path default_value
     = Returns default_value)
  ∧ (∀ e, __contains__ objs self setting_name_or_path = Raise e →
          e = TypeError not_a_container
          ∧ contains_separator setting_name_or_path = true
          ∧ get_value getattr objs self setting_name_or_path default_value
            = Raises (Raised e)).
Proof.
  split_and!.
  - intros setting Hwalk%getitem_walk_segments. unfold get_value. by rewrite Hwalk.
  - rewrite contains_of_getitem. unfold get_value.
    destruct (__getitem__ objs self setting_name_or_path) as [?|[]]; done.
  - intros e. unfold __contains__, get_value, __getitem__.
    destruct (contains_separator setting_name_or_path); [|done].
    destruct (get_setting_from_path_cases objs self setting_name_or_path)
      as [[e' ->]|[[m ->]| ->]]; [done..|].
    by intros [= <-].
Qed.

Lemma get_attributes_from_outcome objs self setting_attributes acc :
  (Forall (λ k, ∃ value, attribute_of getattr objs self k = Returns value)
     setting_attributes
   ∧ ∃ d, get_attributes_from getattr objs self setting_attributes acc = Returns d
          ∧ (NoDup acc.*1 → NoDup d.*1)
          ∧ ∀ k, od_get k d
                 = if decide (k ∈ setting_attributes)
                   then match attribute_of getattr objs self k with
                        | Returns value => Some value
                        | Raises _ => None
                        end
                   else od_get k acc)
  ∨ (∃ before failing after e,
       setting_attributes = before ++ failing :: after
       ∧ Forall (λ k, ∃ value, attribute_of getattr objs self k = Returns value)
           before
       ∧ attribute_of getattr objs self failing = Raises e
       ∧ get_attributes_from getattr objs self setting_attributes acc = Raises e).
Proof.
  revert acc. induction setting_attributes as [|k0 rest IH]; intros acc.
  - left. split; [constructor|]. exists acc. split_and!; [done..|].
    intros k. by rewrite decide_False by apply not_elem_of_nil.
  - simpl.
    destruct (attribute_of getattr objs self k0) as [v0|e0] eqn:Hk0.
    + assert (∃ sn an setting,
                _get_setting_and_attribute_names k0 = Returns (sn, an)
                ∧ __getitem__ objs self sn = Ok setting
                ∧ getattr setting an = Some v0) as (sn & an & setting & Hn & Hg & Ha).
      { unfold attribute_of in Hk0.
        destruct (_get_setting_and_attribute_names k0) as [[sn an]|]; [|done].
        destruct (__getitem__ objs self sn) as [setting|] eqn:Hg; [|done].
        destruct (getattr setting an) eqn:Ha; [|done].
        injection Hk0 as ->. by exists sn, an, setting. }
      rewrite Hn, Hg, Ha.
      destruct (IH (od_set k0 v0 acc))
        as [[Hall (d & -> & Hnd & Hd)]
           |(before & failing & after & e & -> & Hall & Hf & ->)].
      * left. split; [constructor; eauto|]. exists d. split_and!; [done | |].
        -- intros Hacc. by apply Hnd, od_set_NoDup.
        -- intros k. rewrite Hd, od_get_set.
           destruct (decide (k0 = k)) as [<-|Hne].
           ++ rewrite (decide_True (P := k0 ∈ k0 :: rest)) by left.
              rewrite Hk0. by destruct (decide (k0 ∈ rest)).
           ++ destruct (decide (k ∈ rest)) as [Hin|Hin].
              ** by rewrite decide_True by (by right).
              ** rewrite decide_False; [done|].
                 intros [?|?]%elem_of_cons; congruence.
      * right. exists (k0 :: before), failing, after, e.
        split_and!; [done | constructor; eauto | done..].
    + right. exists [], k0, rest, e0. split_and!; [done | constructor | done |].
      unfold attribute_of in Hk0.
      destruct (_get_setting_and_attribute_names k0) as [[sn an]|];
        [|by injection Hk0 as ->].
      destruct (__getitem__ objs self sn) as [setting|]; [|by injection Hk0 as ->].
      destruct (getattr setting an); [done | by injection Hk0 as ->].
Qed.

(** X9.  [get_attributes] answers with a dictionary only when every
    element of the list stands for an attribute that exists; the keys of
    the dictionary are then the elements of the list, each once, and the
    value of each is its attribute.  Otherwise the exception of the first
    element that fails is raised. *)
Theorem get_attributes_outcome objs self setting_attributes :
  (Forall (λ k, ∃ value, attribute_of getattr objs self k = Returns value)
     setting_attributes
   ∧ ∃ d, get_attributes getattr objs self setting_attributes = Returns d
          ∧ NoDup d.*1
          ∧ (∀ k, k ∈ d.*1 ↔ k ∈ setting_attributes)
          ∧ ∀ k value, od_get k d = Some value
                       ↔ k ∈ setting_attributes
                         ∧ attribute_of getattr objs self k = Returns value)
  ∨ (∃ before failing after e,
       setting_attributes = before ++ failing :: after
       ∧ Forall (λ k, ∃ value, attribute_of getattr objs self k = Returns value)
           before
       ∧ attribute_of getattr objs self failing = Raises e
       ∧ get_attributes getattr objs self setting_attributes = Raises e).
Proof.
  unfold get_attributes.
  destruct (get_attributes_from_outcome objs self setting_attributes [])
    as [[Hall (d & Hd & Hnd & Hget)]|Hfail]; [left | by right].
  split; [done|]. exists d.
  assert (∀ k value, od_get k d = Some value
                     ↔ k ∈ setting_attributes
                       ∧ attribute_of getattr objs self k = Returns value) as Hvalues.
  { intros k value. rewrite Hget.
    destruct (decide (k ∈ setting_attributes)) as [Hin|Hin].
    - destruct (attribute_of getattr objs self k); split;
        [by intros [= ->] | by intros [_ [= ->]] | done | by intros [_ ?]].
    - split; [done | tauto]. }
  split_and!; [done | by apply Hnd; constructor | | done].
  intros k. split.
  - intros Hk. destruct (od_get k d) as [value|] eqn:Hkd.
    + by apply Hvalues in Hkd as [? _].
    + by apply od_get_None_keys in Hkd.
  - intros Hk. rewrite Forall_forall in Hall. destruct (Hall k Hk) as [value Hv].
    assert (od_get k d = Some value) as Hkd by (by apply Hvalues).
    apply od_get_Some_elem in Hkd. by apply (list_elem_of_fmap_2 fst) in Hkd.
Qed.
End AttributeFacts.

Lemma get_value_or_default_witness :
  get_value sample_getattr sample_objs 0 "main/advanced/c" 0 = Returns 3
  ∧ get_value sample_getattr sample_objs 0 "main/zzz" 0 = Returns 0
  ∧ get_value sample_getattr sample_objs 0 "d/x" 0
    = Raises (Raised (TypeError not_a_container)).
Proof.
  split_and!.
  - destruct (get_value_or_default sample_getattr sample_objs 0 "main/advanced/c" 0)
      as (Hfound & _ & _).
    exact (Hfound (NSetting setting_c) eq_refl).
  - destruct (get_value_or_default sample_getattr sample_objs 0 "main/zzz" 0)
      as (_ & Hmissing & _).
    exact (Hmissing eq_refl).
  - destruct (get_value_or_default sample_getattr sample_objs 0 "d/x" 0)
      as (_ & _ & Hthrough).
    exact (proj2 (proj2 (Hthrough (TypeError not_a_container) eq_refl))).
Defined.

(** ** More on walks *)

Lemma omap_concat_map {A B C} (p : B → option C) (f : A → list B) (l : list A) :
  omap p (concat (map f l)) = concat (map (λ x, omap p (f x)) l).
Proof. induction l as [|x l IH]; simpl; [done|]. by rewrite omap_app, IH. Qed.

Lemma filter_concat_map {A B} (P : B → Prop) `{∀ x, Decision (P x)}
    (f : A → list B) (l : list A) :
  filter P (concat (map f l)) = concat (map (λ x, filter P (f x)) l).
Proof. induction l as [|x l IH]; simpl; [done|]. by rewrite filter_app, IH. Qed.

Lemma concat_map_ext_Forall {A B} (f g : A → list B) (l : list A) :
  Forall (λ x, f x = g x) l → concat (map f l) = concat (map g l).
Proof. induction 1 as [|x l Hx _ IH]; simpl; [done|]. by rewrite Hx, IH. Qed.

Lemma sublist_concat_map {A B} (f g : A → list B) (l : list A) :
  Forall (λ x, f x `sublist_of` g x) l →
  concat (map f l) `sublist_of` concat (map g l).
Proof.
  induction 1 as [|x l Hx _ IH]; simpl; [done|]. by apply sublist_app.
Qed.

Section WalkMore.
Variable include_setting_func : node → bool.
Variables include_groups include_if_parent_skipped : bool.

Local Abbreviation events_of :=
  (subtree_events include_setting_func include_groups include_if_parent_skipped).

Lemma filter_preorder_group g children :
  filter (λ n, is_yielded include_setting_func include_groups n = true)
    (preorder (TGroup g children))
  = (if include_setting_func (NGroup g) && include_groups then [NGroup g] else [])
    ++ concat (map (λ c, filter (λ n, is_yielded include_setting_func
                                        include_groups n = true) (preorder c))
                 children).
Proof.
  simpl. rewrite filter_cons, filter_concat_map.
  destruct (include_setting_func (NGroup g) && include_groups) eqn:Hyielded.
  - by rewrite decide_True by exact Hyielded.
  - rewrite decide_False; [done|]. unfold is_yielded. by rewrite Hyielded.
Qed.

Lemma yields_group g children :
  yields (events_of (TGroup g children))
  = if include_setting_func (NGroup g)
    then (if include_groups then [NGroup g] else [])
         ++ concat (map (λ c, yields (events_of c)) children)
    else if include_if_parent_skipped
    then concat (map (λ c, yields (events_of c)) children)
    else [].
Proof.
  simpl. destruct (include_setting_func (NGroup g)).
  - rewrite !yields_app. unfold yields at 3. simpl. rewrite app_nil_r.
    unfold yields at 2. rewrite omap_concat_map.
    by destruct include_groups.
  - destruct include_if_parent_skipped; [|done].
    rewrite yields_app. unfold yields at 2. simpl. rewrite app_nil_r.
    unfold yields at 1. by rewrite omap_concat_map.
Qed.

(** The nodes yielded are among the nodes in pre-order that the predicate
    and [include_groups] let through, in that order. *)
Lemma yields_sublist t :
  yields (events_of t)
  `sublist_of` filter (λ n, is_yielded include_setting_func include_groups n = true)
                 (preorder t).
Proof.
  induction t as [s|g children IH] using tree_induction.
  - simpl. rewrite filter_cons. unfold is_yielded. rewrite andb_true_r.
    destruct (include_setting_func (NSetting s)); simpl; [done|].
    apply sublist_nil_l.
  - rewrite yields_group, filter_preorder_group.
    destruct (include_setting_func (NGroup g)); simpl.
    + apply sublist_app; [done|]. by apply sublist_concat_map.
    + destruct include_if_parent_skipped; [|apply sublist_nil_l].
      by apply sublist_concat_map.
Qed.

Lemma ended_groups_subtree t :
  ended_groups (events_of t)
  = entered_groups include_setting_func include_if_parent_skipped t.
Proof.
  induction t as [s|g children IH] using tree_induction; simpl.
  - by destruct (include_setting_func (NSetting s)).
  - assert (ended_groups (concat (map events_of children) ++ [on_end_group_walk g])
            = concat (map (entered_groups include_setting_func
                             include_if_parent_skipped) children) ++ [g]) as Hsub.
    { unfold ended_groups at 1. rewrite omap_app, omap_concat_map. simpl.
      f_equal. by apply concat_map_ext_Forall. }
    destruct (include_setting_func (NGroup g)); simpl.
    + rewrite <-Hsub. unfold ended_groups. rewrite !omap_app.
      by destruct include_groups.
    + by destruct include_if_parent_skipped.
Qed.

Lemma visited_subtree t : visited (events_of t) = yields (events_of t).
Proof.
  induction t as [s|g children IH] using tree_induction.
  - simpl. by destruct (include_setting_func (NSetting s)).
  - rewrite yields_group. simpl.
    assert (visited (concat (map events_of children) ++ [on_end_group_walk g])
            = concat (map (λ c, yields (events_of c)) children)) as Hsub.
    { unfold visited at 1. rewrite omap_app, omap_concat_map. simpl.
      rewrite app_nil_r. by apply concat_map_ext_Forall. }
    destruct (include_setting_func (NGroup g)).
    + rewrite <-Hsub. unfold visited. rewrite !omap_app.
      by destruct include_groups.
    + by destruct include_if_parent_skipped.
Qed.
End WalkMore.

Lemma yields_filter include_setting_func include_groups t :
  yields (subtree_events include_setting_func include_groups true t)
  = filter (λ n, is_yielded include_setting_func include_groups n = true)
      (preorder t).
Proof.
  induction t as [s|g children IH] using tree_induction.
  - simpl. rewrite filter_cons. unfold is_yielded. rewrite andb_true_r.
    by destruct (include_setting_func (NSetting s)).
  - rewrite yields_group, filter_preorder_group.
    destruct (include_setting_func (NGroup g)); simpl.
    + f_equal. by apply concat_map_ext_Forall.
    + by apply concat_map_ext_Forall.
Qed.

Lemma entered_groups_all include_setting_func t :
  entered_groups include_setting_func true t = postorder_groups t.
Proof.
  induction t as [s|g children IH] using tree_induction; simpl; [done|].
  rewrite orb_true_r. f_equal. by apply concat_map_ext_Forall.
Qed.

(** X10.  With [include_if_parent_skipped] the walk of a tree ends and
    yields the nodes below the walked group that satisfy the predicate,
    groups only if they are asked for, in pre-order: the plain filter of the
    pre-order list, nothing of a subtree being left out because a group above
    it fails the predicate. *)
Theorem walk_filters_preorder objs self include_setting_func include_groups depth
    t iters fuel :
  unfold depth objs (NGroup self) = Some t →
  cursors_clear iters t →
  2 * tree_size t ≤ fuel →
  ∃ events,
    walk objs self include_setting_func include_groups true fuel iters
    = Some (events, iters)
    ∧ yields events
      = filter (λ n, is_yielded include_setting_func include_groups n = true)
          (descendants t).
Proof.
  intros Hunfold Hclear Hfuel. eexists. split; [by eapply walk_tree_fuel|].
  destruct t as [s|g children]; simpl; [done|].
  unfold yields at 1. rewrite omap_concat_map, filter_concat_map.
  apply concat_map_ext_Forall, Forall_forall. intros c _. apply yields_filter.
Qed.

Lemma walk_filters_preorder_witness :
  ∃ events,
    walk sample_objs 0 (not_tagged sample_objs "ignore_load") true true 14 ∅
    = Some (events, ∅)
    ∧ yields events
      = filter (λ n, is_yielded (not_tagged sample_objs "ignore_load") true n = true)
          (descendants sample_tree).
Proof.
  apply (walk_filters_preorder sample_objs 0 (not_tagged sample_objs "ignore_load")
           true 3 sample_tree ∅ 14);
    [exact sample_unfold | exact sample_clear | simpl; lia].
Defined.

(** X11.  Whatever the predicate and the flags, the nodes that a walk
    yields are nodes below the walked group that satisfy the predicate, in
    the order of the pre-order list and none more often than it is there;
    without [include_groups] they are settings. *)
Theorem walk_yields_sublist objs self include_setting_func include_groups
    include_if_parent_skipped depth t iters fuel :
  unfold depth objs (NGroup self) = Some t →
  cursors_clear iters t →
  2 * tree_size t ≤ fuel →
  ∃ events,
    walk objs self include_setting_func include_groups include_if_parent_skipped
      fuel iters
    = Some (events, iters)
    ∧ yields events
      `sublist_of` filter (λ n, is_yielded include_setting_func include_groups n
                                = true) (descendants t)
    ∧ (∀ n, n ∈ yields events →
            include_setting_func n = true ∧ n ∈ descendants t
            ∧ (include_groups = false → ∃ s, n = NSetting s)).
Proof.
  intros Hunfold Hclear Hfuel. eexists. split; [by eapply walk_tree_fuel|].
  assert (yields (walk_events include_setting_func include_groups
                    include_if_parent_skipped t)
          `sublist_of` filter (λ n, is_yielded include_setting_func include_groups n
                                    = true) (descendants t)) as Hsub.
  { destruct t as [s|g children]; simpl; [done|].
    unfold yields at 1. rewrite omap_concat_map, filter_concat_map.
    apply sublist_concat_map, Forall_forall. intros c _. apply yields_sublist. }
  split; [done|]. intros n Hn.
  pose proof (elem_of_sublist _ _ _ Hn Hsub) as Hfiltered.
  apply list_elem_of_filter in Hfiltered as [Hyielded Hin].
  unfold is_yielded in Hyielded. apply andb_true_iff in Hyielded as [Hf Hg].
  split_and!; [done..|]. intros ->. destruct n as [s|g]; [eauto | done].
Qed.

Lemma walk_yields_sublist_witness :
  ∃ events,
    walk sample_objs 0 (not_tagged sample_objs "ignore_load") false false 14 ∅
    = Some (events, ∅)
    ∧ yields events
      `sublist_of` filter (λ n, is_yielded (not_tagged sample_objs "ignore_load")
                                  false n = true) (descendants sample_tree)
    ∧ (∀ n, n ∈ yields events →
            not_tagged sample_objs "ignore_load" n = true
            ∧ n ∈ descendants sample_tree
            ∧ (false = false → ∃ s, n = NSetting s)).
Proof.
  apply (walk_yields_sublist sample_objs 0 (not_tagged sample_objs "ignore_load")
           false false 3 sample_tree ∅ 14);
    [exact sample_unfold | exact sample_clear | simpl; lia].
Defined.

(** X12.  The callbacks of a walk: a visit is called back on the nodes
    yielded, in the order of the yields, and on no other node; the end of a
    group is called back for every group that the walk entered, yielded or
    not, a group after the groups below it.  With
    [include_if_parent_skipped] these are all the groups below the walked
    one, so that the end is called back also for the groups on which no visit
    was, the predicate failing or groups not being asked for. *)
Theorem walk_callbacks objs self include_setting_func include_groups
    include_if_parent_skipped depth children iters fuel :
  unfold depth objs (NGroup self) = Some (TGroup self children) →
  cursors_clear iters (TGroup self children) →
  2 * tree_size (TGroup self children) ≤ fuel →
  ∃ events,
    walk objs self include_setting_func include_groups include_if_parent_skipped
      fuel iters
    = Some (events, iters)
    ∧ visited events = yields events
    ∧ ended_groups events
      = concat (map (entered_groups include_setting_func include_if_parent_skipped)
                  children)
    ∧ (include_if_parent_skipped = true →
       ended_groups events = concat (map postorder_groups children)).
Proof.
  intros Hunfold Hclear Hfuel. eexists. split; [by eapply walk_tree_fuel|]. simpl.
  assert (ended_groups
            (concat (map (subtree_events include_setting_func include_groups
                            include_if_parent_skipped) children))
          = concat (map (entered_groups include_setting_func
                           include_if_parent_skipped) children)) as Hended.
  { unfold ended_groups at 1. rewrite omap_concat_map.
    apply concat_map_ext_Forall, Forall_forall. intros c _.
    apply ended_groups_subtree. }
  split_and!.
  - unfold visited at 1, yields at 1. rewrite !omap_concat_map.
    apply concat_map_ext_Forall, Forall_forall. intros c _. apply visited_subtree.
  - done.
  - intros ->. rewrite Hended.
    apply concat_map_ext_Forall, Forall_forall. intros c _.
    apply entered_groups_all.
Qed.

Lemma walk_callbacks_witness :
  ∃ events,
    walk sample_objs 0 (λ n, bool_decide (n ≠ NGroup 2)) false true 14 ∅
    = Some (events, ∅)
    ∧ visited events = yields events
    ∧ ended_groups events
      = concat (map (entered_groups (λ n, bool_decide (n ≠ NGroup 2)) true)
                  [TGroup 1 [TSetting setting_a; TGroup 2 [TSetting setting_c];
                             TSetting setting_b];
                   TSetting setting_d])
    ∧ (true = true →
       ended_groups events
       = concat (map postorder_groups
                   [TGroup 1 [TSetting setting_a; TGroup 2 [TSetting setting_c];
                              TSetting setting_b];
                    TSetting setting_d])).
Proof.
  apply (walk_callbacks sample_objs 0 (λ n, bool_decide (n ≠ NGroup 2)) false true 3
           [TGroup 1 [TSetting setting_a; TGroup 2 [TSetting setting_c];
                      TSetting setting_b];
            TSetting setting_d] ∅ 14);
    [exact sample_unfold | exact sample_clear | simpl; lia].
Defined.

(** ** The loops over a walk: [get_values], [reset], [initialize_gui] *)

Lemma yielded_all include_if_parent_skipped t :
  yielded_settings (subtree_events (λ _, true) false include_if_parent_skipped t)
  = tree_settings t.
Proof.
  induction t as [s|g children IH] using tree_induction; simpl; [done|].
  rewrite yielded_settings_app. simpl. rewrite app_nil_r.
  by apply yielded_settings_concat.
Qed.

Lemma yields_all_settings g children :
  yields (walk_events (λ _, true) false false (TGroup g children))
  = NSetting <$> tree_settings (TGroup g children).
Proof.
  simpl. unfold yields. rewrite omap_concat_map.
  induction children as [|c children IH]; simpl; [done|].
  rewrite fmap_app, IH. f_equal.
  change (omap _ ?e) with (yields e). by rewrite yields_settings, yielded_all.
Qed.

(** A walk with the default arguments in a [for] loop: the body is run on
    every setting of the tree, in order. *)
Lemma for_walk_all {A} (body : A → node → A) objs self depth children iters fuel
    acc :
  unfold depth objs (NGroup self) = Some (TGroup self children) →
  cursors_clear iters (TGroup self children) →
  2 * tree_size (TGroup self children) < fuel →
  for_walk objs self (λ _, true) false false body fuel [self] iters acc
  = Some (fold_left body (NSetting <$> tree_settings (TGroup self children)) acc,
          iters).
Proof.
  intros Hunfold Hclear Hfuel. rewrite <-yields_all_settings.
  apply for_walk_of_run with (n := 2 * tree_size (TGroup self children)); [|done].
  by apply (walk_tree_fuel _ _ _ _ _ depth).
Qed.

Lemma untagged_settings_filter objs tag t :
  (∀ g, g ∈ groups_of t → not_tagged objs tag (NGroup g) = true) →
  untagged_settings objs tag t
  = filter (λ s, tag ∉ s_tags s) (tree_settings t).
Proof.
  induction t as [s|g children IH] using tree_induction; simpl; intros Hgroups.
  - rewrite filter_cons. unfold not_tagged. simpl.
    destruct (decide (tag ∉ s_tags s)).
    + by rewrite bool_decide_eq_true_2.
    + by rewrite bool_decide_eq_false_2.
  - rewrite Hgroups by left. rewrite filter_concat_map.
    apply concat_map_ext_Forall. rewrite Forall_forall in IH |- *.
    intros c Hc. apply IH; [done|]. intros g' Hg'. apply Hgroups. right.
    apply elem_of_concat_map. eauto.
Qed.

Lemma walked_settings_filter objs tag g children :
  (∀ g', g' ∈ concat (map groups_of children) →
         tag ∉ node_tags objs (NGroup g')) →
  walked_settings objs tag (TGroup g children)
  = filter (λ s, tag ∉ s_tags s) (tree_settings (TGroup g children)).
Proof.
  intros Hgroups. simpl. rewrite filter_concat_map.
  apply concat_map_ext_Forall, Forall_forall. intros c Hc.
  apply untagged_settings_filter. intros g' Hg'. unfold not_tagged.
  apply bool_decide_eq_true_2, Hgroups, elem_of_concat_map. eauto.
Qed.

Section ValueFacts.
Context {V : Type}.
Variable get_path : Setting → string.
Variable value : Setting → V.

Lemma value_entries (walked : list Setting) acc p :
  od_get p (fold_left (value_entry get_path value) (NSetting <$> walked) acc)
  = match last_with get_path value p walked with
    | Some v => Some v
    | None => od_get p acc
    end.
Proof.
  induction walked as [|s walked IH] using rev_ind; [done|].
  rewrite fmap_app, fold_left_app. simpl. rewrite od_get_set, IH.
  unfold last_with. rewrite filter_app, filter_cons, filter_nil.
  destruct (decide (get_path s = p)) as [Hp|Hp].
  - by rewrite last_snoc.
  - by rewrite app_nil_r.
Qed.

Lemma value_entries_NoDup (walked : list node) acc :
  NoDup acc.*1 → NoDup (fold_left (value_entry get_path value) walked acc).*1.
Proof.
  revert acc. induction walked as [|n walked IH]; intros acc Hacc; [done|].
  simpl. apply IH. destruct n as [s|g]; [by apply od_set_NoDup | done].
Qed.

(** X13.  [get_values] ends and leaves the cursors as they were.  Its
    dictionary has one key for each path of a setting of the tree, tagged or
    not and whatever the tags of the groups above it, and no other key; when
    two settings have the same path the value is the one of the setting that
    comes last in the walk. *)
Theorem get_values_tree objs self depth children iters fuel :
  unfold depth objs (NGroup self) = Some (TGroup self children) →
  cursors_clear iters (TGroup self children) →
  2 * tree_size (TGroup self children) < fuel →
  ∃ d,
    get_values get_path value fuel objs self iters = Some (d, iters)
    ∧ NoDup d.*1
    ∧ (∀ p, p ∈ d.*1 ↔ ∃ s, s ∈ tree_settings (TGroup self children)
                            ∧ get_path s = p)
    ∧ (∀ p, od_get p d
            = last_with get_path value p (tree_settings (TGroup self children))).
Proof.
  intros Hunfold Hclear Hfuel. unfold get_values.
  rewrite (for_walk_all _ objs self depth children) by done.
  eexists. split; [done|].
  assert (∀ p,
    od_get p (fold_left (value_entry get_path value)
                (NSetting <$> tree_settings (TGroup self children)) [])
    = last_with get_path value p (tree_settings (TGroup self children))) as Hget.
  { intros p. rewrite value_entries. by destruct (last_with _ _ _ _). }
  split_and!; [apply value_entries_NoDup; constructor | | done].
  intros p. split.
  - intros Hp.
    destruct (od_get p (fold_left (value_entry get_path value)
                          (NSetting <$> tree_settings (TGroup self children)) []))
      as [v|] eqn:Hv; [|by apply od_get_None_keys in Hv].
    rewrite Hget in Hv. unfold last_with in Hv.
    destruct (last _) as [s|] eqn:Hlast; [|done].
    apply last_Some in Hlast as [l' Hl'].
    assert (s ∈ filter (λ x, get_path x = p)
                  (tree_settings (TGroup self children))) as Hs.
    { rewrite Hl'. apply elem_of_app. right. left. }
    apply list_elem_of_filter in Hs as [? ?]. eauto.
  - intros (s & Hs & Hp). apply dec_stable. intros Hno%od_get_None_keys.
    rewrite Hget in Hno. unfold last_with in Hno.
    destruct (last _) as [s'|] eqn:Hlast; [done|].
    apply last_None in Hlast.
    assert (s ∈ filter (λ x, get_path x = p)
                  (tree_settings (TGroup self children))) as Hin
      by (by apply list_elem_of_filter).
    rewrite Hlast in Hin. by apply elem_of_nil in Hin.
Qed.
End ValueFacts.

Lemma get_values_tree_witness :
  ∃ d,
    get_values s_name s_id 15 sample_objs 0 ∅ = Some (d, ∅)
    ∧ NoDup d.*1
    ∧ (∀ p, p ∈ d.*1
            ↔ ∃ s, s ∈ tree_settings
                         (TGroup 0
                            [TGroup 1 [TSetting setting_a;
                                       TGroup 2 [TSetting setting_c];
                                       TSetting setting_b];
                             TSetting setting_d])
                   ∧ s_name s = p)
    ∧ (∀ p, od_get p d
            = last_with s_name s_id p
                (tree_settings
                   (TGroup 0
                      [TGroup 1 [TSetting setting_a; TGroup 2 [TSetting setting_c];
                                 TSetting setting_b];
                       TSetting setting_d]))).
Proof.
  apply (get_values_tree s_name s_id sample_objs 0 3
           [TGroup 1 [TSetting setting_a; TGroup 2 [TSetting setting_c];
                      TSetting setting_b];
            TSetting setting_d] ∅ 15);
    [exact sample_unfold | exact sample_clear | simpl; lia].
Defined.

Lemma reset_settings_log (walked log : list Setting) :
  fold_left reset_setting (NSetting <$> walked) log = log ++ walked.
Proof.
  revert log. induction walked as [|s walked IH]; intros log; simpl.
  - by rewrite app_nil_r.
  - by rewrite IH, <-app_assoc.
Qed.

(** X14.  [reset] ends and leaves the cursors as they were.  It resets,
    once each and in the order of the walk, the settings without the tag
    [ignore_reset] that are below no group with the tag; a setting with the
    tag, or below a group with it, is not reset.  When no group below the
    walked one has the tag, every setting without the tag is reset. *)
Theorem reset_untagged objs self depth children iters fuel :
  unfold depth objs (NGroup self) = Some (TGroup self children) →
  cursors_clear iters (TGroup self children) →
  2 * tree_size (TGroup self children) < fuel →
  reset fuel objs self iters
  = Some (walked_settings objs "ignore_reset" (TGroup self children), iters)
  ∧ (∀ s, s ∈ walked_settings objs "ignore_reset" (TGroup self children) →
          s ∈ tree_settings (TGroup self children) ∧ "ignore_reset" ∉ s_tags s)
  ∧ (∀ before g below after,
       children = before ++ TGroup g below :: after →
       "ignore_reset" ∈ node_tags objs (NGroup g) →
       walked_settings objs "ignore_reset" (TGroup self children)
       = walked_settings objs "ignore_reset" (TGroup self (before ++ after)))
  ∧ ((∀ g, g ∈ concat (map groups_of children) →
           "ignore_reset" ∉ node_tags objs (NGroup g)) →
     walked_settings objs "ignore_reset" (TGroup self children)
     = filter (λ s, "ignore_reset" ∉ s_tags s)
         (tree_settings (TGroup self children))).
Proof.
  intros Hunfold Hclear Hfuel. split_and!.
  - unfold reset.
    rewrite (for_walk_tagged _ objs self "ignore_reset" depth
               (TGroup self children)) by done.
    by rewrite reset_settings_log.
  - intros s. apply walked_settings_elem.
  - intros before g below after -> Htagged. simpl.
    assert (not_tagged objs "ignore_reset" (NGroup g) = false) as Hg
      by (apply bool_decide_eq_false_2; intros Hno; by apply Hno).
    rewrite !map_app, !concat_app. simpl. by rewrite Hg.
  - apply walked_settings_filter.
Qed.

Lemma reset_untagged_witness :
  reset 15 sample_objs 0 ∅
  = Some (walked_settings sample_objs "ignore_reset" sample_tree, ∅)
  ∧ (∀ s, s ∈ walked_settings sample_objs "ignore_reset" sample_tree →
          s ∈ tree_settings sample_tree ∧ "ignore_reset" ∉ s_tags s)
  ∧ (∀ before g below after,
       [TGroup 1 [TSetting setting_a; TGroup 2 [TSetting setting_c];
                  TSetting setting_b];
        TSetting setting_d] = before ++ TGroup g below :: after →
       "ignore_reset" ∈ node_tags sample_objs (NGroup g) →
       walked_settings sample_objs "ignore_reset" sample_tree
       = walked_settings sample_objs "ignore_reset" (TGroup 0 (before ++ after)))
  ∧ ((∀ g, g ∈ concat (map groups_of
                         [TGroup 1 [TSetting setting_a;
                                    TGroup 2 [TSetting setting_c];
                                    TSetting setting_b];
                          TSetting setting_d]) →
           "ignore_reset" ∉ node_tags sample_objs (NGroup g)) →
     walked_settings sample_objs "ignore_reset" sample_tree
     = filter (λ s, "ignore_reset" ∉ s_tags s) (tree_settings sample_tree)).
Proof.
  apply (reset_untagged sample_objs 0 3
           [TGroup 1 [TSetting setting_a; TGroup 2 [TSetting setting_c];
                      TSetting setting_b];
            TSetting setting_d] ∅ 15);
    [exact sample_unfold | exact sample_clear | simpl; lia].
Defined.

Section GuiMore.
Context {A : Type}.
Variable get_path : Setting → string.

Lemma set_gui_log (custom_gui : gmap string (list A)) (walked : list Setting) log :
  fold_left (set_gui get_path custom_gui) (NSetting <$> walked) log
  = log ++ map (λ s, (s, default [] (custom_gui !! get_path s))) walked.
Proof.
  revert log. induction walked as [|s walked IH]; intros log; simpl.
  - by rewrite app_nil_r.
  - rewrite IH. destruct (custom_gui !! get_path s); by rewrite <-app_assoc.
Qed.

(** X15.  [initialize_gui] ends and leaves the cursors as they were.  It
    calls [set_gui] once on each setting that a walk without the tag
    [ignore_initialize_gui] yields, in the order of the walk, with the
    arguments that [custom_gui] holds for the path of the setting, and
    without arguments when it holds none or is not given. *)
Theorem initialize_gui_calls objs self (custom_gui : option (gmap string (list A)))
    depth children iters fuel :
  unfold depth objs (NGroup self) = Some (TGroup self children) →
  cursors_clear iters (TGroup self children) →
  2 * tree_size (TGroup self children) < fuel →
  initialize_gui get_path fuel objs self custom_gui iters
  = Some (map (λ s, (s, default [] (default ∅ custom_gui !! get_path s)))
            (walked_settings objs "ignore_initialize_gui" (TGroup self children)),
          iters)
  ∧ (∀ s args,
       (s, args) ∈ map (λ s, (s, default [] (default ∅ custom_gui !! get_path s)))
                     (walked_settings objs "ignore_initialize_gui"
                        (TGroup self children)) →
       s ∈ tree_settings (TGroup self children)
       ∧ ("ignore_initialize_gui" ∉ s_tags s)
       ∧ (custom_gui = None → args = [])).
Proof.
  intros Hunfold Hclear Hfuel. split.
  - unfold initialize_gui.
    rewrite (for_walk_tagged _ objs self "ignore_initialize_gui" depth
               (TGroup self children)) by done.
    by rewrite set_gui_log.
  - intros s args Hin. apply list_elem_of_fmap in Hin as (s' & [= -> ->] & Hin).
    apply walked_settings_elem in Hin as [? ?].
    split_and!; [done..|]. intros ->. simpl. by rewrite lookup_empty.
Qed.
End GuiMore.

Lemma initialize_gui_calls_witness :
  initialize_gui s_name 15 sample_objs 0 (Some sample_custom_gui) ∅
  = Some (map (λ s, (s, default [] (default ∅ (Some sample_custom_gui)
                                      !! s_name s)))
            (walked_settings sample_objs "ignore_initialize_gui" sample_tree),
          ∅)
  ∧ (∀ s args,
       (s, args) ∈ map (λ s, (s, default [] (default ∅ (Some sample_custom_gui)
                                               !! s_name s)))
                     (walked_settings sample_objs "ignore_initialize_gui"
                        sample_tree) →
       s ∈ tree_settings sample_tree
       ∧ ("ignore_initialize_gui" ∉ s_tags s)
       ∧ (Some sample_custom_gui = None → args = [])).
Proof.
  apply (initialize_gui_calls s_name sample_objs 0 (Some sample_custom_gui) 3
           [TGroup 1 [TSetting setting_a; TGroup 2 [TSetting setting_c];
                      TSetting setting_b];
            TSetting setting_d] ∅ 15);
    [exact sample_unfold | exact sample_clear | simpl; lia].
Defined.

(** ** Paths compose *)

Lemma split_app a b :
  split (a +:+ String SETTING_PATH_SEPARATOR b) = split a ++ split b.
Proof.
  induction a as [|c a IH]; simpl; [done|].
  destruct (Ascii.eqb c SETTING_PATH_SEPARATOR); [by rewrite IH|].
  rewrite IH. destruct (split a) as [|w ws] eqn:Ha; [|done].
  by apply split_not_nil in Ha.
Qed.

Lemma walk_segments_setting objs s segments n :
  walk_segments objs (NSetting s) segments = Some n → segments = [].
Proof. by destruct segments. Qed.

(** X16.  A path put together from two paths by the separator leads where
    the second path leads from the group to which the first path leads:
    [group[a/b]] returns a node exactly when [group[a]] returns a group and
    that group returns the node for [b]. *)
Theorem getitem_path_composes objs self a b n :
  __getitem__ objs self (a +:+ "/" +:+ b) = Ok n
  ↔ ∃ g, __getitem__ objs self a = Ok (NGroup g) ∧ __getitem__ objs g b = Ok n.
Proof.
  rewrite getitem_walk_segments.
  change (a +:+ "/" +:+ b) with (a +:+ String SETTING_PATH_SEPARATOR b).
  rewrite split_app, walk_segments_app. split.
  - destruct (walk_segments objs (NGroup self) (split a)) as [[s|g]|] eqn:Ha;
      simpl; [| |done].
    + intros Hb%walk_segments_setting. by apply split_not_nil in Hb.
    + intros Hb. exists g. by rewrite !getitem_walk_segments.
  - intros (g & Ha%getitem_walk_segments & Hb%getitem_walk_segments).
    by rewrite Ha.
Qed.

(** ** Required arguments of a constructor *)

(** The slice that [_get_required_argument_names] takes holds the
    arguments without a default value. *)
Lemma required_args_slice {D} (required optional : list string)
    (arg_default_values : list D) :
  length optional = length arg_default_values →
  slice_to (Z.of_nat (length (required ++ optional))
            - Z.of_nat (length arg_default_values))%Z (required ++ optional)
  = required.
Proof.
  intros Hlen. unfold slice_to. rewrite length_app, <-Hlen.
  assert ((Z.of_nat (length required + length optional)
           - Z.of_nat (length optional))%Z = Z.of_nat (length required)) as ->
    by lia.
  assert ((Z.of_nat (length required) <? 0)%Z = false) as ->
    by (apply Z.ltb_ge; lia).
  by rewrite Nat2Z.id, take_app_length.
Qed.

(** X17.  For a function whose arguments are some required ones followed
    by those with a default value, [_get_required_argument_names] answers
    with the required ones, without the first of them when it is [self];
    when no argument is required it raises [IndexError]. *)
Theorem required_argument_names_of {D} (required optional : list string)
    (defaults : option (list D)) :
  length optional = length (default [] defaults) →
  _get_required_argument_names (required ++ optional) defaults
  = match required with
    | [] => Raise IndexError
    | first :: others =>
        Ok (if decide (first = "self") then others else first :: others)
    end.
Proof.
  intros Hlen. unfold _get_required_argument_names.
  rewrite required_args_slice by done.
  destruct required as [|first others]; [done|]. by destruct (decide _).
Qed.

Lemma required_argument_names_of_witness :
  _get_required_argument_names (["self"; "name"] ++ ["default_value"]) (Some [0])
  = Ok ["name"].
Proof.
  apply (required_argument_names_of ["self"; "name"] ["default_value"] (Some [0])).
  reflexivity.
Defined.

(** ** Children are filed under their names *)

Lemma od_set_elem {V} (k0 k : string) (v v' : V) d :
  (k, v') ∈ od_set k0 v d → (k, v') ∈ d ∨ (k = k0 ∧ v' = v).
Proof.
  induction d as [|[k1 v1] d IH]; simpl.
  - intros [= -> ->]%list_elem_of_singleton. by right.
  - destruct (decide (k0 = k1)) as [->|Hne].
    + intros [[= -> ->]|Hin]%elem_of_cons; [by right|]. left. by right.
    + intros [[= -> ->]|Hin]%elem_of_cons; [left; left|].
      destruct (IH Hin) as [?|?]; [left; by right | by right].
Qed.

Lemma node_name_del_settings objs self name n :
  node_name (del_settings objs self name) n = node_name objs n.
Proof.
  destruct n as [s|g]; simpl; [done|]. unfold del_settings.
  destruct (decide (g = self)) as [->|Hne].
  - rewrite lookup_alter_eq. by destruct (objs !! self).
  - by rewrite lookup_alter_ne.
Qed.

Lemma filed_set_settings objs self name child :
  filed_by_name objs → node_name objs child = name →
  filed_by_name (set_settings objs self name child).
Proof.
  intros Hfiled Hname g. destruct (Hfiled g) as [Hnd Hnames].
  rewrite settings_of_set_settings.
  destruct (decide (g = self)) as [->|Hne].
  - unfold settings_of in Hnd, Hnames.
    destruct (objs !! self) as [G|];
      [|split; [constructor | by intros ? ? ?%elem_of_nil]].
    split; [by apply od_set_NoDup|].
    intros k n [Hin|[-> ->]]%od_set_elem; rewrite node_name_set_settings; eauto.
  - split; [done|]. intros k n Hin. rewrite node_name_set_settings. eauto.
Qed.

Lemma filed_del_settings objs self name :
  filed_by_name objs → filed_by_name (del_settings objs self name).
Proof.
  intros Hfiled g. destruct (Hfiled g) as [Hnd Hnames].
  rewrite settings_of_del_settings.
  destruct (decide (g = self)) as [->|Hne].
  - rewrite od_delete_filter by done. split; [by apply filter_keys_NoDup|].
    intros k n [_ Hin]%list_elem_of_filter. rewrite node_name_del_settings. eauto.
  - split; [done|]. intros k n Hin. rewrite node_name_del_settings. eauto.
Qed.

Section Filed.
Variable construct : nat → list (string * attribute) → option Setting.
Variable getargspec : nat → list string * option (list attribute).

Lemma create_setting_named objs self setting_data objs' :
  _create_setting construct getargspec objs self setting_data
  = Ok objs' →
  ∃ name setting_type arguments setting,
    objs' = set_settings objs self name (NSetting setting)
    ∧ construct setting_type arguments = Some setting
    ∧ od_get "name" arguments = Some (AStr name).
Proof.
  unfold _create_setting, _instantiate_setting.
  destruct (od_get "type" setting_data) as [ty|]; [|done].
  destruct (od_get "name" _) as [[name| | |]|] eqn:Hname;
    try done; try (by destruct (bool_decide _)).
  destruct (contains_separator name); [done|].
  destruct (od_contains name (settings_of objs self)); [done|].
  destruct ty as [|ty| |]; try done.
  set (arguments := fold_left _ _ _).
  destruct (construct ty arguments) as [setting|] eqn:Hconstruct.
  - intros [= <-]. exists name, ty, arguments, setting.
    split_and!; [done..|]. unfold arguments.
    by rewrite merge_defaults_get, Hname.
  - by destruct (_get_missing_required_arguments _ _ _) as [[|? ?]|].
Qed.

(** X18.  When every setting class gives its instance the name it is
    constructed with, [add] and [remove] keep the child maps in order: in
    every group of the store each child stays filed under its own name and no
    name is filed twice, whether the call ends or raises. *)
Theorem names_kept objs self setting_list setting_names :
  (∀ setting_type arguments setting,
     construct setting_type arguments = Some setting →
     od_get "name" arguments = Some (AStr (s_name setting))) →
  filed_by_name objs →
  filed_by_name (add construct getargspec objs self setting_list).1
  ∧ filed_by_name (remove objs self setting_names).1.
Proof.
  intros Hconstruct Hfiled. split.
  - revert objs Hfiled.
    induction setting_list as [|item rest IH]; intros objs Hfiled; simpl; [done|].
    destruct item as [setting|setting_data].
    + destruct (_add_setting objs self setting) as [objs'|e] eqn:Hadd; [|done].
      apply add_setting_Ok in Hadd as [_ ->]. by apply IH, filed_set_settings.
    + destruct (_create_setting _ _ objs self setting_data) as [objs'|e] eqn:Hadd;
        [|done].
      apply create_setting_named
        in Hadd as (name & ty & arguments & setting & -> & Hnew & Hname).
      apply IH, filed_set_settings; [done|]. simpl.
      apply Hconstruct in Hnew. congruence.
  - revert objs Hfiled.
    induction setting_names as [|name rest IH]; intros objs Hfiled; simpl; [done|].
    destruct (od_contains name (settings_of objs self)); [|done].
    by apply IH, filed_del_settings.
Qed.
End Filed.

Lemma sample_construct_named setting_type arguments setting :
  sample_construct setting_type arguments = Some setting →
  od_get "name" arguments = Some (AStr (s_name setting)).
Proof.
  unfold sample_construct.
  destruct (od_get "name" arguments) as [[name| | |]|]; try done.
  by intros [= <-].
Qed.

Lemma sample_filed : filed_by_name sample_objs.
Proof.
  intros g. unfold settings_of, sample_objs.
  destruct g as [|[|[|g]]].
  - split; [apply (bool_decide_unpack _); by vm_compute|].
    intros k n Hin. vm_compute in Hin.
    repeat (apply elem_of_cons in Hin as [[= -> ->]|Hin]; [reflexivity|]).
    by apply elem_of_nil in Hin.
  - split; [apply (bool_decide_unpack _); by vm_compute|].
    intros k n Hin. vm_compute in Hin.
    repeat (apply elem_of_cons in Hin as [[= -> ->]|Hin]; [reflexivity|]).
    by apply elem_of_nil in Hin.
  - split; [apply (bool_decide_unpack _); by vm_compute|].
    intros k n Hin. vm_compute in Hin.
    repeat (apply elem_of_cons in Hin as [[= -> ->]|Hin]; [reflexivity|]).
    by apply elem_of_nil in Hin.
  - rewrite !lookup_insert_ne by lia. rewrite lookup_empty.
    split; [constructor | by intros ? ? ?%elem_of_nil].
Qed.

Lemma names_kept_witness :
  filed_by_name
    (add sample_construct sample_getargspec sample_objs 2
       [item_dict [("type", AType 7); ("name", AStr "e")];
        item_node (NSetting setting_c)]).1
  ∧ filed_by_name (remove sample_objs 2 ["c"; "zz"]).1.
Proof.
  apply (names_kept sample_construct sample_getargspec sample_objs 2
           [item_dict [("type", AType 7); ("name", AStr "e")];
            item_node (NSetting setting_c)] ["c"; "zz"]).
  - exact sample_construct_named.
  - exact sample_filed.
Defined.

(** ** The order of the backend calls *)







(** ** [load] and [save] *)

(** X20.  [load] and [save] end and leave the cursors as they were.
    [load] invokes [before-load-group] on every setting that the walk without
    the tag [ignore_load] yields, with or without sources, then does what
    [_load_save] does with the loading backend and that tag, and then invokes
    [after-load-group] on the same settings; it returns what [_load_save]
    returned.  [save] does the same with the tag [ignore_save], the saving
    backend and its two events. *)
Theorem load_and_save_events SettingPersistor_load SettingPersistor_save objs self
    explicit depth t iters fuel :
  unfold depth objs (NGroup self) = Some t →
  cursors_clear iters t →
  2 * tree_size t < fuel →
  (∃ return_values,
     _load_save fuel objs self "ignore_load" SettingPersistor_load explicit iters
     = Some (return_values, iters)
     ∧ load SettingPersistor_load fuel objs self explicit iters
       = Some (map (λ s, (s, "before-load-group"))
                 (walked_settings objs "ignore_load" t)
               ++ map (λ s, (s, "after-load-group"))
                    (walked_settings objs "ignore_load" t),
               return_values, iters))
  ∧ (∃ return_values,
       _load_save fuel objs self "ignore_save" SettingPersistor_save explicit iters
       = Some (return_values, iters)
       ∧ save SettingPersistor_save fuel objs self explicit iters
         = Some (map (λ s, (s, "before-save-group"))
                   (walked_settings objs "ignore_save" t)
                 ++ map (λ s, (s, "after-save-group"))
                      (walked_settings objs "ignore_save" t),
                 return_values, iters)).
Proof.
  intros Hunfold Hclear Hfuel. split; by eapply load_save_group_tree.
Qed.

Lemma load_and_save_events_witness :
  (∃ return_values,
     _load_save 15 sample_objs 0 "ignore_load" mixed_backend None ∅
     = Some (return_values, ∅)
     ∧ load mixed_backend 15 sample_objs 0 None ∅
       = Some (map (λ s, (s, "before-load-group"))
                 (walked_settings sample_objs "ignore_load" sample_tree)
               ++ map (λ s, (s, "after-load-group"))
                    (walked_settings sample_objs "ignore_load" sample_tree),
               return_values, ∅))
  ∧ (∃ return_values,
       _load_save 15 sample_objs 0 "ignore_save" failing_backend None ∅
       = Some (return_values, ∅)
       ∧ save failing_backend 15 sample_objs 0 None ∅
         = Some (map (λ s, (s, "before-save-group"))
                   (walked_settings sample_objs "ignore_save" sample_tree)
                 ++ map (λ s, (s, "after-save-group"))
                      (walked_settings sample_objs "ignore_save" sample_tree),
                 return_values, ∅)).
Proof.
  apply (load_and_save_events mixed_backend failing_backend sample_objs 0 None 3
           sample_tree ∅ 15);
    [exact sample_unfold | exact sample_clear | simpl; lia].
Defined.

(** ** [create_groups] *)

Lemma dict_tree_induction (P : dict_tree → Prop) :
  (∀ id D children, Forall P children → P (DictTree id D children)) →
  ∀ T, P T.
Proof.
  intros Hnode. fix IH 1. intros [id D children].
  apply Hnode. induction children as [|c children IHchildren]; constructor.
  - apply IH.
  - apply IHchildren.
Qed.

Lemma dict_unfold_node depth dicts r T :
  dict_unfold (S depth) dicts r = Some T
  ↔ ∃ D children,
      dicts !! r = Some D ∧ T = DictTree r D children
      ∧ Forall2 (λ r' c, dict_unfold depth dicts r' = Some c)
          (default [] (dict_groups D)) children.
Proof.
  simpl. split.
  - destruct (dicts !! r) as [D|]; [|done]. simpl.
    destruct (mapM _ _) as [children|] eqn:Hm; [|done].
    intros [= <-]. exists D, children. split_and!; [done..|].
    by apply mapM_Some.
  - intros (D & children & -> & -> & Hm). simpl.
    apply mapM_Some in Hm. by rewrite Hm.
Qed.

Lemma dict_unfold_root depth dicts r T :
  dict_unfold depth dicts r = Some T → dict_root T = r.
Proof.
  destruct depth as [|depth]; [done|].
  by intros (D & children & _ & -> & _)%dict_unfold_node.
Qed.

(** The tree under a dictionary depends on the dictionaries of the tree
    only. *)
Lemma dict_unfold_frame dicts dicts' depth r T :
  dict_unfold depth dicts r = Some T →
  (∀ id, id ∈ dict_ids T → dicts' !! id = dicts !! id) →
  dict_unfold depth dicts' r = Some T.
Proof.
  revert r T. induction depth as [|depth IH]; intros r T; [done|].
  intros (D & children & HD & -> & Hm)%dict_unfold_node Hagree.
  apply dict_unfold_node. exists D, children. split_and!; [|done|].
  - rewrite Hagree; [done | left].
  - assert (∀ id, id ∈ concat (map dict_ids children)
                  → dicts' !! id = dicts !! id) as Hbelow
      by (intros id Hid; apply Hagree; by right).
    clear Hagree HD.
    induction Hm as [|r' c refs children Hc _ IHm]; constructor.
    + apply IH; [done|]. intros id Hid. apply Hbelow. simpl.
      apply elem_of_app. by left.
    + apply IHm. intros id Hid. apply Hbelow. simpl.
      apply elem_of_app. by right.
Qed.

Lemma list_sum_elem_size (T : dict_tree) (children : list dict_tree) :
  T ∈ children → dict_size T ≤ list_sum (map dict_size children).
Proof.
  induction 1 as [T children|T c children _ IH]; simpl; lia.
Qed.

Section CreateGroupsFacts.
Variable check_setting_name : string → bool.
Variable construct : nat → list (string * attribute) → option Setting.
Variable getargspec : nat → list string * option (list attribute).

Local Abbreviation create :=
  (create_groups check_setting_name construct getargspec).
Local Abbreviation loop fuel :=
  (add_groups construct getargspec (create fuel)).

(** What a call on the root of an accepted tree does, when no dictionary
    occurs twice in the tree: it returns a new group, leaves the groups that
    the store held as they were, and removes [groups] from the dictionaries
    of the tree and from no other; the new group is as the tree describes it
    in every store that holds the groups made by the call as the call left
    them. *)
Definition created (T : dict_tree) : Prop :=
  ∀ depth dicts objs fuel,
    dict_unfold depth dicts (dict_root T) = Some T →
    NoDup (dict_ids T) →
    dict_size T ≤ fuel →
    ∃ dicts' objs' g,
      create fuel dicts objs (dict_root T) = Some (dicts', objs', Returns g)
      ∧ objs !! g = None
      ∧ (∀ g', is_Some (objs !! g') → objs' !! g' = objs !! g')
      ∧ (∀ id, dicts' !! id
               = if decide (id ∈ dict_ids T) then pop_groups <$> dicts !! id
                 else dicts !! id)
      ∧ (∀ objs'',
           (∀ g', objs !! g' = None → is_Some (objs' !! g') →
                  objs'' !! g' = objs' !! g') →
           describes objs'' T g).

Lemma add_groups_app fuel g dicts objs refs refs' :
  loop fuel g dicts objs (refs ++ refs')
  = match loop fuel g dicts objs refs with
    | Some (dicts', objs', Returns _) => loop fuel g dicts' objs' refs'
    | other => other
    end.
Proof.
  revert dicts objs. induction refs as [|r refs IH]; intros dicts objs; simpl;
    [done|].
  destruct (create fuel dicts objs r) as [[[dicts1 objs1] [c|e]]|]; [|done..].
  destruct (_add_setting objs1 g (NGroup c)) as [objs2|e]; [apply IH | done].
Qed.

Lemma add_groups_created trees :
  Forall created trees →
  ∀ depth dicts objs fuel g G,
    objs !! g = Some G →
    Forall (λ c, dict_unfold depth dicts (dict_root c) = Some c) trees →
    NoDup (concat (map dict_ids trees)) →
    (∀ c, c ∈ trees → dict_size c ≤ fuel) →
    NoDup (tree_name <$> trees) →
    (∀ c name, c ∈ trees → tree_name c = Some name →
               od_get name (_settings G) = None) →
    ∃ dicts' objs' groups,
      loop fuel g dicts objs (dict_root <$> trees) = Some (dicts', objs', Returns g)
      ∧ objs' !! g
        = Some (mkGroup (g_name G) (g_tags G) (setting_attributes G)
                  (_settings G
                   ++ ((λ c, (node_name objs' (NGroup c), NGroup c)) <$> groups)))
      ∧ (∀ g', g' ≠ g → is_Some (objs !! g') → objs' !! g' = objs !! g')
      ∧ (∀ c, c ∈ groups → objs !! c = None ∧ is_Some (objs' !! c))
      ∧ (∀ id, dicts' !! id
               = if decide (id ∈ concat (map dict_ids trees))
                 then pop_groups <$> dicts !! id else dicts !! id)
      ∧ Forall2 (λ T c,
           ∀ objs'',
             (∀ g', objs !! g' = None → is_Some (objs' !! g') →
                    objs'' !! g' = objs' !! g') →
             describes objs'' T c) trees groups.
Proof.
  induction 1 as [|T trees HT _ IH];
    intros depth dicts objs fuel g G Hg Hshape Hids Hsize Hnames Hfresh.
  - exists dicts, objs, []. simpl. rewrite app_nil_r.
    split_and!; [done | | done | | done | constructor].
    + rewrite Hg. by destruct G.
    + by intros c ?%elem_of_nil.
  - rewrite fmap_cons in Hnames. apply NoDup_cons in Hnames as [Hname Hnames].
    simpl in Hids. apply NoDup_app in Hids as (HidsT & Hdisjoint & Hidsrest).
    apply Forall_cons in Hshape as [HshapeT Hshape].
    destruct (HT depth dicts objs fuel HshapeT HidsT)
      as (dicts1 & objs1 & c & Hcreate & Hc & Hframe1 & Hdicts1 & Hdescribes1);
      [apply Hsize; left|].
    assert (c ≠ g) as Hcg by (intros ->; congruence).
    assert (objs1 !! g = Some G) as Hg1 by (rewrite Hframe1; eauto).
    pose proof (Hdescribes1 objs1 (λ _ _ _, eq_refl)) as Hdc.
    inversion Hdc as [id D below ? Gc below_groups HGc Hdname _ _ _ _]; subst.
    set (name := g_name Gc) in *.
    assert (od_get name (_settings G) = None) as Habsent
      by (apply (Hfresh (DictTree id D below)); [left | done]).
    set (objs2 := set_settings objs1 g name (NGroup c)).
    assert (_add_setting objs1 g (NGroup c) = Ok objs2) as Hadd.
    { unfold _add_setting. simpl. rewrite HGc. simpl.
      unfold settings_of. rewrite Hg1. fold name.
      rewrite (proj2 (od_contains_false _ _) Habsent).
      rewrite decide_False; [done|]. by intros [= ->]. }
    set (G2 := mkGroup (g_name G) (g_tags G) (setting_attributes G)
                 (_settings G ++ [(name, NGroup c)])).
    assert (objs2 !! g = Some G2) as Hg2.
    { unfold objs2, set_settings. rewrite lookup_alter_eq, Hg1. simpl.
      by rewrite od_set_absent. }
    assert (∀ g', g' ≠ g → objs2 !! g' = objs1 !! g') as Hother
      by (intros g' Hne; by apply set_settings_other).
    assert (∀ g', objs2 !! g' = None → objs !! g' = None) as Hnew.
    { intros g' Hnone. destruct (objs !! g') as [G'|] eqn:HG'; [|done].
      assert (is_Some (objs2 !! g')) as [? ?]; [|congruence].
      apply set_settings_is_Some. rewrite Hframe1; eauto. }
    destruct (IH depth dicts1 objs2 fuel g G2 Hg2)
      as (dicts3 & objs3 & groups & Hloop & Hg3 & Hframe3 & Hgroups & Hdicts3
          & Hdescribes3).
    { rewrite Forall_forall in Hshape |- *. intros c' Hc'.
      eapply dict_unfold_frame; [by apply Hshape|]. intros id' Hid'.
      rewrite Hdicts1, decide_False; [done|]. intros Hin.
      apply (Hdisjoint id' Hin), elem_of_concat_map. eauto. }
    { done. }
    { intros c' Hc'. apply Hsize. by right. }
    { done. }
    { intros T' name' HT' Hname'. simpl.
      rewrite <-od_set_absent by done.
      rewrite od_get_set_ne; [by eapply Hfresh; [right|]|].
      intros <-. apply Hname. simpl. rewrite Hdname, <-Hname'.
      by apply list_elem_of_fmap_2. }
    assert (objs3 !! c = Some Gc) as Hc3.
    { rewrite Hframe3, Hother by (try done; rewrite Hother, HGc; eauto). done. }
    simpl in Hcreate.
    exists dicts3, objs3, (c :: groups). simpl. rewrite Hcreate, Hadd.
    split_and!.
    + done.
    + rewrite Hg3. simpl. rewrite Hc3. simpl. by rewrite <-app_assoc.
    + intros g' Hne Hg'. rewrite Hframe3, Hother, Hframe1; try done.
      rewrite Hother, Hframe1; done.
    + intros c' [->|Hc']%elem_of_cons; [by rewrite Hc3; eauto|].
      destruct (Hgroups c' Hc') as [? ?]. eauto.
    + intros id'. rewrite Hdicts3, Hdicts1.
      assert (id' ∈ concat (map dict_ids (DictTree id D below :: trees))
              ↔ id' ∈ dict_ids (DictTree id D below)
                ∨ id' ∈ concat (map dict_ids trees)) as Hsplit
        by apply elem_of_app.
      pose proof (Hdisjoint id') as Hid'.
      change (id :: concat (map dict_ids below))
        with (dict_ids (DictTree id D below)) in Hid'.
      clear -Hsplit Hid'.
      repeat case_decide; try done; exfalso; tauto.
    + constructor.
      * intros objs'' Hagree. apply Hdescribes1. intros g' Hnone Hsome.
        assert (g' ≠ g) as Hne by (intros ->; congruence).
        assert (objs3 !! g' = objs1 !! g') as Heq.
        { rewrite Hframe3, Hother; try done. by rewrite Hother. }
        rewrite <-Heq. apply Hagree; [done|]. by rewrite Heq.
      * eapply Forall2_impl; [exact Hdescribes3|]. simpl.
        intros T' c' HT' objs'' Hagree. apply HT'. eauto.
Qed.

Lemma init_accepted D name :
  dict_name D = Some name →
  check_setting_name name = true →
  Forall (λ key, key ∈ ["display_name"; "description"]) (dict_other_keys D) →
  __init__ check_setting_name (pop_groups D)
  = Returns (mkGroup name (default ∅ (dict_tags D))
               (default [] (dict_setting_attributes D)) []).
Proof.
  intros HD Hname Hkeys. unfold __init__. simpl. rewrite HD, Hname.
  assert (forallb (λ key, bool_decide (key ∈ ["display_name"; "description"]))
            (dict_other_keys D) = true) as ->; [|done].
  apply forallb_forall. rewrite Forall_forall in Hkeys.
  intros key Hkey%list_elem_of_In. by apply bool_decide_eq_true_2, Hkeys.
Qed.

(** The children of a node that is the tree under a dictionary. *)
Lemma dict_unfold_children depth dicts id D children :
  dict_unfold depth dicts id = Some (DictTree id D children) →
  NoDup (id :: concat (map dict_ids children)) →
  dicts !! id = Some D
  ∧ default [] (dict_groups D) = dict_root <$> children
  ∧ ∃ depth',
      Forall (λ c, dict_unfold depth' (<[id := pop_groups D]> dicts) (dict_root c)
                   = Some c) children.
Proof.
  destruct depth as [|depth]; [done|].
  intros (D' & children' & HD & [= <- <-] & Hm)%dict_unfold_node Hids.
  apply NoDup_cons in Hids as [Hid _].
  split_and!; [done | |].
  - clear -Hm. induction Hm as [|r c refs children Hc _ IH]; [done|].
    rewrite fmap_cons, IH. f_equal. symmetry. by eapply dict_unfold_root.
  - exists depth. apply Forall_forall. intros c Hc.
    destruct (proj1 (list_elem_of_lookup _ _) Hc) as [i Hi].
    destruct (Forall2_lookup_r _ _ _ _ _ Hm Hi) as (r & _ & Hr).
    rewrite (dict_unfold_root _ _ _ _ Hr).
    eapply dict_unfold_frame; [exact Hr|]. intros id' Hid'.
    apply lookup_insert_ne. intros <-. apply Hid, elem_of_concat_map. eauto.
Qed.

Lemma create_groups_created T :
  accepted check_setting_name T → created T.
Proof.
  induction T as [id D children IH] using dict_tree_induction.
  intros Haccepted depth dicts objs fuel Hshape Hids Hsize.
  inversion Haccepted as [? ? name ? HD Hname Hkeys Hnames Hchildren]; subst.
  simpl in Hshape, Hids, Hsize.
  destruct (dict_unfold_children _ _ _ _ _ Hshape Hids)
    as (Hlookup & Hrefs & depth' & Hshapes).
  destruct fuel as [|fuel]; [lia|].
  set (g := fresh (dom objs)).
  set (G := mkGroup name (default ∅ (dict_tags D))
              (default [] (dict_setting_attributes D)) []).
  assert (objs !! g = None) as Hg by apply not_elem_of_dom, is_fresh.
  assert (Forall created children) as Hcreated.
  { rewrite Forall_forall in IH, Hchildren |- *. intros c Hc. apply IH; auto. }
  pose proof Hids as [Hid Hidschildren]%NoDup_cons.
  destruct (add_groups_created children Hcreated depth'
              (<[id := pop_groups D]> dicts) (<[g := G]> objs) fuel g G)
    as (dicts' & objs' & groups & Hloop & Hg' & Hframe & Hgroups & Hdicts
        & Hdescribes).
  { apply lookup_insert_eq. }
  { done. }
  { done. }
  { intros c Hc. apply list_sum_elem_size in Hc. lia. }
  { done. }
  { done. }
  assert (∀ g', <[g := G]> objs !! g' = None → objs !! g' = None) as Hnew.
  { intros g' Hnone. destruct (decide (g' = g)) as [->|Hne]; [done|].
    by rewrite lookup_insert_ne in Hnone. }
  exists dicts', objs', g. split_and!.
  - simpl. rewrite Hlookup. simpl.
    rewrite (init_accepted D name HD Hname Hkeys), Hrefs. exact Hloop.
  - done.
  - intros g' Hsome.
    assert (g' ≠ g) as Hne
      by (intros ->; rewrite Hg in Hsome; by apply is_Some_None in Hsome).
    rewrite Hframe; [by rewrite lookup_insert_ne | done |].
    by rewrite lookup_insert_ne.
  - intros id'. rewrite Hdicts.
    destruct (decide (id' = id)) as [->|Hne].
    + rewrite decide_False by done. rewrite decide_True by left.
      by rewrite lookup_insert_eq, Hlookup.
    + rewrite lookup_insert_ne by done.
      destruct (decide (id' ∈ concat (map dict_ids children))) as [Hin|Hin].
      * by rewrite decide_True by (by right).
      * rewrite decide_False; [done|]. by intros [?|?]%elem_of_cons.
  - intros objs'' Hagree.
    assert (∀ c, c ∈ groups → objs'' !! c = objs' !! c) as Hsame.
    { intros c Hc. destruct (Hgroups c Hc) as [Hnone Hsome]. eauto. }
    eapply describes_group.
    + rewrite Hagree; [exact Hg' | done | by rewrite Hg'; eauto].
    + done.
    + done.
    + done.
    + simpl. apply list_fmap_ext. intros ? c Hc%list_elem_of_lookup_2. simpl.
      by rewrite Hsame.
    + eapply Forall2_impl; [exact Hdescribes|]. simpl.
      intros T c HT. apply HT. eauto.
Qed.
(** X21.  [create_groups] on a dictionary under which no dictionary object
    occurs twice and whose tree is accepted, that is, every dictionary of it
    has a name that passes the check and only keys that [SettingGroup] knows
    and the dictionaries under one [groups] key have different names, ends
    and returns a new group, and leaves the groups that the store held as
    they were.  The new group has the name, the tags and the default
    attributes of the dictionary, and its children are, in the order of the
    list under [groups] and under their names, the groups created in the same
    way from the dictionaries of that list.  The call removes the key
    [groups] from every dictionary of the tree and changes nothing else in
    the dictionaries, so that a second call on the same dictionary returns a
    group of the same name without children. *)
Theorem create_groups_described objs dicts setting_dict depth T fuel :
  dict_unfold depth dicts setting_dict = Some T →
  NoDup (dict_ids T) →
  accepted check_setting_name T →
  dict_size T ≤ fuel →
  ∃ dicts' objs' g,
    create fuel dicts objs setting_dict = Some (dicts', objs', Returns g)
    ∧ objs !! g = None
    ∧ (∀ g', is_Some (objs !! g') → objs' !! g' = objs !! g')
    ∧ describes objs' T g
    ∧ (∀ id, dicts' !! id
             = if decide (id ∈ dict_ids T) then pop_groups <$> dicts !! id
               else dicts !! id)
    ∧ ∃ G,
        create fuel dicts' objs' setting_dict
        = Some (dicts', <[fresh (dom objs') := G]> objs',
                Returns (fresh (dom objs')))
        ∧ tree_name T = Some (g_name G) ∧ _settings G = [].
Proof.
  intros Hshape Hids Haccepted Hsize.
  pose proof (dict_unfold_root _ _ _ _ Hshape) as Hroot. subst setting_dict.
  destruct (create_groups_created T Haccepted depth dicts objs fuel Hshape Hids
              Hsize)
    as (dicts' & objs' & g & Hcreate & Hg & Hframe & Hdicts & Hdescribes).
  exists dicts', objs', g. split_and!; [done..|by apply Hdescribes|done|].
  destruct T as [id D children]. simpl dict_root in *.
  inversion Haccepted as [? ? name ? Hname Hcheck Hkeys _ _]; subst.
  destruct depth as [|depth]; [done|].
  apply dict_unfold_node in Hshape as (D' & children' & HD & [= <- <-] & _).
  destruct fuel as [|fuel]; [simpl in Hsize; lia|].
  assert (dicts' !! id = Some (pop_groups D)) as HD'.
  { rewrite Hdicts, decide_True by left. by rewrite HD. }
  eexists. split_and!.
  - simpl. rewrite HD'. simpl.
    change (pop_groups (pop_groups D)) with (pop_groups D).
    rewrite (init_accepted D name Hname Hcheck Hkeys). simpl.
    by rewrite insert_id.
  - done.
  - done.
Qed.

Lemma od_values_groups objs (groups : list nat) :
  od_values ((λ c, (node_name objs (NGroup c), NGroup c)) <$> groups)
  = NGroup <$> groups.
Proof.
  unfold od_values. induction groups as [|c groups IH]; [done|].
  rewrite !fmap_cons. simpl. f_equal. exact IH.
Qed.

Lemma described_names objs trees groups :
  Forall2 (describes objs) trees groups →
  tree_name <$> trees = (λ c, Some (node_name objs (NGroup c))) <$> groups.
Proof.
  induction 1 as [|T c trees groups HT _ IH]; [done|].
  rewrite !fmap_cons, IH. f_equal.
  inversion HT as [? ? ? ? Gc ? HGc Hname _ _ _ _]; subst. simpl.
  by rewrite HGc.
Qed.

(** X22.  When a dictionary under [groups] has the name of one before it
    in the list, [create_groups] raises the [ValueError] of [add] for a name
    that exists already.  By then the new group holds, in order, the groups
    created from the dictionaries before, the group of the dictionary with
    the repeated name has been created too and is no child of the new group,
    and [groups] has been removed from the dictionary given, from those
    before and from the one with the repeated name, with what is under them,
    and from no other dictionary.  The groups that the store held are as they
    were. *)
Theorem create_groups_duplicate objs dicts setting_dict D name depth trees T
    after fuel :
  dicts !! setting_dict = Some D →
  dict_name D = Some name →
  check_setting_name name = true →
  Forall (λ key, key ∈ ["display_name"; "description"]) (dict_other_keys D) →
  dict_groups D = Some ((dict_root <$> trees) ++ dict_root T :: after) →
  Forall (λ c, dict_unfold depth dicts (dict_root c) = Some c) (trees ++ [T]) →
  NoDup (setting_dict :: concat (map dict_ids (trees ++ [T]))) →
  Forall (accepted check_setting_name) (trees ++ [T]) →
  NoDup (tree_name <$> trees) →
  tree_name T ∈ tree_name <$> trees →
  (∀ c, c ∈ trees ++ [T] → dict_size c ≤ fuel) →
  ∃ dicts' objs' g groups c,
    create (S fuel) dicts objs setting_dict
    = Some (dicts', objs', Raises (Raised (ValueError already_exists)))
    ∧ (∀ g', is_Some (objs !! g') → objs' !! g' = objs !! g')
    ∧ objs !! g = None
    ∧ objs !! c = None
    ∧ node_name objs' (NGroup g) = name
    ∧ __iter__ objs' g = NGroup <$> groups
    ∧ Forall2 (describes objs') trees groups
    ∧ describes objs' T c
    ∧ (c ∉ groups)
    ∧ (∀ id, dicts' !! id
             = if decide (id ∈ setting_dict
                               :: concat (map dict_ids (trees ++ [T])))
               then pop_groups <$> dicts !! id else dicts !! id).
Proof.
  intros HD Hname Hcheck Hkeys Hrefs Hshapes Hids Haccepted Hnames Hduplicate
    Hsize.
  apply Forall_app in Haccepted as [Hbefore HT%Forall_inv].
  apply Forall_app in Hshapes as [Hshapes HshapeT%Forall_inv].
  rewrite map_app, concat_app in Hids. simpl in Hids. rewrite app_nil_r in Hids.
  apply NoDup_cons in Hids as [Hroot Hids].
  apply not_elem_of_app in Hroot as [Hroot HrootT].
  apply NoDup_app in Hids as (Hidsbefore & Hdisjoint & HidsT).
  set (g := fresh (dom objs)).
  set (G := mkGroup name (default ∅ (dict_tags D))
              (default [] (dict_setting_attributes D)) []).
  set (dicts0 := <[setting_dict := pop_groups D]> dicts).
  assert (objs !! g = None) as Hg by apply not_elem_of_dom, is_fresh.
  assert (Forall created trees) as Hcreated.
  { eapply Forall_impl; [exact Hbefore|]. apply create_groups_created. }
  destruct (add_groups_created trees Hcreated depth dicts0 (<[g := G]> objs) fuel
              g G)
    as (dicts1 & objs1 & groups & Hloop & Hg1 & Hframe1 & Hgroups & Hdicts1
        & Hdescribes).
  { apply lookup_insert_eq. }
  { rewrite Forall_forall in Hshapes |- *. intros c Hc.
    eapply dict_unfold_frame; [by apply Hshapes|]. intros id Hid.
    apply lookup_insert_ne. intros <-. apply Hroot, elem_of_concat_map. eauto. }
  { done. }
  { intros c Hc. apply Hsize, elem_of_app. by left. }
  { done. }
  { done. }
  destruct (create_groups_created T HT depth dicts1 objs1 fuel)
    as (dicts2 & objs2 & c & Hcreate & Hc & Hframe2 & Hdicts2 & Hdescribes2).
  { eapply dict_unfold_frame; [exact HshapeT|]. intros id Hid.
    rewrite Hdicts1, decide_False by (intros Hin; by apply (Hdisjoint id)).
    apply lookup_insert_ne. by intros <-. }
  { done. }
  { apply Hsize, elem_of_app. right. left. }
  assert (objs2 !! g = objs1 !! g) as Hg2 by (apply Hframe2; rewrite Hg1; eauto).
  assert (Forall2 (describes objs2) trees groups) as Hdescribed.
  { eapply Forall2_impl; [exact Hdescribes|]. simpl. intros T' c' HT'.
    apply HT'. intros g' _ Hsome. by apply Hframe2. }
  pose proof (Hdescribes2 objs2 (λ _ _ _, eq_refl)) as Hdc.
  assert (∀ c', c' ∈ groups → objs2 !! c' = objs1 !! c') as Hsame.
  { intros c' Hc'. apply Hframe2. by destruct (Hgroups c' Hc'). }
  assert (settings_of objs2 g
          = (λ c', (node_name objs2 (NGroup c'), NGroup c')) <$> groups)
    as Hsettings.
  { unfold settings_of. rewrite Hg2, Hg1. simpl.
    apply list_fmap_ext. intros ? c' Hc'%list_elem_of_lookup_2. simpl.
    by rewrite Hsame. }
  assert (∃ Gc, objs2 !! c = Some Gc ∧ tree_name T = Some (g_name Gc))
    as (Gc & HGc & HnameT).
  { inversion Hdc as [? ? ? ? Gc ? HGc HnameT _ _ _ _]; subst. eauto. }
  assert (od_contains (g_name Gc) (settings_of objs2 g) = true) as Hexists.
  { apply od_contains_true. rewrite Hsettings.
    rewrite (described_names _ _ _ Hdescribed), HnameT in Hduplicate.
    apply list_elem_of_fmap in Hduplicate as (c' & [= Hc'] & Hin).
    destruct (od_get (g_name Gc) _) eqn:Hget; [eauto|].
    apply od_get_None_keys in Hget. exfalso. apply Hget.
    rewrite <-list_fmap_compose. apply list_elem_of_fmap. by exists c'. }
  exists dicts2, objs2, g, groups, c. split_and!.
  - simpl. rewrite HD. simpl. rewrite (init_accepted D name Hname Hcheck Hkeys).
    rewrite Hrefs. simpl. fold g G dicts0.
    rewrite add_groups_app, Hloop. simpl. rewrite Hcreate.
    unfold _add_setting. simpl. rewrite HGc. simpl. by rewrite Hexists.
  - intros g' Hsome.
    assert (g' ≠ g) as Hne
      by (intros ->; rewrite Hg in Hsome; by apply is_Some_None in Hsome).
    assert (objs1 !! g' = objs !! g') as Heq.
    { rewrite Hframe1; [by rewrite lookup_insert_ne | done |].
      by rewrite lookup_insert_ne. }
    rewrite Hframe2, Heq; [done|]. by rewrite Heq.
  - done.
  - destruct (objs !! c) as [Gc'|] eqn:HGc'; [|done]. exfalso.
    destruct (decide (c = g)) as [->|Hne]; [congruence|].
    rewrite Hframe1, lookup_insert_ne, HGc' in Hc; [done..|].
    rewrite lookup_insert_ne, HGc' by done. eauto.
  - simpl. by rewrite Hg2, Hg1.
  - unfold __iter__. rewrite Hsettings. apply od_values_groups.
  - done.
  - done.
  - intros Hin. destruct (Hgroups c Hin) as [_ [? ?]]. congruence.
  - intros id. rewrite Hdicts2, Hdicts1. unfold dicts0.
    assert (id ∈ setting_dict :: concat (map dict_ids (trees ++ [T]))
            ↔ id = setting_dict ∨ id ∈ concat (map dict_ids trees)
              ∨ id ∈ dict_ids T) as Hsplit.
    { rewrite map_app, concat_app. simpl. rewrite app_nil_r.
      by rewrite elem_of_cons, elem_of_app. }
    pose proof (Hdisjoint id) as Hid.
    destruct (decide (id = setting_dict)) as [->|Hne].
    + rewrite lookup_insert_eq, HD. clear -Hsplit Hroot HrootT.
      repeat case_decide; try done; exfalso; tauto.
    + rewrite lookup_insert_ne by done. clear -Hsplit Hid Hne.
      repeat case_decide; try done; exfalso; tauto.
Qed.
End CreateGroupsFacts.

Lemma sample_dict_unfold : dict_unfold 2 sample_dicts 0 = Some sample_dict_tree.
Proof. reflexivity. Qed.

Lemma sample_dict_accepted : accepted (λ _, true) sample_dict_tree.
Proof.
  econstructor; [done | done | constructor | |].
  - apply (bool_decide_unpack _). by vm_compute.
  - repeat econstructor.
Qed.

Lemma create_groups_described_witness :
  ∃ dicts' objs' g,
    create_groups (λ _, true) sample_construct sample_getargspec 3 sample_dicts
      sample_objs 0
    = Some (dicts', objs', Returns g)
    ∧ sample_objs !! g = None
    ∧ (∀ g', is_Some (sample_objs !! g') → objs' !! g' = sample_objs !! g')
    ∧ describes objs' sample_dict_tree g
    ∧ (∀ id, dicts' !! id
             = if decide (id ∈ dict_ids sample_dict_tree)
               then pop_groups <$> sample_dicts !! id else sample_dicts !! id)
    ∧ ∃ G,
        create_groups (λ _, true) sample_construct sample_getargspec 3 dicts'
          objs' 0
        = Some (dicts', <[fresh (dom objs') := G]> objs',
                Returns (fresh (dom objs')))
        ∧ tree_name sample_dict_tree = Some (g_name G) ∧ _settings G = [].
Proof.
  apply (create_groups_described (λ _, true) sample_construct sample_getargspec
           sample_objs sample_dicts 0 2 sample_dict_tree 3).
  - exact sample_dict_unfold.
  - apply (bool_decide_unpack _). by vm_compute.
  - exact sample_dict_accepted.
  - simpl. lia.
Defined.

Lemma create_groups_duplicate_witness :
  ∃ dicts' objs' g groups c,
    create_groups (λ _, true) sample_construct sample_getargspec 2 duplicate_dicts
      sample_objs 0
    = Some (dicts', objs', Raises (Raised (ValueError already_exists)))
    ∧ (∀ g', is_Some (sample_objs !! g') → objs' !! g' = sample_objs !! g')
    ∧ sample_objs !! g = None
    ∧ sample_objs !! c = None
    ∧ node_name objs' (NGroup g) = "main"
    ∧ __iter__ objs' g = NGroup <$> groups
    ∧ Forall2 (describes objs')
        [DictTree 1 (mkGroupDict (Some "procedures") None None [] None) []]
        groups
    ∧ describes objs'
        (DictTree 2 (mkGroupDict (Some "procedures") (Some ∅) None [] None) []) c
    ∧ (c ∉ groups)
    ∧ (∀ id, dicts' !! id
             = if decide (id ∈ [0; 1; 2])
               then pop_groups <$> duplicate_dicts !! id
               else duplicate_dicts !! id).
Proof.
  apply (create_groups_duplicate (λ _, true) sample_construct sample_getargspec
           sample_objs duplicate_dicts 0
           (mkGroupDict (Some "main") None None [] (Some [1; 2; 3])) "main" 1
           [DictTree 1 (mkGroupDict (Some "procedures") None None [] None) []]
           (DictTree 2 (mkGroupDict (Some "procedures") (Some ∅) None [] None) [])
           [3] 1).
  - reflexivity.
  - reflexivity.
  - reflexivity.
  - constructor.
  - reflexivity.
  - repeat constructor.
  - apply (bool_decide_unpack _). by vm_compute.
  - repeat econstructor.
  - apply (bool_decide_unpack _). by vm_compute.
  - apply (bool_decide_unpack _). by vm_compute.
  - intros c [->%list_elem_of_singleton| ->%list_elem_of_singleton]%elem_of_app;
      simpl; lia.
Defined.

(** One dictionary object [s], which holds the group [t], stands under both
    [a] and [b]: the first visit removes [groups] from it, so that the group
    made from it under [a] has the child [t] and the one made under [b] has
    no child. *)
Example create_groups_shared :
  ∃ dicts objs g s,
    create_groups (λ _, true) sample_construct sample_getargspec 4 shared_dicts ∅ 0
    = Some (dicts, objs, Returns g)
    ∧ (∃ t, __getitem__ objs g "a/s/t" = Ok (NGroup t))
    ∧ __getitem__ objs g "b/s" = Ok (NGroup s)
    ∧ __len__ objs s = 0
    ∧ __getitem__ objs g "b/s/t" = Raise (KeyError setting_not_found_in_path).
Proof.
  vm_compute. do 4 eexists. split; [reflexivity|].
  split_and!; [by eexists | reflexivity..].
Qed.

(** ** Settings that cannot be constructed *)

(** X23.  When the setting class refuses the keyword arguments made from
    an otherwise acceptable description, [add] raises [TypeError] if the
    constructor of the class has a required argument.  The error names the
    required arguments, [self] apart, that are given neither by the
    description nor by the defaults of the group, in the order of the
    arguments; when none is missing, the error is the one of the class.  If
    the constructor has no required argument at all, the [IndexError] of
    [_get_required_argument_names] is raised instead. *)
Theorem missing_attributes_reported construct getargspec objs self setting_data
    name setting_type required optional defaults :
  od_get "type" setting_data = Some (AType setting_type) →
  od_get "name" setting_data = Some (AStr name) →
  contains_separator name = false →
  od_get name (settings_of objs self) = None →
  (∀ arguments,
     (∀ k, od_get k arguments
           = constructor_argument
               (from_option setting_attributes [] (objs !! self)) setting_data k) →
     construct setting_type arguments = None) →
  getargspec setting_type = (required ++ optional, defaults) →
  length optional = length (default [] defaults) →
  _create_setting construct getargspec objs self setting_data
  = match required with
    | [] => Raise IndexError
    | first :: others =>
        Raise (TypeError
                 match filter (λ arg_name,
                           ¬ is_Some (constructor_argument
                                        (from_option setting_attributes []
                                           (objs !! self)) setting_data arg_name))
                         (if decide (first = "self") then others
                          else first :: others) with
                 | [] => constructor_failed
                 | missing => missing_required_attributes missing
                 end)
    end.
Proof.
  intros Htype Hname Hsep Hfresh Hrefused Hspec Hlen.
  unfold _create_setting, _instantiate_setting. rewrite Htype.
  rewrite od_get_filter_ne, Hname, Hsep by done.
  rewrite (proj2 (od_contains_false _ _) Hfresh).
  set (arguments := fold_left _ _ _).
  assert (∀ k, od_get k arguments
               = constructor_argument
                   (from_option setting_attributes [] (objs !! self))
                   setting_data k) as Harguments.
  { intros k. unfold arguments, constructor_argument.
    rewrite merge_defaults_get.
    destruct (decide (k = "type")) as [->|Hne].
    - by rewrite od_get_filter_eq.
    - by rewrite od_get_filter_ne. }
  rewrite (Hrefused arguments Harguments).
  unfold _get_missing_required_arguments, _get_required_argument_names.
  rewrite Hspec. simpl. rewrite required_args_slice by done.
  destruct required as [|first others]; [done|].
  set (required_arg_names :=
         if decide (first = "self") then others else first :: others).
  assert ((if decide (first = "self") then Ok others else Ok (first :: others))
          = Ok required_arg_names) as ->
    by (unfold required_arg_names; by destruct (decide _)).
  assert (filter (λ arg_name, od_contains arg_name arguments = false)
            required_arg_names
          = filter (λ arg_name,
                      ¬ is_Some (constructor_argument
                                   (from_option setting_attributes []
                                      (objs !! self)) setting_data arg_name))
              required_arg_names) as ->;
    [|by destruct (filter _ required_arg_names)].
  apply list_filter_iff. intros arg_name. rewrite <-Harguments.
  unfold od_contains. by rewrite bool_decide_eq_false.
Qed.

Lemma missing_attributes_reported_witness :
  _create_setting (λ _ _, None) (λ _, (["self"; "name"; "default_value"], None))
    sample_objs 2 [("type", AType 7); ("name", AStr "e")]
  = Raise (TypeError (missing_required_attributes ["default_value"]))
  ∧ _create_setting (λ _ _, None) (λ _, (["default_value"], Some [AStr ""]))
      sample_objs 2 [("type", AType 7); ("name", AStr "e")]
    = Raise IndexError.
Proof.
  split.
  - exact (missing_attributes_reported (λ _ _, None)
             (λ _, (["self"; "name"; "default_value"], None)) sample_objs 2
             [("type", AType 7); ("name", AStr "e")] "e" 7
             ["self"; "name"; "default_value"] [] None
             eq_refl eq_refl eq_refl eq_refl (λ _ _, eq_refl) eq_refl eq_refl).
  - exact (missing_attributes_reported (λ _ _, None)
             (λ _, (["default_value"], Some [AStr ""])) sample_objs 2
             [("type", AType 7); ("name", AStr "e")] "e" 7
             [] ["default_value"] (Some [AStr ""])
             eq_refl eq_refl eq_refl eq_refl (λ _ _, eq_refl) eq_refl eq_refl).
Defined.
